(** * NEAT gen_reads.py: the driver of the read simulator

    A shallow embedding of [main] of [gen_reads.py]: argument validation,
    RNG seeding, pruning of the input VCF, and the window scheduler that
    walks the non-N spans of a contig, together with the properties of
    these parts that the specification states.

    Conventions.
    - Python [int] is [Z]; list indices are [nat].
    - Python [float] values (coverage, rates, coverage multipliers) are
      held as the rational they denote ([Q]).  Where [main] computes
      with them and the rounding can show, in the read budget of lines
      632-648, the arithmetic is that of IEEE 754 binary64 (the
      Standard Library's [SpecFloat]); comparisons with a bound are
      exact on the rationals.  [int(x)] on a float is truncation toward
      zero.
    - Classes and helpers imported from [source.*] are not part of the
      driver; they appear as operations of an interface or as outcomes
      supplied by the environment. *)

From Stdlib Require Import ZArith QArith Qround Lia List String Ascii Bool.
From stdpp Require Import base option list strings gmap pretty.
From Stdlib Require Import Sorted Lqa SpecFloat.
Import ListNotations.

Open Scope Z_scope.

(** ** Python primitives used by the driver *)

Module Py.

(** [int(x)] for a float [x]: truncation toward zero. *)
Definition int_of_float (x : Q) : Z := Z.quot (Qnum x) (Zpos (Qden x)).

Definition Qlt_bool (a b : Q) : bool := negb (Qle_bool b a).

(** Normalisation of one bound of a slice [s[a:b]] on a sequence of
    length [n]: negative bounds count from the end, and both ends are
    clamped to the sequence. *)
Definition slice_bound (n i : Z) : Z :=
  if i <? 0 then Z.max 0 (i + n) else Z.min i n.

(** [s[a:b]] on a string. *)
Definition slice (s : string) (a b : Z) : string :=
  let n := Z.of_nat (String.length s) in
  let a' := slice_bound n a in
  let b' := slice_bound n b in
  String.substring (Z.to_nat a') (Z.to_nat (b' - a')) s.

(** [c in s] for a character and a string. *)
Definition char_in (c : ascii) (s : string) : bool :=
  existsb (Ascii.eqb c) (list_ascii_of_string s).

(** [sum(l)] on a list of floats. *)
Definition sum (l : list Q) : Q := fold_left Qplus l 0%Q.

(** [[x] * n]: list repetition; a negative count gives the empty list. *)
Definition repeat {A} (x : A) (n : Z) : list A := List.repeat x (Z.to_nat n).

(** [range(a, b)]. *)
Definition range (a b : Z) : list Z :=
  List.map (fun k => a + Z.of_nat k) (List.seq 0 (Z.to_nat (b - a))).

(** [bisect.bisect(l, x)] on a sorted list: the insertion point to the
    right of the entries equal to [x], that is, the number of entries
    that are [<= x]. *)
Definition bisect (l : list Z) (x : Z) : Z :=
  Z.of_nat (List.length (List.filter (fun y => y <=? x) l)).

End Py.

(** ** Command line and input validation (lines 102-212) *)

(** The values [argparse] hands to [main]. *)
Record args := {
  arg_R : Z;                       (* -R read length *)
  arg_c : Q;                       (* -c coverage *)
  arg_E : Q;                       (* -E error rate rescale, default -1 *)
  arg_p : Z;                       (* -p ploidy *)
  arg_tr : option string;          (* -tr target bed *)
  arg_dr : option string;          (* -dr discard bed *)
  arg_to : Q;                      (* -to off-target scalar *)
  arg_M : Q;                       (* -M mutation rate rescale, default -1 *)
  arg_N : Z;                       (* -N min quality, default -1 *)
  arg_v : option string;           (* -v input vcf *)
  arg_pe : option Z * option Z;    (* --pe mean std *)
  arg_pe_model : option string;    (* --pe-model *)
  arg_bam : bool;
  arg_vcf : bool;
  arg_fa : bool;
  arg_rng : Z;                     (* --rng, default -1 *)
  arg_no_fastq : bool;
  arg_discard_offtarget : bool;
  arg_force_coverage : bool;
  arg_rescale_qual : bool
}.

(** What a run meets outside its command line: whether the files named
    on it open, whether the mutation model loads, and the number
    [random.randint(1, 99999999)] returns from the generator as the
    interpreter seeded it at start-up (from the operating system). *)
Record environment := {
  reference_opens : bool;
  input_vcf_opens : bool;
  target_bed_opens : bool;
  mutation_model_loads : bool;
  unseeded_randint : Z
}.

(** The configuration [main] works with once validation has passed. *)
Record config := {
  read_len : Z;
  coverage : Q;
  ploids : Z;
  off_target_scalar : Q;
  se_rate : option Q;
  mut_rate : option Q;
  n_max_qual : Z;
  fragment : option Z * option Z;
  paired_end : bool;
  rng_seed : Z;                    (* the argument of [random.seed] *)
  save_bam : bool;
  save_vcf : bool;
  create_fasta : bool;
  no_fastq : bool;
  only_vcf : bool;
  off_target_discard : bool;
  force_coverage : bool;
  rescale_qual : bool
}.

(** A computation of the driver either goes on with a value or ends the
    process: [sys.exit(code)], or an uncaught exception. *)
Inductive exec (A : Type) : Type :=
| Ok (a : A)
| SysExit (code : Z)
| Raised (exn : string).
Arguments Ok {A} a.
Arguments SysExit {A} code.
Arguments Raised {A} exn.

#[global] Instance exec_ret : MRet exec := fun A a => Ok a.
#[global] Instance exec_bind : MBind exec := fun A B k m =>
  match m with
  | Ok a => k a
  | SysExit c => SysExit c
  | Raised e => Raised e
  end.

(** Modelled from the spec: [source.input_checking.is_in_range] is not
    part of the driver.  The configuration table gives each numeric
    option a closed range, and a value outside it is a validation error,
    which ends the run with exit code 1. *)
Definition is_in_range (value lower upper : Q) : exec unit :=
  if Py.Qlt_bool value lower || Py.Qlt_bool upper value then SysExit 1 else Ok tt.

(** Modelled from the spec: [source.input_checking.check_file_open] is
    not part of the driver.  A missing file is a validation error (exit
    code 1); an optional file that was not given is not looked at. *)
Definition check_file_open (given opens required : bool) : exec unit :=
  if (required || given) && negb opens then SysExit 1 else Ok tt.

(** Modelled from the spec: [parse_input_mutation_model] is not part of
    the driver; a model that fails to load is fatal with exit code 1. *)
Definition parse_input_mutation_model (loads : bool) : exec unit :=
  if loads then Ok tt else SysExit 1.

Definition is_given {A} (o : option A) : bool :=
  match o with Some _ => true | None => false end.

(** Lines 183-185: the seed handed to [random.seed]. *)
Definition seed_of (rng : Z) (e : environment) : Z :=
  if rng =? -1 then unseeded_randint e else rng.

(** Lines 208-212. *)
Definition check_mut_rate (m : Q) : exec (option Q) :=
  let mut_rate := if Py.Qlt_bool m 0 then None else Some m in
  match mut_rate with
  | Some r =>
      if negb (Qeq_bool r (-1)) then is_in_range r 0 (3 # 10) ;; Ok (Some r)
      else Ok (Some r)
  | None => Ok None
  end.

(** Lines 152-212: everything [main] does before the models and the
    reference are loaded.  No output file exists yet: the
    [OutputFileWriter] is only created on line 393. *)
Definition validate (a : args) (e : environment) : exec config :=
  check_file_open true (reference_opens e) true ;;
  check_file_open (is_given (arg_v a)) (input_vcf_opens e) false ;;
  check_file_open (is_given (arg_tr a)) (target_bed_opens e) false ;;
  (if arg_no_fastq a && negb (arg_fa a) && negb (arg_bam a) && negb (arg_vcf a)
   then SysExit 1 else Ok tt) ;;
  let no_fq := if arg_fa a then true else arg_no_fastq a in
  let only := no_fq && arg_vcf a && negb (arg_bam a) && negb (arg_fa a) in
  let '(fragment_size, fragment_std) := arg_pe a in
  (if (negb (is_given fragment_size) && is_given fragment_std)
      || (is_given fragment_size && negb (is_given fragment_std))
   then SysExit 1 else Ok tt) ;;
  let paired := (is_given fragment_size && is_given fragment_std)
                || (is_given (arg_pe_model a) && negb (arg_fa a)) in
  let seed := seed_of (arg_rng a) e in
  is_in_range (inject_Z (arg_R a)) 10 1000000 ;;
  is_in_range (arg_c a) 0 1000000 ;;
  is_in_range (inject_Z (arg_p a)) 1 100 ;;
  is_in_range (arg_to a) 0 1 ;;
  se ← (if negb (Qeq_bool (arg_E a) (-1))
         then is_in_range (arg_E a) 0 (3 # 10) ;; Ok (Some (arg_E a))
         else Ok None) ;
  (if negb (arg_N a =? -1) then is_in_range (inject_Z (arg_N a)) 1 40 else Ok tt) ;;
  parse_input_mutation_model (mutation_model_loads e) ;;
  mr ← check_mut_rate (arg_M a) ;
  Ok {| read_len := arg_R a; coverage := arg_c a; ploids := arg_p a;
        off_target_scalar := arg_to a; se_rate := se; mut_rate := mr;
        n_max_qual := arg_N a; fragment := arg_pe a; paired_end := paired;
        rng_seed := seed; save_bam := arg_bam a; save_vcf := arg_vcf a;
        create_fasta := arg_fa a; no_fastq := no_fq; only_vcf := only;
        off_target_discard := arg_discard_offtarget a;
        force_coverage := arg_force_coverage a;
        rescale_qual := arg_rescale_qual a |}.

(** A whole run: the process either ends during validation, before any
    output file was created, or goes on to the simulation. *)
Inductive run_result (out : Type) : Type :=
| EndedBeforeOutput (code : Z)
| CrashedBeforeOutput (exn : string)
| Simulated (o : out).
Arguments EndedBeforeOutput {out} code.
Arguments CrashedBeforeOutput {out} exn.
Arguments Simulated {out} o.

Section Run.
(** Everything after validation, for statements about runs that end
    before it: the models, the reference and the scheduler, whatever
    they do. *)
Context {inputs out : Type}.
Variable simulate : config -> inputs -> out.

Definition run (a : args) (e : environment) (i : inputs) : run_result out :=
  match validate a e with
  | Ok cfg => Simulated (simulate cfg i)
  | SysExit c => EndedBeforeOutput c
  | Raised x => CrashedBeforeOutput x
  end.
End Run.

(** Two runs see the same files when the environment differs at most in
    what the unseeded generator returns. *)
Definition same_files (e1 e2 : environment) : Prop :=
  reference_opens e1 = reference_opens e2 /\
  input_vcf_opens e1 = input_vcf_opens e2 /\
  target_bed_opens e1 = target_bed_opens e2 /\
  mutation_model_loads e1 = mutation_model_loads e2.

(** ** Pruning of the input VCF (lines 316-357) *)

(** One record of the data frame [parse_vcf] returns, with the columns
    the driver reads.  [row_alt_split] is the ALT column split into its
    alleles. *)
Record vcf_row := {
  row_CHROM : string;
  row_POS : Z;                     (* 1-based, as in the file *)
  row_REF : string;
  row_alt_split : list string
}.

(** A data frame: its rows in order, each under its index label. *)
Definition data_frame := list (nat * vcf_row).

(** [df.drop(index, inplace=True)]: every row under that label goes. *)
Definition df_drop (index : nat) (df : data_frame) : data_frame :=
  List.filter (fun ir => negb (Nat.eqb (fst ir) index)) df.

(** [df[df['CHROM'] == chrom]] and [df[df['CHROM'] != item]]. *)
Definition df_on (chrom : string) (df : data_frame) : data_frame :=
  List.filter (fun ir => String.eqb (row_CHROM (snd ir)) chrom) df.
Definition df_off (item : string) (df : data_frame) : data_frame :=
  List.filter (fun ir => negb (String.eqb (row_CHROM (snd ir)) item)) df.

(** Modelled from the spec: [ALLOWED_NUCL] of
    [source.constants_and_models] is not part of the driver; alleles are
    over A, C, G, T. *)
Definition ALLOWED_NUCL : list ascii := ["A"; "C"; "G"; "T"]%char.

(** Line 333: some character of some alt allele is not allowed. *)
Definition any_bad_nucl (alt_split : list string) : bool :=
  existsb (fun nn => negb (existsb (Ascii.eqb nn) ALLOWED_NUCL))
          (List.concat (List.map list_ascii_of_string alt_split)).

(** Line 331: the reference under the record's REF allele. *)
Definition r_seq_of (ref_seq : string) (row : vcf_row) : string :=
  let span := (row_POS row, row_POS row + Z.of_nat (String.length (row_REF row))) in
  Py.slice ref_seq (fst span - 1) (snd span - 1).

Inductive verdict := Valid | RefMismatch | InNRegion | BadAlt.

(** Lines 336-349: the [if]/[elif] chain; the first test that fires
    decides the bucket. *)
Definition check_row (ref_seq : string) (row : vcf_row) : verdict :=
  let r_seq := r_seq_of ref_seq row in
  if negb (String.eqb r_seq (row_REF row)) then RefMismatch
  else if Py.char_in "N"%char r_seq then InNRegion
  else if any_bad_nucl (row_alt_split row) then BadAlt
  else Valid.

(** [n_skipped], a list of three counters. *)
Definition skip_counts := (Z * Z * Z)%type.

Definition bump (v : verdict) (n : skip_counts) : skip_counts :=
  let '(n0, n1, n2) := n in
  match v with
  | Valid => n
  | RefMismatch => (n0 + 1, n1, n2)
  | InNRegion => (n0, n1 + 1, n2)
  | BadAlt => (n0, n1, n2 + 1)
  end.

(** Lines 328-349: the loop over the rows of one contig.  [rows] is the
    selection taken when the loop starts; the drops act on
    [input_variants] itself. *)
Fixpoint prune_rows (ref_seq : string) (rows : data_frame)
    (n_skipped : skip_counts) (input_variants : data_frame)
    : skip_counts * data_frame :=
  match rows with
  | [] => (n_skipped, input_variants)
  | (index, row) :: rest =>
      match check_row ref_seq row with
      | Valid => prune_rows ref_seq rest n_skipped input_variants
      | v => prune_rows ref_seq rest (bump v n_skipped) (df_drop index input_variants)
      end
  end.

(** What lines 351-357 print for a contig: the number of records left
    in the frame, and the three skip counts when one of them is not 0. *)
Record contig_report := {
  rep_chrom : string;
  rep_found : nat;
  rep_skipped : option skip_counts
}.

Definition any_skipped (n : skip_counts) : bool :=
  let '(n0, n1, n2) := n in negb (n0 =? 0) || negb (n1 =? 0) || negb (n2 =? 0).

(** The reference index: the contigs in file order. *)
Definition reference := list (string * string).

Definition ref_lookup (ref_index : reference) (chrom : string) : option string :=
  snd <$> List.find (fun kv => String.eqb (fst kv) chrom) ref_index.

(** Lines 325-357, for the contigs [chroms] of the reference in order.
    [input_variants_chroms] is the list of the distinct CHROM values
    taken before the loop. *)
Fixpoint prune_contigs (ref_index : reference) (input_variants_chroms : list string)
    (chroms : list string) (input_variants : data_frame)
    : exec (data_frame * list contig_report) :=
  match chroms with
  | [] => Ok (input_variants, [])
  | chrom :: more =>
      if existsb (String.eqb chrom) input_variants_chroms then
        match ref_lookup ref_index chrom with
        | None => Raised "KeyError"
        | Some ref_seq =>
            let '(n_skipped, df) :=
              prune_rows ref_seq (df_on chrom input_variants) (0, 0, 0) input_variants in
            let report := {| rep_chrom := chrom; rep_found := List.length df;
                             rep_skipped := if any_skipped n_skipped
                                            then Some n_skipped else None |} in
            '(df', reports) ← prune_contigs ref_index input_variants_chroms more df ;
            Ok (df', report :: reports)
        end
      else prune_contigs ref_index input_variants_chroms more input_variants
  end.

(** Lines 318-323: records of a contig the reference lacks.  Only the
    first such contig met is filtered out, since the warning flag also
    guards the filter. *)
Fixpoint drop_unknown_chroms (reference_chromosomes : list string)
    (items : list string) (printed_warning : bool) (input_variants : data_frame)
    : data_frame :=
  match items with
  | [] => input_variants
  | item :: more =>
      if negb (existsb (String.eqb item) reference_chromosomes) && negb printed_warning
      then drop_unknown_chroms reference_chromosomes more true (df_off item input_variants)
      else drop_unknown_chroms reference_chromosomes more printed_warning input_variants
  end.

(** Lines 316-357.  [input_variants_chroms] lists the set of CHROM
    values in the order the interpreter iterates it. *)
Definition prune_input_variants (ref_index : reference)
    (input_variants_chroms : list string) (input_variants : data_frame)
    : exec (data_frame * list contig_report) :=
  let reference_chromosomes := List.map fst ref_index in
  let df := drop_unknown_chroms reference_chromosomes input_variants_chroms
                                false input_variants in
  prune_contigs ref_index input_variants_chroms reference_chromosomes df.

Definition is_valid (v : verdict) : bool :=
  match v with Valid => true | _ => false end.

Definition same_verdict (a b : verdict) : bool :=
  match a, b with
  | Valid, Valid | RefMismatch, RefMismatch
  | InNRegion, InNRegion | BadAlt, BadAlt => true
  | _, _ => false
  end.

(** How many of [rows] get verdict [v]. *)
Definition tally_verdict (ref_seq : string) (v : verdict) (rows : data_frame) : Z :=
  Z.of_nat (List.length
    (List.filter (fun ir => same_verdict (check_row ref_seq (snd ir)) v) rows)).

(** How many records of [chrom] in [df] get verdict [v]. *)
Definition count_verdict (ref_seq chrom : string) (v : verdict) (df : data_frame) : Z :=
  tally_verdict ref_seq v (df_on chrom df).

(** The index labels of the rows that fail a test. *)
Definition bad_labels (ref_seq : string) (rows : data_frame) : list nat :=
  List.map fst (List.filter (fun ir => negb (is_valid (check_row ref_seq (snd ir)))) rows).

(** A record fails a test against the contig it names. *)
Definition row_fails (ref_index : reference) (ir : nat * vcf_row) : bool :=
  match ref_lookup ref_index (row_CHROM (snd ir)) with
  | Some ref_seq => negb (is_valid (check_row ref_seq (snd ir)))
  | None => false
  end.

(** The record is on one of [chroms], and its contig is among the
    CHROM values [order]. *)
Definition listed (chroms order : list string) (ir : nat * vcf_row) : bool :=
  existsb (String.eqb (row_CHROM (snd ir))) chroms
  && existsb (String.eqb (row_CHROM (snd ir))) order.

(** The three buckets of a contig: REF does not match the reference,
    REF lies on an N, an alt allele has a character outside ACGT. *)
Definition contig_counts (ref_seq chrom : string) (df : data_frame) : skip_counts :=
  (count_verdict ref_seq chrom RefMismatch df,
   count_verdict ref_seq chrom InNRegion df,
   count_verdict ref_seq chrom BadAlt df).

(** What the report of a contig shows of its skip counts. *)
Definition shown (n : skip_counts) : option skip_counts :=
  if any_skipped n then Some n else None.

(** ** Variants and CIGARs as the scheduler sees them *)

(** A variant row: position, REF allele, alt alleles; the remaining
    entries of the tuple (metadata, genotype) are carried along. *)
Record variant := {
  var_pos : Z;
  var_ref : string;
  var_alts : list string;
  var_rest : string
}.

#[global] Instance variant_eq_dec : EqDecision variant.
Proof. solve_decision. Defined.

(** Line 427: the list the window loop reads its VCF variants from.  It
    is created empty for every contig and nothing is appended to it
    anywhere in [main], whatever the pruned data frame holds. *)
Definition valid_variants_from_vcf (input_variants : data_frame) : list variant := [].

(** Modelled from the spec: the entries of [SequenceContainer.all_cigar]
    are built by that class, which is not part of the driver.  A CIGAR is
    the string of operations of one read, M, I or D; a read base is
    consumed by M and by I. *)
Inductive cigar_op := OpM | OpI | OpD.
Definition cigar := list cigar_op.

Definition consumes_read (o : cigar_op) : bool :=
  match o with OpM | OpI => true | OpD => false end.

Definition consumed_read_bases (c : cigar) : Z :=
  Z.of_nat (List.length (List.filter consumes_read c)).

(** [[cigar for cigar in l if len(cigar) != 100]]. *)
Definition off_cigars (l : list cigar) : list cigar :=
  List.filter (fun c => negb (Z.of_nat (List.length c) =? 100)) l.

(** Lines 584-588 and 592-596: the check made on a container that was
    just built or updated.  The two comprehensions index ploid 0 and
    ploid 1; [or] does not evaluate the second when the first list is
    not empty. *)
Definition check_cigars (all_cigar : list (list cigar)) : exec unit :=
  match all_cigar !! 0%nat with
  | None => Raised "IndexError"
  | Some c0 =>
      match off_cigars c0 with
      | _ :: _ => SysExit 1
      | [] =>
          match all_cigar !! 1%nat with
          | None => Raised "IndexError"
          | Some c1 =>
              match off_cigars c1 with
              | _ :: _ => SysExit 1
              | [] => Ok tt
              end
          end
      end
  end.

(** What the specification asks of a CIGAR map for read length [R]. *)
Definition cigar_map_well_formed (R : Z) (all_cigar : list (list cigar)) : Prop :=
  Forall (Forall (fun c => consumed_read_bases c = R)) all_cigar.

(** ** Python's [float]: IEEE 754 binary64

    The operations are those of [SpecFloat] at precision 53 and
    exponent bound 1024, rounding to nearest, ties to even, as the
    doubles of CPython do. *)
Module Double.

Definition prec : Z := 53.
Definition emax : Z := 1024.

(** The double nearest to the integer [n] times [2 ^ e]. *)
Definition nearest (n e : Z) : spec_float := binary_normalize prec emax n e false.

(** An [int] where a [float] is needed, as in [n * x] and [x / n]: the
    nearest double; an [int] beyond the range of the doubles raises. *)
Definition of_int (n : Z) : exec spec_float :=
  match nearest n 0 with
  | S754_infinity _ => Raised "OverflowError"
  | x => Ok x
  end.

(** The double a rational stands for: the rational itself if it is a
    double, else the double nearest to it, as [float] reads a decimal.
    The quotient is taken to 56 bits or more, with a last bit that
    tells whether it is exact, before it is rounded. *)
Definition of_Q (q : Q) : spec_float :=
  let n := Z.abs (Qnum q) in
  let d := Zpos (Qden q) in
  let k := Z.max 0 (56 + Z.log2 d - Z.log2 n) in
  let a := n * 2 ^ k in
  let m := Z.lor (a / d) (if a mod d =? 0 then 0 else 1) in
  nearest (if Qnum q <? 0 then - m else m) (- k).

(** [x * y] on floats. *)
Definition mul (x y : spec_float) : spec_float := SFmul prec emax x y.

(** [x / y] on floats: a zero divisor raises. *)
Definition truediv (x y : spec_float) : exec spec_float :=
  match y with
  | S754_zero _ => Raised "ZeroDivisionError"
  | _ => Ok (SFdiv prec emax x y)
  end.

(** [int(x)]: truncation toward zero; infinities and NaN raise. *)
Definition to_int (x : spec_float) : exec Z :=
  match x with
  | S754_zero _ => Ok 0
  | S754_finite s m e =>
      let a := if 0 <=? e then Zpos m * 2 ^ e else Zpos m / 2 ^ (- e) in
      Ok (if s then - a else a)
  | S754_infinity _ => Raised "OverflowError"
  | S754_nan => Raised "ValueError"
  end.

End Double.

(** ** The read budget of a window (lines 632-648) *)

Definition low_cov_thresh : Q := 50.

(** [int(product / divisor) + 1], the shape of lines 636-643. *)
Definition quotient_plus_one (product : spec_float) (divisor : Z) : exec Z :=
  d ← Double.of_int divisor ;
  x ← Double.truediv product d ;
  n ← Double.to_int x ;
  Ok (n + 1).

(** [coverage_avg] is [None] until [init_coverage] has run; a product
    with [None] is a [TypeError]. *)
Definition reads_to_sample (paired_end force_coverage : bool) (window_span : Z)
    (coverage : Q) (coverage_avg : option Q) (read_len : Z) (cov_sum : Q) : exec Z :=
  let span_times_coverage :=
    span ← Double.of_int window_span ; Ok (Double.mul span (Double.of_Q coverage)) in
  let times_avg (product : spec_float) : exec spec_float :=
    match coverage_avg with
    | Some avg => Ok (Double.mul product (Double.of_Q avg))
    | None => Raised "TypeError"
    end in
  n ← (if paired_end then
         if force_coverage
         then product ← span_times_coverage ;
              quotient_plus_one product (2 * read_len)
         else product ← span_times_coverage ;
              product ← times_avg product ;
              quotient_plus_one product (2 * read_len)
       else
         if force_coverage
         then product ← span_times_coverage ;
              quotient_plus_one product read_len
         else product ← span_times_coverage ;
              product ← times_avg product ;
              quotient_plus_one product read_len) ;
  Ok (if (n =? 1) && Py.Qlt_bool cov_sum low_cov_thresh then 0 else n).

(** The budget in the specification's words:
    the ceiling of [window_span * coverage * avg_coverage_multiplier /
    (k * read_len)], plus 1, with [k = 2] for paired-end and [k = 1] for
    single-end reads, and the multiplier taken as 1 under
    [force_coverage]. *)
Definition budget_per_spec (paired_end force_coverage : bool) (window_span : Z)
    (coverage avg : Q) (read_len : Z) : Z :=
  Qceiling ((inject_Z window_span * coverage * (if force_coverage then 1 else avg))
            / inject_Z ((if paired_end then 2 else 1) * read_len)) + 1.

(** The budget as the doubles give it: [int(x) + 1], where [x] is the
    value of [window_span * coverage * m / (k * read_len)] computed
    from left to right in binary64, with [k = 2] for paired-end and
    [k = 1] for single-end reads and without the factor [m] under
    [force_coverage]. *)
Definition budget_in_doubles (paired_end force_coverage : bool) (window_span : Z)
    (coverage avg : Q) (read_len : Z) : exec Z :=
  span ← Double.of_int window_span ;
  let numerator :=
    if force_coverage then Double.mul span (Double.of_Q coverage)
    else Double.mul (Double.mul span (Double.of_Q coverage)) (Double.of_Q avg) in
  k_read_len ← Double.of_int ((if paired_end then 2 else 1) * read_len) ;
  x ← Double.truediv numerator k_read_len ;
  n ← Double.to_int x ;
  Ok (n + 1).

(** ** Windows of a non-N span (lines 440-519) *)

(** [max(l)] on a list of integers. *)
Definition py_max (l : list Z) : exec Z :=
  match l with
  | [] => Raised "ValueError"
  | x :: r => Ok (fold_left Z.max r x)
  end.

(** Lines 440-447: [(target_size, overlap, overlap_min_window_size)].
    [fraglen_values] is [fraglen_distribution.values]. *)
Definition window_target_scale : Z := 100.

Definition window_sizes (paired_end : bool) (read_len fragment_size : Z)
    (fraglen_values : list Z) : exec (Z * Z * Z) :=
  if paired_end then
    m ← py_max fraglen_values ;
    Ok (window_target_scale * fragment_size, fragment_size, m + 10)
  else Ok (window_target_scale * read_len, read_len, read_len + 10).

(** Line 463; [//] by zero raises. *)
Definition number_target_windows (initial_position final_position target_size : Z)
    : exec Z :=
  if target_size =? 0 then Raised "ZeroDivisionError"
  else Ok (Z.max 1 ((final_position - initial_position) / target_size)).

(** Line 464. *)
Definition base_pair_distance (initial_position final_position n : Z) : Z :=
  Py.int_of_float (inject_Z (final_position - initial_position) / inject_Z n).

(** Lines 481-491, from index [j] on; [vs] is the list from that index. *)
Fixpoint collect_from (start end_ overlap : Z) (j : nat) (vs : list variant)
    (vars_in_window : list variant) (updated : bool) (v_index_from_prev : nat)
    : list variant * nat :=
  match vs with
  | [] => (vars_in_window, v_index_from_prev)
  | v :: rest =>
      let variants_position := var_pos v in
      let vars_in_window :=
        if (start <? variants_position) && (variants_position <? end_)
        then vars_in_window ++ [ {| var_pos := variants_position - 1; var_ref := var_ref v;
                                    var_alts := var_alts v; var_rest := var_rest v |} ]
        else vars_in_window in
      let '(updated, v_index_from_prev) :=
        if (end_ - overlap - 1 <=? variants_position) && negb updated
        then (true, j) else (updated, v_index_from_prev) in
      if end_ <=? variants_position then (vars_in_window, v_index_from_prev)
      else collect_from start end_ overlap (S j) rest vars_in_window updated v_index_from_prev
  end.

Definition collect_vars_in_window (valid : list variant) (start end_ overlap : Z)
    (v_index_from_prev : nat) : list variant * nat :=
  collect_from start end_ overlap v_index_from_prev
               (List.skipn v_index_from_prev valid) [] false v_index_from_prev.

(** Lines 494-499. *)
Definition buffer_needed (row : variant) : exec Z :=
  py_max (List.map (fun alt_allele =>
            Z.max (Z.abs (Z.of_nat (String.length (var_ref row))
                          - Z.of_nat (String.length alt_allele))) 1)
          (var_alts row)).

Fixpoint structural_vars_of (rows : list variant) : exec (list (Z * Z)) :=
  match rows with
  | [] => Ok []
  | row :: more =>
      b ← buffer_needed row ;
      rest ← structural_vars_of more ;
      Ok ((var_pos row - 1, b) :: rest)
  end.

(** Line 509. *)
Definition delta_of (end_ overlap : Z) (row : Z * Z) : Z :=
  (end_ - 1) - (fst row + snd row) - 2 - overlap.

(** One pass of the [for] loop of lines 506-514: the first row whose
    delta is negative, if any. *)
Definition first_short (end_ overlap : Z) (structural_vars : list (Z * Z)) : option Z :=
  List.find (fun d => d <? 0) (List.map (delta_of end_ overlap) structural_vars).

(** The rows that are still short of [end_]. *)
Definition short_rows (end_ overlap : Z) (svs : list (Z * Z)) : nat :=
  List.length (List.filter (fun row => delta_of end_ overlap row <? 0) svs).

(** Lines 502-514: the [while keep_going] loop.  Every pass that changes
    [end] settles one more row for good, so [length structural_vars]
    passes reach the fixed point (see [adjust_end_stable]). *)
Fixpoint adjust_end_loop (fuel : nat) (overlap : Z) (structural_vars : list (Z * Z))
    (end_ : Z) : Z :=
  match fuel with
  | O => end_
  | S fuel' =>
      match first_short end_ overlap structural_vars with
      | None => end_
      | Some delta => adjust_end_loop fuel' overlap structural_vars (end_ + (- delta))
      end
  end.

Definition adjust_end (overlap : Z) (structural_vars : list (Z * Z)) (end_ : Z) : Z :=
  adjust_end_loop (List.length structural_vars) overlap structural_vars end_.

(** Lines 538-552.  [target_regions] maps a contig to the sorted list of
    its interval bounds; a falsy value (no target BED) is the empty map. *)
Definition target_scan (regions : list Z) (off_target_scalar : Q) (start end_ : Z)
    : list Q * Z :=
  fold_left (fun acc j =>
               if Z.even (Py.bisect regions j)
               then (fst acc ++ [1%Q], snd acc + 1)
               else (fst acc ++ [off_target_scalar], snd acc))
            (Py.range start end_) ([], 0).

Definition coverage_modifiers (target_regions : gmap string (list Z)) (chrom : string)
    (off_target_scalar : Q) (start end_ : Z) : list Q * Z :=
  if decide (target_regions = ∅) then (Py.repeat 1%Q (end_ - start), 0)
  else match target_regions !! chrom with
       | None => (Py.repeat off_target_scalar (end_ - start), 0)
       | Some regions => target_scan regions off_target_scalar start end_
       end.

(** Lines 554-567. *)
Definition skip_this_window (off_target_discard : bool) (target_hits read_len : Z)
    (cov : list Q) (start end_ overlap_min_window_size : Z) : bool :=
  (off_target_discard && (target_hits <=? read_len))
  || Py.Qlt_bool (Py.sum cov) low_cov_thresh
  || (end_ - start <? overlap_min_window_size).

(** ** The collaborators of the scheduler

    [SequenceContainer] (module [source.SequenceContainer]), the read
    container, the output writer and the process-wide generator are not
    part of the driver.  The scheduler is written against their
    operations.  [io] stands for the state the driver threads through
    them besides the container: the generator, the writer with its
    buffers, the read-name counter and the list of unmapped records. *)
Class Collaborators (container io : Type) := {
  (* [SequenceContainer(start, ref_sequence[start:end], ...)] *)
  sc_new : Z -> Z -> container;
  (* [sequences.update(start, ref_sequence[start:end], ...)] *)
  sc_update : container -> Z -> Z -> container;
  (* [sequences.all_cigar], one map per ploid *)
  sc_all_cigar : container -> list (list cigar);
  sc_insert_mutations : container -> list variant -> container;
  (* [sequences.random_mutations()], which returns the applied variants *)
  sc_random_mutations : container -> io -> list variant * container * io;
  (* [sequences.init_coverage(coverage_dat, ...)], which returns the average *)
  sc_init_coverage : container -> list Q -> io -> Q * container * io;
  (* one pass of the body of the read loop, lines 653-831, for the
     window that starts at the given position *)
  sample_one_read : container -> Z -> io -> io;
  (* [output_file_writer.flush_buffers(bam_max=...)] *)
  flush_buffers : Z -> io -> io
}.

(** What a window did, for stating properties of a walk. *)
Inductive event :=
| Skipped (start end_ : Z)
| Inserted (start end_ : Z) (given applied : list variant)
| SampledReads (start end_ : Z) (attempts : Z).

Definition is_sampling (e : event) : bool :=
  match e with
  | Skipped _ _ => false
  | Inserted _ _ _ _ => true
  | SampledReads _ _ _ => true
  end.

(** The constants of the window loop for one contig. *)
Record schedule := {
  s_paired_end : bool;
  s_force_coverage : bool;
  s_only_vcf : bool;
  s_off_target_discard : bool;
  s_read_len : Z;
  s_coverage : Q;
  s_off_target_scalar : Q;
  s_chrom : string;
  s_target_regions : gmap string (list Z);
  s_valid_variants : list variant;  (* [valid_variants_from_vcf] *)
  s_target_size : Z;
  s_overlap : Z;
  s_overlap_min_window_size : Z
}.

Inductive control := Continue | Break.

Section Scheduler.
Context {container io : Type} `{!Collaborators container io}.

(** The variables of the window loop, and those of the contig loop
    that it reads or writes. *)
Record loop_state := {
  start : Z;
  end_ : Z;
  vars_from_prev_overlap : list variant;
  v_index_from_prev : nat;
  is_last_time : bool;
  sequences : option container;
  all_variants_out : list variant;   (* the keys of the dict, in insertion order *)
  world : io;
  events : list event
}.

(** What lines 478-519 fix for the window at hand. *)
Record window_plan := {
  p_vars_in_window : list variant;
  p_v_index : nat;
  p_end : Z;
  p_next_start : Z;
  p_next_end : Z;
  p_is_last_time : bool
}.

Variable sch : schedule.
Variable final_position : Z.
Variable pitch : Z.          (* [base_pair_distance] *)

(** Lines 478-519. *)
Definition plan_window (s : loop_state) : exec window_plan :=
  let '(vars_in_window, v_index) :=
    collect_vars_in_window (s_valid_variants sch) (start s) (end_ s)
                           (s_overlap sch) (v_index_from_prev s) in
  structural_vars ← structural_vars_of vars_in_window ;
  let end1 := adjust_end (s_overlap sch) structural_vars (end_ s) in
  let next_start := end1 - s_overlap sch in
  let next_end := Z.min (next_start + pitch) final_position in
  Ok (if next_end - next_start <? pitch
      then {| p_vars_in_window := vars_in_window; p_v_index := v_index;
              p_end := next_end; p_next_start := next_start;
              p_next_end := next_end; p_is_last_time := true |}
      else {| p_vars_in_window := vars_in_window; p_v_index := v_index;
              p_end := end1; p_next_start := next_start;
              p_next_end := next_end; p_is_last_time := is_last_time s |}).

(** Lines 842-848 and 571-576: move to the next window. *)
Definition advance (s : loop_state) (p : window_plan) : control * loop_state :=
  if p_is_last_time p
  then (Break,
        {| start := p_next_start p; end_ := p_next_end p;
           vars_from_prev_overlap := vars_from_prev_overlap s;
           v_index_from_prev := v_index_from_prev s;
           is_last_time := true; sequences := sequences s;
           all_variants_out := all_variants_out s; world := world s;
           events := events s |})
  else (Continue,
        {| start := p_next_start p; end_ := p_next_end p;
           vars_from_prev_overlap := vars_from_prev_overlap s;
           v_index_from_prev := v_index_from_prev s;
           is_last_time := final_position <=? p_next_end p;
           sequences := sequences s;
           all_variants_out := all_variants_out s; world := world s;
           events := events s |}).

Definition set_carry (vars : list variant) (s : loop_state) : loop_state :=
  {| start := start s; end_ := end_ s; vars_from_prev_overlap := vars;
     v_index_from_prev := v_index_from_prev s; is_last_time := is_last_time s;
     sequences := sequences s; all_variants_out := all_variants_out s;
     world := world s; events := events s |}.

Definition log (e : event) (s : loop_state) : loop_state :=
  {| start := start s; end_ := end_ s;
     vars_from_prev_overlap := vars_from_prev_overlap s;
     v_index_from_prev := v_index_from_prev s; is_last_time := is_last_time s;
     sequences := sequences s; all_variants_out := all_variants_out s;
     world := world s; events := events s ++ [e] |}.

(** Lines 569-578: a skipped window.  The carried variants are
    cleared unless the loop ends here. *)
Definition skip_window (s : loop_state) (p : window_plan) : control * loop_state :=
  let s1 := log (Skipped (start s) (p_end p)) s in
  match advance s1 p with
  | (Break, s2) => (Break, s2)
  | (Continue, s2) => (Continue, set_carry [] s2)
  end.

(** [for k in range(n)]: the read loop. *)
Definition sample_reads (c : container) (window_start : Z) (n : Z) (w : io) : io :=
  Nat.iter (Z.to_nat n) (sample_one_read c window_start) w.

(** Lines 839-840. *)
Definition tally (rows : list variant) (out : list variant) : list variant :=
  fold_left (fun acc row => if decide (row ∈ acc) then acc else acc ++ [row]) rows out.

(** Lines 581-591: the container of the window, built for the first
    sampled window of the contig and updated in place afterwards. *)
Definition window_container (s : loop_state) (p : window_plan) : container :=
  match sequences s with
  | None => sc_new (start s) (p_end p)
  | Some c => sc_update c (start s) (p_end p)
  end.

(** Line 599: the argument of [insert_mutations]. *)
Definition given_variants (s : loop_state) (p : window_plan) : list variant :=
  vars_from_prev_overlap s ++ p_vars_in_window p.

(** Line 600: what [random_mutations] returns for the window. *)
Definition applied_variants (s : loop_state) (p : window_plan) : list variant :=
  (sc_random_mutations (sc_insert_mutations (window_container s p) (given_variants s p))
                       (world s)).1.1.

(** Lines 580-848: a window that is sampled. *)
Definition sample_window (s : loop_state) (p : window_plan) (cov : list Q)
    : exec control * loop_state :=
  let v_idx := p_v_index p in
  let c0 := window_container s p in
  let with_container c w s :=
    {| start := start s; end_ := p_end p;
       vars_from_prev_overlap := vars_from_prev_overlap s;
       v_index_from_prev := v_idx; is_last_time := p_is_last_time p;
       sequences := Some c; all_variants_out := all_variants_out s;
       world := w; events := events s |} in
  match check_cigars (sc_all_cigar c0) with
  | SysExit code => (SysExit code, with_container c0 (world s) s)
  | Raised x => (Raised x, with_container c0 (world s) s)
  | Ok _ =>
      let given := given_variants s p in
      let c1 := sc_insert_mutations c0 given in
      let '(all_inserted_variants, c2, w2) := sc_random_mutations c1 (world s) in
      let '(coverage_avg, c3, w3) :=
        if Qle_bool low_cov_thresh (Py.sum cov)
        then let '(avg, c, w) := sc_init_coverage c2 cov w2 in (Some avg, c, w)
        else (None, c2, w2) in
      let carry :=
        List.filter (fun row => p_end p - s_overlap sch - 1 <=? var_pos row)
                    all_inserted_variants in
      let s1 := log (Inserted (start s) (p_end p) given all_inserted_variants)
                    (set_carry carry (with_container c3 w3 s)) in
      let finish s2 :=
        let s3 := {| start := start s2; end_ := end_ s2;
                     vars_from_prev_overlap := vars_from_prev_overlap s2;
                     v_index_from_prev := v_index_from_prev s2;
                     is_last_time := is_last_time s2; sequences := sequences s2;
                     all_variants_out := tally all_inserted_variants (all_variants_out s2);
                     world := world s2; events := events s2 |} in
        let '(ctl, s4) := advance s3 p in (Ok ctl, s4) in
      if s_only_vcf sch then finish s1
      else
        match reads_to_sample (s_paired_end sch) (s_force_coverage sch)
                              (p_end p - start s) (s_coverage sch) coverage_avg
                              (s_read_len sch) (Py.sum cov) with
        | SysExit code => (SysExit code, s1)
        | Raised x => (Raised x, s1)
        | Ok n =>
            let w4 := sample_reads c3 (start s) n w3 in
            let w5 := flush_buffers (if p_is_last_time p then p_end p + 1
                                     else p_next_start p) w4 in
            finish (log (SampledReads (start s) (p_end p) n)
                        (with_container c3 w5 s1))
        end
  end.

(** The loop variables once lines 478-519 have run: [end],
    [v_index_from_prev] and [is_last_time] as the plan fixed them. *)
Definition enter_window (s : loop_state) (p : window_plan) : loop_state :=
  {| start := start s; end_ := p_end p;
     vars_from_prev_overlap := vars_from_prev_overlap s;
     v_index_from_prev := p_v_index p;
     is_last_time := p_is_last_time p; sequences := sequences s;
     all_variants_out := all_variants_out s; world := world s;
     events := events s |}.

(** Lines 538-567 for the planned window: the coverage modifiers and
    the decision to skip. *)
Definition window_coverage (s : loop_state) (p : window_plan) : list Q * Z :=
  coverage_modifiers (s_target_regions sch) (s_chrom sch)
                     (s_off_target_scalar sch) (start s) (p_end p).

Definition window_skipped (s : loop_state) (p : window_plan) : bool :=
  let '(cov, target_hits) := window_coverage s p in
  skip_this_window (s_off_target_discard sch) target_hits (s_read_len sch)
                   cov (start s) (p_end p) (s_overlap_min_window_size sch).

(** Lines 477-848: one pass of the [while True] loop.  (The progress
    indicator of lines 521-533 only prints.) *)
Definition window_step (s : loop_state) : exec control * loop_state :=
  match plan_window s with
  | SysExit code => (SysExit code, s)
  | Raised x => (Raised x, s)
  | Ok p =>
      if window_skipped s p
      then let '(ctl, s2) := skip_window (enter_window s p) p in (Ok ctl, s2)
      else sample_window (enter_window s p) p (fst (window_coverage s p))
  end.

(** Two states that agree on every loop variable except the tally of
    variants and the log of events. *)
Definition same_loop_vars (s1 s2 : loop_state) : Prop :=
  start s1 = start s2 /\ end_ s1 = end_ s2 /\
  vars_from_prev_overlap s1 = vars_from_prev_overlap s2 /\
  v_index_from_prev s1 = v_index_from_prev s2 /\
  is_last_time s1 = is_last_time s2 /\
  sequences s1 = sequences s2 /\ world s1 = world s2.

(** Nothing was sampled between [s] and [s']: no variant was inserted,
    no read loop ran, and the container, the tally and the state of the
    collaborators are as they were. *)
Definition nothing_sampled (s s' : loop_state) : Prop :=
  List.filter is_sampling (events s') = List.filter is_sampling (events s) /\
  world s' = world s /\ sequences s' = sequences s /\
  all_variants_out s' = all_variants_out s.

(** The number of passes the [while True] loop can still make: none but
    the current one once [is_last_time] is set. *)
Definition windows_left (s : loop_state) : nat :=
  if is_last_time s then 0%nat else S (Z.to_nat (final_position - end_ s)).

(** The [while True] loop, for at most [fuel] windows.  [None] as the
    first component: the loop has not ended within [fuel] passes. *)
Fixpoint window_loop (fuel : nat) (s : loop_state) : option (exec unit) * loop_state :=
  match fuel with
  | O => (None, s)
  | S fuel' =>
      match window_step s with
      | (Ok Continue, s') => window_loop fuel' s'
      | (Ok Break, s') => (Some (Ok tt), s')
      | (SysExit code, s') => (Some (SysExit code), s')
      | (Raised x, s') => (Some (Raised x), s')
      end
  end.

End Scheduler.

Arguments loop_state : clear implicits.

(** ** Spans and contigs (lines 409-468) *)

Section Contig.
Context {container io : Type} `{!Collaborators container io}.
Variable sch : schedule.

(** Lines 470-475: the loop variables at the first window of a span;
    the container, the tally and the collaborators' state are those
    the contig has reached. *)
Definition first_window (initial_position final_position pitch : Z)
    (s : loop_state container io) : loop_state container io :=
  {| start := initial_position;
     end_ := Z.min (initial_position + pitch) final_position;
     vars_from_prev_overlap := [];
     v_index_from_prev := 0%nat;
     is_last_time := false;
     sequences := sequences s;
     all_variants_out := all_variants_out s;
     world := world s;
     events := events s |}.

(** Lines 462-468: is the span left out as a whole? *)
Definition span_too_small (n span_len : Z) : bool :=
  (n =? 1) && (span_len <? s_overlap_min_window_size sch).

(** Lines 461-848 for one non-N span, with at most [fuel] windows. *)
Definition span_walk (fuel : nat) (span : Z * Z) (s : loop_state container io)
    : option (exec unit) * loop_state container io :=
  let '(initial_position, final_position) := span in
  match number_target_windows initial_position final_position (s_target_size sch) with
  | SysExit code => (Some (SysExit code), s)
  | Raised x => (Some (Raised x), s)
  | Ok n =>
      let pitch := base_pair_distance initial_position final_position n in
      if span_too_small n (final_position - initial_position)
      then (Some (Ok tt), s)
      else window_loop sch final_position pitch fuel
                       (first_window initial_position final_position pitch s)
  end.

(** The loop over [n_regions['non_N']]. *)
Fixpoint contig_walk (fuel : nat) (spans : list (Z * Z)) (s : loop_state container io)
    : option (exec unit) * loop_state container io :=
  match spans with
  | [] => (Some (Ok tt), s)
  | span :: more =>
      match span_walk fuel span s with
      | (Some (Ok _), s') => contig_walk fuel more s'
      | stopped => stopped
      end
  end.

(** Lines 438-439: the state a contig starts from. *)
Definition contig_start (w : io) : loop_state container io :=
  {| start := 0; end_ := 0; vars_from_prev_overlap := []; v_index_from_prev := 0%nat;
     is_last_time := false; sequences := None; all_variants_out := [];
     world := w; events := [] |}.
End Contig.

(** The schedule [main] sets up for a contig (lines 427-447).
    [fragment_size] and [fraglen_values] come from the fragment-length
    model; [input_variants] is the pruned data frame. *)
Definition schedule_of (cfg : config) (chrom : string)
    (target_regions : gmap string (list Z)) (fragment_size : Z)
    (fraglen_values : list Z) (input_variants : data_frame) : exec schedule :=
  '(target_size, overlap, omws) ←
     window_sizes (paired_end cfg) (read_len cfg) fragment_size fraglen_values ;
  Ok {| s_paired_end := paired_end cfg;
        s_force_coverage := force_coverage cfg;
        s_only_vcf := only_vcf cfg;
        s_off_target_discard := off_target_discard cfg;
        s_read_len := read_len cfg;
        s_coverage := coverage cfg;
        s_off_target_scalar := off_target_scalar cfg;
        s_chrom := chrom;
        s_target_regions := target_regions;
        s_valid_variants := valid_variants_from_vcf input_variants;
        s_target_size := target_size;
        s_overlap := overlap;
        s_overlap_min_window_size := omws |}.

(** ** The run as a whole, with the state of the process

    What differs between two runs of the same command on the same files
    is the state the interpreter starts in: the generator of the
    [random] module, which it seeds from the operating system, and the
    order in which it iterates a set of strings, which follows the
    hashes of the process.  Both are part of the model, so that what a
    run writes can be followed back to them. *)

(** Modelled from the spec: the [random] module is not part of the
    repository.  One process-wide generator serves every draw;
    [random.seed(n)] puts it into a state that [n] fixes. *)
Class Generator (rng : Type) := {
  (* the state [random.seed(n)] leaves *)
  rng_seeded : Z -> rng;
  (* [random.randint(a, b)]: the number drawn and the state after *)
  rng_randint : Z -> Z -> rng -> Z * rng
}.

(** Modelled from the spec: the output writer is not part of the
    repository.  What the driver hands to it once a contig is done,
    and once all are, changes the state [io] of the collaborators. *)
Class Writer (io : Type) := {
  (* lines 859-868: the keys of the ledger, sorted, each to
     [write_vcf_record] under the name of the contig *)
  write_vcf_records : string -> list variant -> io -> io;
  (* lines 871-888: the unmapped records to the BAM file if it is
     kept, for paired or single reads, and [close_files] *)
  finish_files : bool -> bool -> io -> io
}.

(** The state the driver threads through its collaborators: the
    generator, and everything else they read or write (the writer with
    its files and buffers, the read-name counter, the unmapped records). *)
Record process (rng files : Type) := {
  generator : rng;
  outside : files
}.
Arguments generator {rng files} _.
Arguments outside {rng files} _.

(** A process as the interpreter starts it.  [set_order l] is the order
    in which this process iterates [set(l)]. *)
Record startup (rng files : Type) := {
  at_start : process rng files;
  set_order : list string -> list string
}.
Arguments at_start {rng files} _.
Arguments set_order {rng files} _.

(** What the files of a run hold, once read: the reference in file
    order, the non-N spans of each contig ([find_n_regions]), the
    records of the input VCF if one is given ([parse_vcf]), the target
    intervals ([parse_bed]), and the mean and the values of the
    fragment-length distribution. *)
Record inputs := {
  in_reference : reference;
  in_non_N : string -> list (Z * Z);
  in_vcf : option data_frame;
  in_targets : gmap string (list Z);
  in_fragment_size : Z;
  in_fraglen_values : list Z
}.

(** What a contig did: the windows of its walk and its ledger
    [all_variants_out], from which lines 859-868 write the VCF. *)
Record contig_log := {
  log_chrom : string;
  log_events : list event;
  log_variants : list variant
}.

Section WholeRun.
Context {rng files container : Type} `{!Generator rng}
        `{!Collaborators container (process rng files)}
        `{!Writer (process rng files)}.

(** How a run ended ([None]: its window loops were cut short), what
    each contig did, and the state it left. *)
Record run_outputs := {
  run_status : option (exec unit);
  run_logs : list contig_log;
  run_world : process rng files
}.

(** The environment of validation, with line 184 drawing from the
    generator as the process holds it. *)
Definition seen_by (e : environment) (p : process rng files) : environment :=
  {| reference_opens := reference_opens e;
     input_vcf_opens := input_vcf_opens e;
     target_bed_opens := target_bed_opens e;
     mutation_model_loads := mutation_model_loads e;
     unseeded_randint := fst (rng_randint 1 99999999 (generator p)) |}.

(** Line 185: [random.seed(rng_seed)]. *)
Definition reseeded (rng_seed : Z) (p : process rng files) : process rng files :=
  {| generator := rng_seeded rng_seed; outside := outside p |}.

(** Lines 316-357 on the records of the input VCF; without a VCF the
    data frame is [None] and is not looked at. *)
Definition pruned (i : inputs) (p : startup rng files)
    : exec (data_frame * list contig_report) :=
  match in_vcf i with
  | Some df =>
      prune_input_variants (in_reference i)
                           (set_order p (List.map (fun ir => row_CHROM (snd ir)) df)) df
  | None => Ok ([], [])
  end.

(** Passes that let every window loop of a contig run to its end. *)
Definition walk_fuel (spans : list (Z * Z)) : nat :=
  S (S (fold_right (fun span m => Nat.max (Z.to_nat (snd span - fst span)) m)
                   0%nat spans)).

(** Lines 404-868: the contigs of the reference in file order, each
    with the schedule of lines 427-447, its walk, and its ledger
    written if [--vcf] asks for it; the state of the collaborators
    passes from one contig to the next. *)
Fixpoint walk_contigs (cfg : config) (i : inputs) (input_variants : data_frame)
    (chroms : list string) (w : process rng files) : run_outputs :=
  match chroms with
  | [] => {| run_status := Some (Ok tt); run_logs := []; run_world := w |}
  | chrom :: more =>
      match schedule_of cfg chrom (in_targets i) (in_fragment_size i)
                        (in_fraglen_values i) input_variants with
      | SysExit code =>
          {| run_status := Some (SysExit code); run_logs := []; run_world := w |}
      | Raised x =>
          {| run_status := Some (Raised x); run_logs := []; run_world := w |}
      | Ok sch =>
          let spans := in_non_N i chrom in
          let '(r, s) := contig_walk sch (walk_fuel spans) spans (contig_start w) in
          let here := {| log_chrom := chrom; log_events := events s;
                         log_variants := all_variants_out s |} in
          match r with
          | Some (Ok _) =>
              let w' := if save_vcf cfg
                        then write_vcf_records chrom (all_variants_out s) (world s)
                        else world s in
              let rest := walk_contigs cfg i input_variants more w' in
              {| run_status := run_status rest; run_logs := here :: run_logs rest;
                 run_world := run_world rest |}
          | stopped =>
              {| run_status := stopped; run_logs := [here]; run_world := world s |}
          end
      end
  end.

(** Lines 871-888, once every contig is done. *)
Definition closed (cfg : config) (o : run_outputs) : run_outputs :=
  match run_status o with
  | Some (Ok _) =>
      {| run_status := run_status o; run_logs := run_logs o;
         run_world := finish_files (save_bam cfg) (paired_end cfg) (run_world o) |}
  | _ => o
  end.

(** [main], for a run whose models and reference load: validation with
    the seeding of lines 183-185, the pruning of the VCF, the walk over
    the contigs, and the closing of the files.  The result of a run
    that gets to the contigs is what the pruning printed and what the
    walk did. *)
Definition main_run (a : args) (e : environment) (i : inputs) (p : startup rng files)
    : run_result (list contig_report * run_outputs) :=
  match validate a (seen_by e (at_start p)) with
  | SysExit code => EndedBeforeOutput code
  | Raised x => CrashedBeforeOutput x
  | Ok cfg =>
      let w := reseeded (rng_seed cfg) (at_start p) in
      match pruned i p with
      | SysExit code => EndedBeforeOutput code
      | Raised x => CrashedBeforeOutput x
      | Ok (input_variants, reports) =>
          Simulated (reports,
                     closed cfg (walk_contigs cfg i input_variants
                                              (List.map fst (in_reference i)) w))
      end
  end.

(** What a run leaves in its output files, as far as the driver decides
    it: everything but what it printed. *)
Definition written_by (r : run_result (list contig_report * run_outputs))
    : run_result run_outputs :=
  match r with
  | EndedBeforeOutput code => EndedBeforeOutput code
  | CrashedBeforeOutput x => CrashedBeforeOutput x
  | Simulated (_, o) => Simulated o
  end.

End WholeRun.

(** ** A small instance of the collaborators

    A container that only records the variants it was given and applies
    exactly those, with empty CIGAR maps for two ploids; [io] counts the
    passes of the read loop.  It serves to run the scheduler on concrete
    inputs. *)
Module Demo.
#[global] Instance collaborators : Collaborators (list variant) nat := {|
  sc_new := fun _ _ => [];
  sc_update := fun _ _ _ => [];
  sc_all_cigar := fun _ => [[]; []];
  sc_insert_mutations := fun c vars => c ++ vars;
  sc_random_mutations := fun c w => (c, c, w);
  sc_init_coverage := fun c _ w => (1%Q, c, w);
  sample_one_read := fun _ _ w => S w;
  flush_buffers := fun _ w => w
|}.

Definition single_end (valid : list variant) (R : Z) (discard : bool)
    (targets : gmap string (list Z)) : schedule :=
  {| s_paired_end := false; s_force_coverage := true; s_only_vcf := false;
     s_off_target_discard := discard; s_read_len := R; s_coverage := 1;
     s_off_target_scalar := 0; s_chrom := "chr1"; s_target_regions := targets;
     s_valid_variants := valid; s_target_size := 100 * R; s_overlap := R;
     s_overlap_min_window_size := R + 10 |}.

Definition snv (pos : Z) : variant :=
  {| var_pos := pos; var_ref := "A"; var_alts := ["G"]; var_rest := "1|0" |}.
End Demo.

(** A stand-in for the generator and for the collaborators that draw
    from it: the generator is a counter, seeded with the seed itself;
    a pass of the read loop writes down the number it draws.  It serves
    to run [main_run] on concrete inputs. *)
Module DemoRun.
#[global] Instance counter : Generator Z := {|
  rng_seeded := fun n => n;
  rng_randint := fun a b g => (a + g mod (b - a + 1), g + 1)
|}.

#[global] Instance writes_its_draws : Collaborators (list variant) (process Z (list Z)) := {|
  sc_new := fun _ _ => [];
  sc_update := fun _ _ _ => [];
  sc_all_cigar := fun _ => [[]; []];
  sc_insert_mutations := fun c vars => c ++ vars;
  sc_random_mutations := fun c w => (c, c, w);
  sc_init_coverage := fun c _ w => (1%Q, c, w);
  sample_one_read := fun _ _ w =>
    {| generator := generator w + 1; outside := outside w ++ [generator w] |};
  flush_buffers := fun _ w => w
|}.

#[global] Instance writes_nothing_more : Writer (process Z (list Z)) := {|
  write_vcf_records := fun _ _ w => w;
  finish_files := fun _ _ w => w
|}.

(** A process whose generator holds [g], with nothing written yet, that
    iterates a set in the order [order] gives. *)
Definition started (g : Z) (order : list string -> list string) : startup Z (list Z) :=
  {| at_start := {| generator := g; outside := [] |}; set_order := order |}.
End DemoRun.

(** ** Inputs for examples *)

Module Examples.
(** A command line that passes validation: single-end reads of length
    100, coverage 10, two ploids, FASTQ output. *)
Definition plain_args : args :=
  {| arg_R := 100; arg_c := 10; arg_E := -1; arg_p := 2; arg_tr := None;
     arg_dr := None; arg_to := 0; arg_M := -1; arg_N := -1; arg_v := None;
     arg_pe := (None, None); arg_pe_model := None; arg_bam := false;
     arg_vcf := false; arg_fa := false; arg_rng := 1234; arg_no_fastq := false;
     arg_discard_offtarget := false; arg_force_coverage := false;
     arg_rescale_qual := false |}.

Definition with_M (m : Q) (a : args) : args :=
  {| arg_R := arg_R a; arg_c := arg_c a; arg_E := arg_E a; arg_p := arg_p a;
     arg_tr := arg_tr a; arg_dr := arg_dr a; arg_to := arg_to a; arg_M := m;
     arg_N := arg_N a; arg_v := arg_v a; arg_pe := arg_pe a;
     arg_pe_model := arg_pe_model a; arg_bam := arg_bam a; arg_vcf := arg_vcf a;
     arg_fa := arg_fa a; arg_rng := arg_rng a; arg_no_fastq := arg_no_fastq a;
     arg_discard_offtarget := arg_discard_offtarget a;
     arg_force_coverage := arg_force_coverage a;
     arg_rescale_qual := arg_rescale_qual a |}.

Definition with_rng (r : Z) (a : args) : args :=
  {| arg_R := arg_R a; arg_c := arg_c a; arg_E := arg_E a; arg_p := arg_p a;
     arg_tr := arg_tr a; arg_dr := arg_dr a; arg_to := arg_to a; arg_M := arg_M a;
     arg_N := arg_N a; arg_v := arg_v a; arg_pe := arg_pe a;
     arg_pe_model := arg_pe_model a; arg_bam := arg_bam a; arg_vcf := arg_vcf a;
     arg_fa := arg_fa a; arg_rng := r; arg_no_fastq := arg_no_fastq a;
     arg_discard_offtarget := arg_discard_offtarget a;
     arg_force_coverage := arg_force_coverage a;
     arg_rescale_qual := arg_rescale_qual a |}.

(** All files open; the unseeded generator returns [draw]. *)
Definition files_fine (draw : Z) : environment :=
  {| reference_opens := true; input_vcf_opens := true; target_bed_opens := true;
     mutation_model_loads := true; unseeded_randint := draw |}.

(** A stand-in for the simulation whose output is the seed it ran under. *)
Definition seed_as_output (cfg : config) (_ : unit) : Z := rng_seed cfg.
(** The configuration that [plain_args] validates to, under seed 1234. *)
Definition plain_config : config :=
  {| read_len := 100; coverage := 10; ploids := 2; off_target_scalar := 0;
     se_rate := None; mut_rate := None; n_max_qual := -1;
     fragment := (None, None); paired_end := false; rng_seed := 1234;
     save_bam := false; save_vcf := false; create_fasta := false;
     no_fastq := false; only_vcf := false; off_target_discard := false;
     force_coverage := false; rescale_qual := false |}.

(** The schedule of a contig [chr1] under [plain_config], without
    target regions and with the pruned data frame [df]. *)
Definition plain_schedule (df : data_frame) : exec schedule :=
  schedule_of plain_config "chr1" ∅ 0 [] df.

Definition chr1_schedule : schedule :=
  {| s_paired_end := false; s_force_coverage := false; s_only_vcf := false;
     s_off_target_discard := false; s_read_len := 100; s_coverage := 10;
     s_off_target_scalar := 0; s_chrom := "chr1"; s_target_regions := ∅;
     s_valid_variants := []; s_target_size := 10000; s_overlap := 100;
     s_overlap_min_window_size := 110 |}.

(** A paired-end configuration with short fragments of widely varying
    length: mean 20, and lengths up to 6020 in the distribution. *)
Definition paired_config : config :=
  {| read_len := 10; coverage := 10; ploids := 2; off_target_scalar := 0;
     se_rate := None; mut_rate := None; n_max_qual := -1;
     fragment := (Some 20, Some 1000); paired_end := true; rng_seed := 1234;
     save_bam := false; save_vcf := false; create_fasta := false;
     no_fastq := false; only_vcf := false; off_target_discard := false;
     force_coverage := false; rescale_qual := false |}.

Definition paired_schedule : schedule :=
  {| s_paired_end := true; s_force_coverage := false; s_only_vcf := false;
     s_off_target_discard := false; s_read_len := 10; s_coverage := 10;
     s_off_target_scalar := 0; s_chrom := "chr1"; s_target_regions := ∅;
     s_valid_variants := []; s_target_size := 2000; s_overlap := 20;
     s_overlap_min_window_size := 6030 |}.

(** A reference of one contig, [chr1], 2500 repeats of ACGT, and a VCF
    record for the SNP A>G at position 5001 of it (1-based). *)
Definition acgt_reference : reference :=
  [("chr1", String.concat "" (List.repeat "ACGT" 2500))].

Definition snp_5001 : vcf_row :=
  {| row_CHROM := "chr1"; row_POS := 5001; row_REF := "A"; row_alt_split := ["G"] |}.

(** A reference of two contigs and a VCF with six records: on [c1] one
    valid record, one whose REF does not match, one on an N and one
    with a bad alt allele; on [c2] one valid record and one mismatch. *)
Definition small_reference : reference := [("c1", "ACGTNACGT"); ("c2", "TTTT")].

Definition small_vcf : data_frame :=
  [ (0%nat, {| row_CHROM := "c1"; row_POS := 3; row_REF := "GT"; row_alt_split := ["G"] |});
    (1%nat, {| row_CHROM := "c1"; row_POS := 3; row_REF := "GA"; row_alt_split := ["G"] |});
    (2%nat, {| row_CHROM := "c2"; row_POS := 1; row_REF := "T"; row_alt_split := ["A"; "C"] |});
    (3%nat, {| row_CHROM := "c1"; row_POS := 4; row_REF := "TN"; row_alt_split := ["T"] |});
    (4%nat, {| row_CHROM := "c1"; row_POS := 6; row_REF := "A"; row_alt_split := ["G"; "<DEL>"] |});
    (5%nat, {| row_CHROM := "c2"; row_POS := 2; row_REF := "A"; row_alt_split := ["T"] |}) ].

(** A reference of one contig, [chr1], of 150 bases without N, and a
    VCF with one record on it and three on two contigs the reference
    lacks. *)
Definition one_contig : reference :=
  [("chr1", String.concat "" (List.repeat "ACGTA" 30))].

Definition stray_vcf : data_frame :=
  [ (0%nat, {| row_CHROM := "chr1"; row_POS := 1; row_REF := "A"; row_alt_split := ["G"] |});
    (1%nat, {| row_CHROM := "chrX"; row_POS := 5; row_REF := "C"; row_alt_split := ["T"] |});
    (2%nat, {| row_CHROM := "chrY"; row_POS := 7; row_REF := "G"; row_alt_split := ["A"] |});
    (3%nat, {| row_CHROM := "chrY"; row_POS := 9; row_REF := "T"; row_alt_split := ["C"] |}) ].

Definition one_contig_inputs : inputs :=
  {| in_reference := one_contig; in_non_N := fun _ => [(0, 150)];
     in_vcf := Some stray_vcf; in_targets := ∅;
     in_fragment_size := 0; in_fraglen_values := [] |}.

(** Two orders in which a process may iterate the set of the contigs
    named in [stray_vcf]. *)
Definition file_order (_ : list string) : list string := ["chr1"; "chrX"; "chrY"].
Definition other_order (_ : list string) : list string := ["chrY"; "chrX"; "chr1"].

(** A CIGAR of [n] matches. *)
Definition matches (n : nat) : cigar := List.repeat OpM n.

End Examples.

(** A check that can only pass or exit with code 1. *)
Definition passes_or_exits_1 {A} (m : exec A) : Prop :=
  match m with
  | Ok _ => True
  | SysExit c => c = 1
  | Raised _ => False
  end.

(** ** The body of the read loop (lines 650-831) and the unmapped
       reads (lines 870-882)

    [sample_read], [sam_flag], [reverse_complement], the error model's
    [off_q] and the writer are not in the repository's sources: what
    [sample_read] returns and the coin of line 716 are inputs of an
    iteration, the three others are variables, and the writer is the
    list of the records it was handed. *)

(** One read of [my_read_data]: position ([None] for an unmapped read),
    CIGAR, bases and qualities. *)
Record read := {
  rd_pos : option Z;
  rd_cigar : cigar;
  rd_bases : list ascii;
  rd_quals : list ascii
}.

(** The calls of [write_fastq_record] and [write_bam_record]; an
    optional argument left out is [None]. *)
Inductive output :=
| Fastq (name : string) (bases quals : list ascii)
| FastqPair (name : string) (bases1 quals1 bases2 quals2 : list ascii)
            (orientation : bool)
| Bam (ref_id : Z) (name : string) (pos : option Z) (cig : cigar)
      (bases quals : list ascii) (flag : Z) (mate_pos : option Z)
      (aln_map_quality : option Z).

(** What the read loop reads of [main]'s variables. *)
Record emit_ctx := {
  e_paired_end : bool;
  e_off_target_discard : bool;
  e_target_bed : bool;      (* [target_bed is not None] *)
  e_discard_bed : bool;     (* [discard_bed is not None] *)
  e_target_regions : gmap string (list Z);
  e_discard_regions : gmap string (list Z);
  e_chrom : string;
  e_chrom_index : Z;        (* [list(ref_index.keys()).index(chrom)] *)
  e_start : Z;
  e_n_max_qual : Z;
  e_no_fastq : bool;
  e_save_bam : bool;
  e_out_prefix_name : string
}.

(** What the read loop changes. *)
Record emit_state := {
  read_name_count : Z;
  unmapped_records : list (string * read * Z);
  written : list output
}.

(** A list comprehension whose body may raise. *)
Fixpoint for_each {A B : Type} (f : A -> exec B) (l : list A) : exec (list B) :=
  match l with
  | [] => Ok []
  | a :: more => b ← f a ; bs ← for_each f more ; Ok (b :: bs)
  end.

Definition is_unmapped_read (r : read) : bool :=
  match rd_pos r with None => true | Some _ => false end.

(** [my_read_data[k][0] += start] for a mapped read. *)
Definition shifted (start : Z) (r : read) : read :=
  {| rd_pos := match rd_pos r with Some x => Some (x + start) | None => None end;
     rd_cigar := rd_cigar r; rd_bases := rd_bases r; rd_quals := rd_quals r |}.

(** Lines 653-680: [is_unmapped], and the positions made absolute.
    Paired-end mode reads entries 0 and 1, single-end mode entry 0. *)
Definition place_reads (paired_end : bool) (start : Z) (my_read_data : list read)
    : exec (list read * list bool) :=
  match my_read_data with
  | [] => Raised "IndexError"
  | r0 :: rest =>
      if paired_end then
        match rest with
        | [] => Raised "IndexError"
        | r1 :: more =>
            Ok (shifted start r0 :: shifted start r1 :: more,
                [is_unmapped_read r0; is_unmapped_read r1])
        end
      else Ok (shifted start r0 :: rest, [is_unmapped_read r0])
  end.

(** [regions[chrom]] on a dict. *)
Definition regions_of (regions : gmap string (list Z)) (chrom : string)
    : exec (list Z) :=
  match regions !! chrom with
  | Some l => Ok l
  | None => Raised "KeyError"
  end.

(** [bisect.bisect(l, n[0])]: comparing [None] with an entry raises. *)
Definition bisect_pos (l : list Z) (pos : option Z) : exec Z :=
  match pos with
  | Some x => Ok (Py.bisect l x)
  | None => match l with [] => Ok 0 | _ :: _ => Raised "TypeError" end
  end.

(** [n[0] + len(n[2])]. *)
Definition end_of_read (r : read) : exec Z :=
  match rd_pos r with
  | Some x => Ok (x + Z.of_nat (List.length (rd_bases r)))
  | None => Raised "TypeError"
  end.

(** Lines 687-690 (and 693-697): the two comprehensions over one BED. *)
Definition boundaries (regions : gmap string (list Z)) (chrom : string)
    (my_read_data : list read) : exec (list Z) :=
  at_start ← for_each (fun n => l ← regions_of regions chrom ;
                                b ← bisect_pos l (rd_pos n) ;
                                Ok (b mod 2)) my_read_data ;
  at_end ← for_each (fun n => l ← regions_of regions chrom ;
                              e ← end_of_read n ;
                              Ok (Py.bisect l e mod 2)) my_read_data ;
  Ok (at_start ++ at_end).

(** Lines 685-697. *)
Definition outside_boundaries (ctx : emit_ctx) (my_read_data : list read)
    : exec (list Z) :=
  on_target ← (if e_off_target_discard ctx && e_target_bed ctx
               then boundaries (e_target_regions ctx) (e_chrom ctx) my_read_data
               else Ok []) ;
  on_discard ← (if e_discard_bed ctx
                then boundaries (e_discard_regions ctx) (e_chrom ctx) my_read_data
                else Ok []) ;
  Ok (on_target ++ on_discard).

(** Line 699: [len(l) and any(l)]. *)
Definition any_set (l : list Z) : bool := existsb (fun b => negb (b =? 0)) l.

(** Line 702. *)
Definition read_name (ctx : emit_ctx) (count : Z) : string :=
  e_out_prefix_name ctx +:+ "-" +:+ e_chrom ctx +:+ "-" +:+ pretty count.

Definition ord (c : ascii) : Z := Z.of_nat (nat_of_ascii c).

Section ReadLoop.
Variable sam_flag : list string -> Z.
Variable reverse_complement : list ascii -> list ascii.
Variable off_q : Z.

(** Line 711: the base at this quality is replaced. *)
Definition low_quality (n_max_qual : Z) (q : ascii) : bool :=
  ord q - off_q <=? n_max_qual.

(** Lines 709-712: the loop over [m], from index [m] on; [quals] is
    the rest of the quality string. *)
Fixpoint mask_from (n_max_qual : Z) (m : nat) (quals my_read_string : list ascii)
    : exec (list ascii) :=
  match quals with
  | [] => Ok my_read_string
  | q :: quals' =>
      if low_quality n_max_qual q then
        if (m <? List.length my_read_string)%nat
        then mask_from n_max_qual (S m) quals' (<[m := "N"%char]> my_read_string)
        else Raised "IndexError"
      else mask_from n_max_qual (S m) quals' my_read_string
  end.

(** Lines 708-713 for one read. *)
Definition mask_read (n_max_qual : Z) (r : read) : exec read :=
  bases ← mask_from n_max_qual 0 (rd_quals r) (rd_bases r) ;
  Ok {| rd_pos := rd_pos r; rd_cigar := rd_cigar r; rd_bases := bases;
        rd_quals := rd_quals r |}.

(** Lines 706-713. *)
Definition mask_reads (ctx : emit_ctx) (my_read_data : list read) : exec (list read) :=
  if -1 <? e_n_max_qual ctx then for_each (mask_read (e_n_max_qual ctx)) my_read_data
  else Ok my_read_data.

Definition append_unmapped (records : list (string * read * Z)) (st : emit_state)
    : emit_state :=
  {| read_name_count := read_name_count st;
     unmapped_records := unmapped_records st ++ records;
     written := written st |}.

Definition write (outs : list output) (st : emit_state) : emit_state :=
  {| read_name_count := read_name_count st;
     unmapped_records := unmapped_records st;
     written := written st ++ outs |}.

(** Lines 719-731: reads that are all unmapped go to the end of the
    BAM file. *)
Definition defer_unmapped (ctx : emit_ctx) (my_read_name : string)
    (my_read_data : list read) (is_unmapped : list bool) (is_forward : bool)
    (st : emit_state) : exec emit_state :=
  if forallb id is_unmapped then
    match my_read_data with
    | [] => Raised "IndexError"
    | r0 :: rest =>
        if e_paired_end ctx then
          let flag1 := sam_flag ["paired"; "unmapped"; "mate_unmapped";
                                 if is_forward then "first" else "second";
                                 "mate_reverse"] in
          let flag2 := sam_flag ["paired"; "unmapped"; "mate_unmapped";
                                 if is_forward then "second" else "first";
                                 "reverse"] in
          match rest with
          | [] => Raised "IndexError"
          | r1 :: _ =>
              Ok (append_unmapped [(my_read_name +:+ "/1", r0, flag1);
                                   (my_read_name +:+ "/2", r1, flag2)] st)
          end
        else
          Ok (append_unmapped [(my_read_name +:+ "/1", r0, sam_flag ["unmapped"])] st)
    end
  else Ok st.

(** Lines 734-754: single-end output. *)
Definition write_single (ctx : emit_ctx) (my_read_name : string) (r0 : read)
    (is_unmapped : list bool) (is_forward : bool) (st : emit_state)
    : exec unit * emit_state :=
  let st1 :=
    if e_no_fastq ctx then st
    else write [if is_forward
                then Fastq my_read_name (rd_bases r0) (rd_quals r0)
                else Fastq my_read_name (reverse_complement (rd_bases r0))
                           (List.rev (rd_quals r0))] st in
  if e_save_bam ctx then
    match is_unmapped with
    | [] => (Raised "IndexError", st1)
    | false :: _ =>
        (Ok tt,
         write [Bam (e_chrom_index ctx) my_read_name (rd_pos r0) (rd_cigar r0)
                    (rd_bases r0) (rd_quals r0)
                    (if is_forward then 0 else sam_flag ["reverse"]) None None] st1)
    | true :: _ => (Ok tt, st1)
    end
  else (Ok tt, st1).

(** Lines 775-825: the two BAM records of a pair, by which mates are
    mapped. *)
Definition pair_records (ctx : emit_ctx) (my_read_name : string) (r0 r1 : read)
    (unmapped0 unmapped1 : bool) (is_forward : bool) : list output :=
  let first_ := if is_forward then "first" else "second" in
  let second_ := if is_forward then "second" else "first" in
  let bam pos r flag mate quality :=
    Bam (e_chrom_index ctx) my_read_name pos (rd_cigar r) (rd_bases r) (rd_quals r)
        flag mate quality in
  match unmapped0, unmapped1 with
  | false, false =>
      [bam (rd_pos r0) r0 (sam_flag ["paired"; "proper"; first_; "mate_reverse"])
           (rd_pos r1) None;
       bam (rd_pos r1) r1 (sam_flag ["paired"; "proper"; second_; "reverse"])
           (rd_pos r0) None]
  | false, true =>
      [bam (rd_pos r0) r0 (sam_flag ["paired"; first_; "mate_unmapped"; "mate_reverse"])
           (rd_pos r0) None;
       bam (rd_pos r0) r1 (sam_flag ["paired"; second_; "unmapped"; "reverse"])
           (rd_pos r0) (Some 0)]
  | true, false =>
      [bam (rd_pos r1) r0 (sam_flag ["paired"; first_; "unmapped"; "mate_reverse"])
           (rd_pos r1) (Some 0);
       bam (rd_pos r1) r1 (sam_flag ["paired"; second_; "mate_unmapped"; "reverse"])
           (rd_pos r1) None]
  | true, true => []
  end.

(** Lines 756-825: paired-end output.  Each chain of tests on
    [is_unmapped] reads both of its entries. *)
Definition write_pair (ctx : emit_ctx) (my_read_name : string) (r0 r1 : read)
    (is_unmapped : list bool) (is_forward : bool) (st : emit_state)
    : exec unit * emit_state :=
  let st1 :=
    if e_no_fastq ctx then st
    else write [FastqPair my_read_name (rd_bases r0) (rd_quals r0)
                          (rd_bases r1) (rd_quals r1) is_forward] st in
  if e_save_bam ctx then
    match is_unmapped with
    | unmapped0 :: unmapped1 :: _ =>
        (Ok tt, write (pair_records ctx my_read_name r0 r1 unmapped0 unmapped1
                                    is_forward) st1)
    | _ => (Raised "IndexError", st1)
    end
  else (Ok tt, st1).

(** Lines 733-831. *)
Definition write_reads (ctx : emit_ctx) (my_read_name : string)
    (my_read_data : list read) (is_unmapped : list bool) (is_forward : bool)
    (st : emit_state) : exec unit * emit_state :=
  match my_read_data with
  | [r0] => write_single ctx my_read_name r0 is_unmapped is_forward st
  | [r0; r1] => write_pair ctx my_read_name r0 r1 is_unmapped is_forward st
  | _ => (SysExit 1, st)
  end.

(** Lines 651-831: one pass of the read loop.  [sampled] is what
    [sample_read] returned, [is_forward] the coin of line 716. *)
Definition read_iteration (ctx : emit_ctx) (sampled : option (list read))
    (is_forward : bool) (st : emit_state) : exec unit * emit_state :=
  match sampled with
  | None => (Ok tt, st)
  | Some my_read_data =>
      match '(placed, is_unmapped) ←
              place_reads (e_paired_end ctx) (e_start ctx) my_read_data ;
            outside ← outside_boundaries ctx placed ;
            Ok (placed, is_unmapped, outside) with
      | SysExit code => (SysExit code, st)
      | Raised x => (Raised x, st)
      | Ok (placed, is_unmapped, outside) =>
          if any_set outside then (Ok tt, st)
          else
            let my_read_name := read_name ctx (read_name_count st) in
            let st1 := {| read_name_count :=
                            read_name_count st + Z.of_nat (List.length placed);
                          unmapped_records := unmapped_records st;
                          written := written st |} in
            match masked ← mask_reads ctx placed ;
                  st2 ← defer_unmapped ctx my_read_name masked is_unmapped
                                       is_forward st1 ;
                  Ok (masked, st2) with
            | SysExit code => (SysExit code, st1)
            | Raised x => (Raised x, st1)
            | Ok (masked, st2) =>
                write_reads ctx my_read_name masked is_unmapped is_forward st2
            end
      end
  end.

(** Line 651: the passes of the loop, one per draw. *)
Fixpoint read_loop (ctx : emit_ctx) (draws : list (option (list read) * bool))
    (st : emit_state) : exec unit * emit_state :=
  match draws with
  | [] => (Ok tt, st)
  | (sampled, is_forward) :: more =>
      match read_iteration ctx sampled is_forward st with
      | (Ok _, st') => read_loop ctx more st'
      | stopped => stopped
      end
  end.

End ReadLoop.

(** Lines 871-882: the deferred reads, written once every contig is
    done. *)
Definition write_unmapped (paired_end save_bam : bool)
    (records : list (string * read * Z)) : list output :=
  if save_bam
  then List.map (fun umr : string * read * Z =>
                   let '(name, r, flag) := umr in
                   Bam (-1) name (Some 0) (rd_cigar r) (rd_bases r) (rd_quals r) flag
                       (if paired_end then Some 0 else None) (Some 0))
                records
  else [].

Definition output_name (o : output) : string :=
  match o with
  | Fastq name _ _ => name
  | FastqPair name _ _ _ _ _ => name
  | Bam _ name _ _ _ _ _ _ _ => name
  end.

Definition is_fastq (o : output) : bool :=
  match o with Bam _ _ _ _ _ _ _ _ _ => false | _ => true end.

Definition bam_pos (o : output) : option (option Z) :=
  match o with Bam _ _ pos _ _ _ _ _ _ => Some pos | _ => None end.

(** ** Readings of the driver used to state its properties *)

(** [lower <= value <= upper], the test [is_in_range] passes. *)
Definition in_range (value lower upper : Q) : bool :=
  negb (Py.Qlt_bool value lower || Py.Qlt_bool upper value).

(** The command line and the files pass every check of lines 152-212. *)
Definition accepts (a : args) (e : environment) : bool :=
  reference_opens e
  && (negb (is_given (arg_v a)) || input_vcf_opens e)
  && (negb (is_given (arg_tr a)) || target_bed_opens e)
  && negb (arg_no_fastq a && negb (arg_fa a) && negb (arg_bam a) && negb (arg_vcf a))
  && Bool.eqb (is_given (fst (arg_pe a))) (is_given (snd (arg_pe a)))
  && in_range (inject_Z (arg_R a)) 10 1000000
  && in_range (arg_c a) 0 1000000
  && in_range (inject_Z (arg_p a)) 1 100
  && in_range (arg_to a) 0 1
  && (Qeq_bool (arg_E a) (-1) || in_range (arg_E a) 0 (3 # 10))
  && ((arg_N a =? -1) || in_range (inject_Z (arg_N a)) 1 40)
  && mutation_model_loads e
  && (Py.Qlt_bool (arg_M a) 0 || in_range (arg_M a) 0 (3 # 10)).

(** The configuration an accepted command line gives. *)
Definition config_of (a : args) (e : environment) : config :=
  {| read_len := arg_R a; coverage := arg_c a; ploids := arg_p a;
     off_target_scalar := arg_to a;
     se_rate := if Qeq_bool (arg_E a) (-1) then None else Some (arg_E a);
     mut_rate := if Py.Qlt_bool (arg_M a) 0 then None else Some (arg_M a);
     n_max_qual := arg_N a; fragment := arg_pe a;
     paired_end := (is_given (fst (arg_pe a)) && is_given (snd (arg_pe a)))
                   || (is_given (arg_pe_model a) && negb (arg_fa a));
     rng_seed := seed_of (arg_rng a) e;
     save_bam := arg_bam a; save_vcf := arg_vcf a; create_fasta := arg_fa a;
     no_fastq := arg_fa a || arg_no_fastq a;
     only_vcf := (arg_fa a || arg_no_fastq a) && arg_vcf a
                 && negb (arg_bam a) && negb (arg_fa a);
     off_target_discard := arg_discard_offtarget a;
     force_coverage := arg_force_coverage a;
     rescale_qual := arg_rescale_qual a |}.

(** Line 486: a VCF variant in array coordinates. *)
Definition to_array_coords (v : variant) : variant :=
  {| var_pos := var_pos v - 1; var_ref := var_ref v;
     var_alts := var_alts v; var_rest := var_rest v |}.

(** Line 484: the position lies strictly inside the window. *)
Definition inside_window (start end_ : Z) (v : variant) : bool :=
  (start <? var_pos v) && (var_pos v <? end_).

(** The least window end a structural variant row is content with:
    the [end] at which its delta of line 509 is 0. *)
Definition reach (overlap : Z) (row : Z * Z) : Z :=
  fst row + snd row + 3 + overlap.

(** Lines 270-277: the values of the artificial fragment-length
    distribution.  A standard deviation of 0 gives the distribution on
    the mean alone (line 271); any other one gives the integers above
    the read length among those within six standard deviations of the
    mean (lines 273-277). *)
Definition artificial_fraglen_values (read_len fragment_size fragment_std : Z) : list Z :=
  if fragment_std =? 0 then [fragment_size]
  else List.filter (fun v => read_len <? v)
                   (Py.range (fragment_size - 6 * fragment_std)
                             (fragment_size + 6 * fragment_std + 1)).

(** Lines 254-259: the values of an empirical fragment-length model
    that are above the read length, with their probabilities. *)
Fixpoint empirical_fraglen (read_len : Z) (potential_values : list Z)
    (potential_prob : list Q) : exec (list Z * list Q) :=
  match potential_values with
  | [] => Ok ([], [])
  | v :: values =>
      match potential_prob with
      | [] => if read_len <? v then Raised "IndexError"
              else empirical_fraglen read_len values []
      | pr :: probs =>
          '(vs, ps) ← empirical_fraglen read_len values probs ;
          Ok (if read_len <? v then (v :: vs, pr :: ps) else (vs, ps))
      end
  end.

(** Lines 547-552 position by position: the coverage modifier of a
    position, and whether it counts as a target hit. *)
Definition is_target_hit (regions : list Z) (j : Z) : bool :=
  Z.even (Py.bisect regions j).

Definition modifier_at (regions : list Z) (off_target_scalar : Q) (j : Z) : Q :=
  if is_target_hit regions j then 1%Q else off_target_scalar.

(** The window an event is about. *)
Definition event_window (e : event) : Z * Z :=
  match e with
  | Skipped a b => (a, b)
  | Inserted a b _ _ => (a, b)
  | SampledReads a b _ => (a, b)
  end.

(** Position [x] lies in the window of one of the events. *)
Definition visited (evs : list event) (x : Z) : Prop :=
  exists e, In e evs /\ fst (event_window e) <= x < snd (event_window e).

(** The variants [random_mutations] reported in the windows of a log,
    window after window. *)
Definition reported (evs : list event) : list variant :=
  flat_map (fun e => match e with
                     | Inserted _ _ _ applied => applied
                     | _ => []
                     end) evs.

(** * Properties *)

(** ** Arithmetic on the modelled floats *)

Lemma Qlt_bool_true (a b : Q) : Py.Qlt_bool a b = true <-> (a < b)%Q.
Proof.
  unfold Py.Qlt_bool. rewrite negb_true_iff. split.
  - intros Hb. apply Qnot_le_lt. intros Hle.
    apply Qle_bool_iff in Hle. congruence.
  - intros Hlt. destruct (Qle_bool b a) eqn:Hb; [|reflexivity].
    apply Qle_bool_iff in Hb. exfalso. exact (Qlt_not_le _ _ Hlt Hb).
Qed.

Lemma Qlt_bool_false (a b : Q) : Py.Qlt_bool a b = false <-> (b <= a)%Q.
Proof.
  unfold Py.Qlt_bool. rewrite negb_false_iff. apply Qle_bool_iff.
Qed.

(** On a float that is not negative, [int] is the floor. *)
Lemma int_of_float_floor (x : Q) : (0 <= x)%Q -> Py.int_of_float x = Qfloor x.
Proof.
  destruct x as [n d]. unfold Qle, Py.int_of_float, Qfloor. simpl.
  intros Hn. apply Z.quot_div_nonneg; lia.
Qed.

(** ** Validation *)

Lemma bind_exits_1 {A B} (m : exec A) (k : A -> exec B) :
  passes_or_exits_1 m -> (forall a, k a = SysExit 1) -> m ≫= k = SysExit 1.
Proof.
  destruct m as [a|c|x]; simpl; intros Hm Hk.
  - apply Hk.
  - now subst.
  - contradiction.
Qed.

Lemma is_in_range_cases (v lo hi : Q) : passes_or_exits_1 (is_in_range v lo hi).
Proof. unfold is_in_range. now destruct (_ || _). Qed.

Lemma check_file_open_cases (g o r : bool) : passes_or_exits_1 (check_file_open g o r).
Proof. unfold check_file_open. now destruct (_ && _). Qed.

Lemma check_mut_rate_above (m : Q) : (3 # 10 < m)%Q -> check_mut_rate m = SysExit 1.
Proof.
  intros Hm. unfold check_mut_rate.
  assert (H0 : Py.Qlt_bool m 0 = false).
  { apply Qlt_bool_false. apply Qlt_le_weak. eapply Qlt_trans; [|exact Hm]. reflexivity. }
  rewrite H0.
  assert (Hne : Qeq_bool m (-1) = false).
  { destruct (Qeq_bool m (-1)) eqn:He; [|reflexivity].
    apply Qeq_bool_iff in He. rewrite He in Hm. discriminate Hm. }
  rewrite Hne. simpl. unfold is_in_range.
  assert (Hhi : Py.Qlt_bool (3 # 10) m = true) by now apply Qlt_bool_true.
  rewrite Hhi, orb_true_r. reflexivity.
Qed.

Lemma validate_rejects_high_mut_rate (a : args) (e : environment) :
  (3 # 10 < arg_M a)%Q -> validate a e = SysExit 1.
Proof.
  intros Hm. unfold validate.
  apply bind_exits_1; [apply check_file_open_cases | intros _].
  apply bind_exits_1; [apply check_file_open_cases | intros _].
  apply bind_exits_1; [apply check_file_open_cases | intros _].
  apply bind_exits_1; [now destruct (_ && _) | intros _].
  destruct (arg_pe a) as [fragment_size fragment_std].
  apply bind_exits_1; [now destruct (_ || _) | intros _].
  apply bind_exits_1; [apply is_in_range_cases | intros _].
  apply bind_exits_1; [apply is_in_range_cases | intros _].
  apply bind_exits_1; [apply is_in_range_cases | intros _].
  apply bind_exits_1; [apply is_in_range_cases | intros _].
  apply bind_exits_1.
  { destruct (negb _); [|exact Logic.I].
    pose proof (is_in_range_cases (arg_E a) 0 (3 # 10)) as Hc.
    destruct (is_in_range _ _ _); simpl; auto. }
  intros se.
  apply bind_exits_1.
  { destruct (negb _); [apply is_in_range_cases | exact Logic.I]. }
  intros _.
  apply bind_exits_1.
  { unfold parse_input_mutation_model. now destruct (mutation_model_loads e). }
  intros _.
  rewrite (check_mut_rate_above _ Hm). reflexivity.
Qed.

(** The seed, and with it the validated configuration, does not depend
    on the unseeded generator once [--rng] is not -1. *)
Lemma validate_ignores_unseeded_generator (a : args) (e1 e2 : environment) :
  arg_rng a <> -1 -> same_files e1 e2 -> validate a e1 = validate a e2.
Proof.
  intros Hrng (Hr & Hv & Ht & Hm). unfold validate, seed_of.
  destruct (Z.eqb_spec (arg_rng a) (-1)) as [Heq|_]; [contradiction|].
  rewrite Hr, Hv, Ht, Hm. reflexivity.
Qed.

(** C8, as stated, fails: a negative [-M], be it the default -1 or
    another value such as -0.5, passes validation.  Line 208 turns every
    negative rate into [None] before the range check of line 212 can
    see it, and the run goes on without rescaling. *)
Lemma negative_mut_rate_passes_validation :
  (exists cfg, validate (Examples.with_M (-1) Examples.plain_args) (Examples.files_fine 7)
               = Ok cfg /\ mut_rate cfg = None) /\
  (exists cfg, validate (Examples.with_M (- (1 # 2)) Examples.plain_args) (Examples.files_fine 7)
               = Ok cfg /\ mut_rate cfg = None).
Proof. split; eexists; split; reflexivity. Qed.

(** C8 (amended): a mutation-rate rescale value above 0.3 is a
    validation error; the run ends with exit code 1 before any output
    file is created, whatever the rest of the command line and the
    files are. *)
Theorem mut_rate_above_range_is_rejected {inputs out : Type}
    (simulate : config -> inputs -> out) (a : args) (e : environment) (i : inputs) :
  (3 # 10 < arg_M a)%Q -> run simulate a e i = EndedBeforeOutput 1.
Proof.
  intros Hm. unfold run. now rewrite (validate_rejects_high_mut_rate a e Hm).
Qed.

Lemma mut_rate_above_range_is_rejected_witness :
  (3 # 10 < arg_M (Examples.with_M (4 # 10) Examples.plain_args))%Q /\
  run Examples.seed_as_output (Examples.with_M (4 # 10) Examples.plain_args)
      (Examples.files_fine 7) tt = EndedBeforeOutput 1.
Proof.
  split.
  - reflexivity.
  - apply (mut_rate_above_range_is_rejected Examples.seed_as_output
             (Examples.with_M (4 # 10) Examples.plain_args) (Examples.files_fine 7) tt).
    reflexivity.
Defined.

(** ** The CIGAR check *)

(** What the check of lines 584-596 lets through: containers with at
    least two ploids whose first two maps hold only CIGARs of length
    100. *)
Lemma check_cigars_passes (all_cigar : list (list cigar)) :
  check_cigars all_cigar = Ok tt <->
  exists c0 c1 more, all_cigar = c0 :: c1 :: more /\
    Forall (fun c => Z.of_nat (List.length c) = 100) c0 /\
    Forall (fun c => Z.of_nat (List.length c) = 100) c1.
Proof.
  assert (Hoff : forall l, off_cigars l = [] <->
                           Forall (fun c => Z.of_nat (List.length c) = 100) l).
  { induction l as [|c l IH]; simpl.
    - split; [constructor | reflexivity].
    - destruct (Z.eqb_spec (Z.of_nat (List.length c)) 100) as [He|Hne]; simpl.
      + rewrite IH. split; [now constructor | now inversion 1].
      + split; [discriminate | inversion 1; contradiction]. }
  unfold check_cigars. split.
  - destruct all_cigar as [|c0 [|c1 more]]; simpl; try discriminate.
    + destruct (off_cigars c0); discriminate.
    + destruct (off_cigars c0) eqn:H0; [|discriminate].
      destruct (off_cigars c1) eqn:H1; [|discriminate].
      intros _. exists c0, c1, more. rewrite <- !Hoff. auto.
  - intros (c0 & c1 & more & -> & H0 & H1). simpl.
    apply Hoff in H0, H1. now rewrite H0, H1.
Qed.

(** C1: the check made on the CIGAR maps compares with the literal 100
    and reads ploids 0 and 1 only.  With read length 50 a map in which
    every CIGAR consumes exactly 50 read bases ends the run; with read
    length 100 and three ploids a CIGAR of 99 bases in the third map
    goes unnoticed; and with one ploid the check itself raises. *)
Theorem cigar_check_is_against_100_on_two_ploids :
  (cigar_map_well_formed 50 [[Examples.matches 50]; [Examples.matches 50]] /\
   check_cigars [[Examples.matches 50]; [Examples.matches 50]] = SysExit 1) /\
  (~ cigar_map_well_formed 100
       [[Examples.matches 100]; [Examples.matches 100]; [Examples.matches 99]] /\
   check_cigars [[Examples.matches 100]; [Examples.matches 100]; [Examples.matches 99]]
     = Ok tt) /\
  (cigar_map_well_formed 100 [[Examples.matches 100]] /\
   check_cigars [[Examples.matches 100]] = Raised "IndexError").
Proof.
  split; [|split].
  - split; [|reflexivity].
    repeat constructor.
  - split; [|reflexivity].
    intros H. inversion H as [|? ? _ H1]; subst.
    inversion H1 as [|? ? _ H2]; subst.
    inversion H2 as [|? ? H3 _]; subst.
    inversion H3 as [|? ? H4 _]; subst.
    vm_compute in H4. discriminate H4.
  - split; [|reflexivity].
    repeat constructor.
Qed.

(** ** The end of a window under structural variants *)

Lemma first_short_negative (end_ overlap : Z) (svs : list (Z * Z)) (d : Z) :
  first_short end_ overlap svs = Some d -> d < 0.
Proof.
  unfold first_short. intros Hf. apply List.find_some in Hf as [_ Hd]. lia.
Qed.

Lemma first_short_none (end_ overlap : Z) (svs : list (Z * Z)) :
  first_short end_ overlap svs = None <->
  Forall (fun row => 0 <= delta_of end_ overlap row) svs.
Proof.
  unfold first_short. induction svs as [|row svs IH]; simpl.
  - split; [constructor | reflexivity].
  - destruct (Z.ltb_spec (delta_of end_ overlap row) 0) as [Hneg|Hpos].
    + split; [discriminate | inversion 1; lia].
    + rewrite IH. split; [now constructor | now inversion 1].
Qed.

Lemma adjust_end_loop_ge (fuel : nat) (overlap : Z) (svs : list (Z * Z)) (end_ : Z) :
  end_ <= adjust_end_loop fuel overlap svs end_.
Proof.
  revert end_. induction fuel as [|fuel IH]; intros end_; simpl; [lia|].
  destruct (first_short end_ overlap svs) as [d|] eqn:Hf; [|lia].
  apply first_short_negative in Hf. specialize (IH (end_ + - d)). lia.
Qed.

Lemma short_rows_zero (end_ overlap : Z) (svs : list (Z * Z)) :
  short_rows end_ overlap svs = 0%nat -> first_short end_ overlap svs = None.
Proof.
  unfold short_rows. intros H0. apply first_short_none.
  induction svs as [|row svs IH]; [constructor|].
  simpl in H0. destruct (Z.ltb_spec (delta_of end_ overlap row) 0); [discriminate H0|].
  constructor; [lia | now apply IH].
Qed.

Lemma short_rows_mono (e e' overlap : Z) (svs : list (Z * Z)) :
  e <= e' -> (short_rows e' overlap svs <= short_rows e overlap svs)%nat.
Proof.
  intros He. unfold short_rows. induction svs as [|row svs IH]; simpl; [lia|].
  unfold delta_of in *.
  destruct (Z.ltb_spec (e' - 1 - (fst row + snd row) - 2 - overlap) 0);
    destruct (Z.ltb_spec (e - 1 - (fst row + snd row) - 2 - overlap) 0);
    simpl; lia.
Qed.

(** A pass that moves [end] settles the row it moved for. *)
Lemma short_rows_decrease (e overlap : Z) (svs : list (Z * Z)) (d : Z) :
  first_short e overlap svs = Some d ->
  (short_rows (e + - d) overlap svs < short_rows e overlap svs)%nat.
Proof.
  unfold first_short, short_rows. induction svs as [|row svs IH]; simpl; [discriminate|].
  destruct (Z.ltb_spec (delta_of e overlap row) 0) as [Hneg|Hpos].
  - intros [= <-].
    assert (Hrow : (delta_of (e + - delta_of e overlap row) overlap row <? 0) = false).
    { apply Z.ltb_ge. unfold delta_of. lia. }
    rewrite Hrow. simpl.
    pose proof (short_rows_mono e (e + - delta_of e overlap row) overlap svs) as Hm.
    unfold short_rows in Hm. lia.
  - intros Hf. specialize (IH Hf).
    pose proof (List.find_some _ _ Hf) as [_ Hd].
    destruct (Z.ltb_spec (delta_of (e + - d) overlap row) 0) as [Hneg'|_]; simpl; [|lia].
    unfold delta_of in *. lia.
Qed.

Lemma adjust_end_loop_stable (fuel : nat) (overlap : Z) (svs : list (Z * Z)) (end_ : Z) :
  (short_rows end_ overlap svs <= fuel)%nat ->
  first_short (adjust_end_loop fuel overlap svs end_) overlap svs = None.
Proof.
  revert end_. induction fuel as [|fuel IH]; intros end_ Hle; simpl.
  - apply short_rows_zero. lia.
  - destruct (first_short end_ overlap svs) as [d|] eqn:Hf; [|exact Hf].
    apply IH. apply short_rows_decrease in Hf. lia.
Qed.

(** The [while keep_going] loop has ended when [adjust_end] returns: no
    row asks for a longer window any more. *)
Lemma adjust_end_stable (overlap : Z) (svs : list (Z * Z)) (end_ : Z) :
  Forall (fun row => 0 <= delta_of (adjust_end overlap svs end_) overlap row) svs.
Proof.
  apply first_short_none. unfold adjust_end. apply adjust_end_loop_stable.
  unfold short_rows. apply List.filter_length_le.
Qed.

Lemma adjust_end_ge (overlap : Z) (svs : list (Z * Z)) (end_ : Z) :
  end_ <= adjust_end overlap svs end_.
Proof. apply adjust_end_loop_ge. Qed.

(** ** One pass of the window loop *)

Section WindowFacts.
Context {container io : Type} `{!Collaborators container io}.
Variable sch : schedule.
Variable final_position : Z.
Variable pitch : Z.

Abbreviation state := (loop_state container io).
Abbreviation plan := (plan_window sch final_position pitch).
Abbreviation step := (window_step sch final_position pitch).
Abbreviation loop := (window_loop sch final_position pitch).

(** What a plan fixes, in terms of the end [end1] that the structural
    variants ask for. *)
Lemma plan_window_spec (s : state) (p : window_plan) :
  plan s = Ok p ->
  exists end1,
    end_ s <= end1 /\
    (p_vars_in_window p, p_v_index p)
      = collect_vars_in_window (s_valid_variants sch) (start s) (end_ s)
                               (s_overlap sch) (v_index_from_prev s) /\
    p_next_start p = end1 - s_overlap sch /\
    p_next_end p = Z.min (p_next_start p + pitch) final_position /\
    ((p_next_end p - p_next_start p < pitch /\ p_end p = p_next_end p /\
      p_is_last_time p = true)
     \/ (pitch <= p_next_end p - p_next_start p /\ p_end p = end1 /\
         p_is_last_time p = is_last_time s)).
Proof.
  unfold plan_window.
  destruct (collect_vars_in_window _ _ _ _ _) as [viw vi].
  destruct (structural_vars_of viw) as [svs|c|x]; simpl; try discriminate.
  intros [= <-].
  exists (adjust_end (s_overlap sch) svs (end_ s)).
  split; [apply adjust_end_ge|].
  destruct (Z.ltb_spec (Z.min (adjust_end (s_overlap sch) svs (end_ s) - s_overlap sch + pitch)
                              final_position
                        - (adjust_end (s_overlap sch) svs (end_ s) - s_overlap sch)) pitch);
    simpl; repeat split; auto.
Qed.

(** A planned window ends within the span when the pitch is at least
    the overlap. *)
Lemma plan_window_end_le (s : state) (p : window_plan) :
  s_overlap sch <= pitch -> plan s = Ok p -> p_end p <= final_position.
Proof.
  intros Hov Hp. apply plan_window_spec in Hp as (end1 & _ & _ & Hns & Hne & Hcase).
  destruct Hcase as [(_ & He & _) | (Hge & He & _)]; lia.
Qed.

Lemma advance_cases (s : state) (p : window_plan) :
  (p_is_last_time p = true /\ fst (advance final_position s p) = Break)
  \/ (p_is_last_time p = false /\ fst (advance final_position s p) = Continue).
Proof. unfold advance. destruct (p_is_last_time p); simpl; auto. Qed.

Lemma skip_window_nothing_sampled (s : state) (p : window_plan) :
  nothing_sampled s (snd (skip_window final_position (enter_window s p) p)).
Proof.
  unfold skip_window, advance, nothing_sampled.
  destruct (p_is_last_time p); simpl;
    rewrite List.filter_app, List.app_nil_r; auto.
Qed.

Lemma nothing_sampled_refl (s : state) : nothing_sampled s s.
Proof. unfold nothing_sampled. auto. Qed.

Lemma nothing_sampled_trans (s1 s2 s3 : state) :
  nothing_sampled s1 s2 -> nothing_sampled s2 s3 -> nothing_sampled s1 s3.
Proof.
  unfold nothing_sampled. intros (E1 & W1 & Q1 & A1) (E2 & W2 & Q2 & A2).
  repeat split; congruence.
Qed.

(** A pass whose window is skipped: the state it leaves. *)
Lemma step_skipped (s : state) (p : window_plan) :
  plan s = Ok p -> window_skipped sch s p = true ->
  step s = (Ok (fst (skip_window final_position (enter_window s p) p)),
            snd (skip_window final_position (enter_window s p) p)).
Proof.
  intros Hp Hs. unfold window_step. rewrite Hp, Hs.
  now destruct (skip_window _ _ _).
Qed.

Lemma step_failed_plan (s : state) :
  (forall p, plan s <> Ok p) -> snd (step s) = s /\ forall c, fst (step s) <> Ok c.
Proof.
  intros Hp. unfold window_step.
  destruct (plan s) as [p|c|x]; [now destruct (Hp p)| |]; simpl; split; auto; discriminate.
Qed.

(** If every window planned from a state satisfying [Inv] is skipped,
    and skipping keeps [Inv], the loop samples nothing, however long it
    runs. *)
Lemma loop_all_skipped (Inv : state -> Prop) :
  (forall s p, Inv s -> plan s = Ok p ->
     window_skipped sch s p = true /\
     Inv (snd (skip_window final_position (enter_window s p) p))) ->
  forall fuel s, Inv s -> nothing_sampled s (snd (loop fuel s)).
Proof.
  intros Hskip. induction fuel as [|fuel IH]; intros s Hinv; simpl.
  - apply nothing_sampled_refl.
  - destruct (plan s) as [p|c|x] eqn:Hp.
    + destruct (Hskip s p Hinv Hp) as [Hs Hinv'].
      rewrite (step_skipped s p Hp Hs).
      pose proof (skip_window_nothing_sampled s p) as Hq.
      destruct (skip_window final_position (enter_window s p) p) as [[|] s2]; simpl in *.
      * eapply nothing_sampled_trans; [exact Hq | now apply IH].
      * exact Hq.
    + unfold window_step. rewrite Hp. simpl. apply nothing_sampled_refl.
    + unfold window_step. rewrite Hp. simpl. apply nothing_sampled_refl.
Qed.

(** Without target intervals for the contig no position is a target hit. *)
Lemma no_targets_no_hits (s : state) (p : window_plan) :
  s_target_regions sch !! s_chrom sch = None ->
  snd (window_coverage sch s p) = 0.
Proof.
  intros Hnone. unfold window_coverage, coverage_modifiers.
  destruct (decide (s_target_regions sch = ∅)); [reflexivity|].
  now rewrite Hnone.
Qed.

End WindowFacts.

(** ** Spans *)

(** Line 464 on a span that is not empty: the float division followed
    by [int] is the integer quotient. *)
Lemma base_pair_distance_div (initial_position final_position n : Z) :
  0 < n -> initial_position <= final_position ->
  base_pair_distance initial_position final_position n
  = (final_position - initial_position) / n.
Proof.
  intros Hn Hspan. destruct n as [|q|q]; try lia.
  unfold base_pair_distance, Py.int_of_float. simpl.
  rewrite Z.mul_1_r. apply Z.quot_div_nonneg; lia.
Qed.

Section SpanFacts.
Context {container io : Type} `{!Collaborators container io}.
Variable sch : schedule.

Abbreviation cstate := (loop_state container io).

Lemma first_window_nothing_sampled (i f pitch : Z) (s : cstate) :
  nothing_sampled s (first_window i f pitch s).
Proof. unfold nothing_sampled. simpl. auto. Qed.

(** A span samples nothing if its window loop samples nothing. *)
Lemma span_walk_nothing_sampled (fuel : nat) (i f : Z) (s : cstate) :
  (forall n,
     number_target_windows i f (s_target_size sch) = Ok n ->
     span_too_small sch n (f - i) = false ->
     let pitch := base_pair_distance i f n in
     nothing_sampled (first_window i f pitch s)
       (snd (window_loop sch f pitch fuel (first_window i f pitch s)))) ->
  nothing_sampled s (snd (span_walk sch fuel (i, f) s)).
Proof.
  intros Hloop. unfold span_walk.
  destruct (number_target_windows i f (s_target_size sch)) as [n|c|x] eqn:Hn;
    simpl; try apply nothing_sampled_refl.
  destruct (span_too_small sch n (f - i)) eqn:Hsmall; simpl.
  - apply nothing_sampled_refl.
  - eapply nothing_sampled_trans; [apply first_window_nothing_sampled|].
    now apply Hloop.
Qed.

Lemma contig_walk_nothing_sampled (fuel : nat) (spans : list (Z * Z)) :
  (forall span s, In span spans -> nothing_sampled s (snd (span_walk sch fuel span s))) ->
  forall s : cstate, nothing_sampled s (snd (contig_walk sch fuel spans s)).
Proof.
  induction spans as [|span more IH]; intros Hspan s; simpl.
  - apply nothing_sampled_refl.
  - pose proof (Hspan span s (or_introl eq_refl)) as H1.
    destruct (span_walk sch fuel span s) as [[[[]|c|x]|] s'] eqn:Hw; simpl in *;
      try exact H1.
    eapply nothing_sampled_trans; [exact H1|].
    apply IH. intros sp s0 Hin. apply Hspan. now right.
Qed.

(** With [--discard-offtarget] and no target interval on the contig,
    every planned window is skipped. *)
Lemma untargeted_window_skipped (f pitch : Z) (s : cstate) (p : window_plan) :
  s_off_target_discard sch = true ->
  s_target_regions sch !! s_chrom sch = None ->
  0 <= s_read_len sch ->
  window_skipped sch s p = true.
Proof.
  intros Hd Hnone HR. unfold window_skipped.
  pose proof (no_targets_no_hits sch s p Hnone) as Hhits.
  destruct (window_coverage sch s p) as [cov hits]. simpl in Hhits. subst hits.
  unfold skip_this_window. rewrite Hd.
  destruct (Z.leb_spec 0 (s_read_len sch)); [reflexivity | lia].
Qed.

(** A span shorter than the smallest window, in a schedule whose target
    size is 100 overlaps: whatever the window loop plans stays inside
    the span, so it is too narrow and is skipped. *)
Lemma short_span_windows_skipped (i f n pitch : Z) (s : cstate) (p : window_plan) :
  0 < s_overlap sch -> s_overlap sch <= pitch ->
  i + s_overlap sch <= f ->
  f - i < s_overlap_min_window_size sch ->
  i <= start s /\ i + s_overlap sch <= end_ s ->
  plan_window sch f pitch s = Ok p ->
  window_skipped sch s p = true /\
  (let s' := snd (skip_window f (enter_window s p) p) in
   i <= start s' /\ i + s_overlap sch <= end_ s').
Proof.
  intros Hov Hpitch Hif Hshort [Hst Hen] Hp.
  pose proof (plan_window_end_le sch f pitch s p Hpitch Hp) as Hend.
  apply plan_window_spec in Hp as (end1 & Hge & _ & Hns & Hne & _).
  split.
  - unfold window_skipped. destruct (window_coverage sch s p) as [cov hits].
    unfold skip_this_window.
    destruct (Z.ltb_spec (p_end p - start s) (s_overlap_min_window_size sch));
      [apply orb_true_r | lia].
  - unfold skip_window, advance.
    destruct (p_is_last_time p); simpl; lia.
Qed.

End SpanFacts.

(** C9: with [--discard-offtarget] set and no target interval for the
    contig (no target BED at all, or none of its intervals on this
    contig), the target-hit count of every window is 0, which is not
    above the read length, so every window of every span of the contig
    is skipped: no variant is inserted, the read loop never runs, and
    the container and the collaborators' state are left as they were,
    however many windows the walk visits. *)
Theorem discard_offtarget_without_targets_samples_nothing
    {container io : Type} `{!Collaborators container io}
    (sch : schedule) (fuel : nat) (spans : list (Z * Z)) (s : loop_state container io) :
  s_off_target_discard sch = true ->
  s_target_regions sch !! s_chrom sch = None ->
  0 <= s_read_len sch ->
  (forall f pitch (s0 : loop_state container io) p, plan_window sch f pitch s0 = Ok p ->
      snd (window_coverage sch s0 p) = 0 /\ window_skipped sch s0 p = true) /\
  nothing_sampled s (snd (contig_walk sch fuel spans s)).
Proof.
  intros Hd Hnone HR. split.
  - intros f pitch s0 p _. split.
    + now apply no_targets_no_hits.
    + now apply (untargeted_window_skipped sch f pitch).
  - apply contig_walk_nothing_sampled. intros [i f] s0 _.
    apply span_walk_nothing_sampled. intros n _ _ pitch.
    apply (loop_all_skipped sch f pitch (fun _ => True)); [|exact Logic.I].
    intros s1 p _ _. split; [|exact Logic.I].
    now apply (untargeted_window_skipped sch f pitch).
Qed.

Lemma discard_offtarget_without_targets_samples_nothing_witness :
  let sch := Demo.single_end [] 10 true ∅ in
  let r := contig_walk sch 100 [(0, 2500); (3000, 3400)]
                       (contig_start (container := list variant) 0%nat) in
  fst r = Some (Ok tt) /\
  events (snd r) = [Skipped 0 1250; Skipped 1240 2500; Skipped 3000 3400] /\
  nothing_sampled (contig_start 0%nat) (snd r).
Proof.
  split; [reflexivity | split; [reflexivity|]].
  apply (discard_offtarget_without_targets_samples_nothing
           (Demo.single_end [] 10 true ∅) 100 [(0, 2500); (3000, 3400)]
           (contig_start (container := list variant) 0%nat)).
  - reflexivity.
  - reflexivity.
  - simpl. lia.
Defined.

Lemma plain_args_validate :
  validate Examples.plain_args (Examples.files_fine 7) = Ok Examples.plain_config.
Proof. reflexivity. Qed.

(** C6, as stated, fails: a span shorter than
    [overlap_min_window_size] is not always skipped as a whole.  The
    guard of line 467 also asks for a single target window.  With a
    fragment-length model of mean 20 whose lengths reach 6020, the
    smallest window is 6030 and the target size 2000: the span
    [[0, 5000)] is shorter than the smallest window, has two target
    windows, and is walked; both of its windows take the skip path of
    lines 569-578. *)
Lemma short_span_of_two_windows_is_walked :
  let psch := Examples.paired_schedule in
  let s0 := contig_start (container := list variant) 0%nat in
  schedule_of Examples.paired_config "chr1" ∅ 20 [11; 20; 6020] [] = Ok psch /\
  5000 - 0 < s_overlap_min_window_size psch /\
  number_target_windows 0 5000 (s_target_size psch) = Ok 2 /\
  events (snd (span_walk psch 10 (0, 5000) s0)) = [Skipped 0 2500; Skipped 2480 5000] /\
  span_walk psch 10 (0, 5000) s0 <> (Some (Ok tt), s0).
Proof.
  intros psch s0.
  split; [reflexivity|]. split; [reflexivity|]. split; [reflexivity|].
  split; [vm_compute; reflexivity|].
  intros Heq. apply (f_equal (fun r => events (snd r))) in Heq.
  vm_compute in Heq. discriminate.
Qed.

(** C6 (amended): for a non-N span [[i, f)] the scheduler takes
    [n = max 1 ((f - i) / target_size)] windows, with [target_size] 100
    times the fragment size (paired-end) or the read length
    (single-end); the base pitch is [(f - i)] divided by [n].  The span
    is skipped as a whole, the loop variables, the container, the
    ledger and the collaborators left as they were, exactly when
    [n = 1] and [f - i < overlap_min_window_size]; every other span is
    walked from the window [[i, min (i + pitch) f)], also a span
    shorter than [overlap_min_window_size] that has two or more target
    windows.  In every span shorter than [overlap_min_window_size],
    walked or not, nothing is sampled. *)
Theorem span_planning {container io : Type} `{!Collaborators container io}
    (cfg : config) (chrom : string) (targets : gmap string (list Z))
    (fragment_size : Z) (fraglen_values : list Z) (df : data_frame)
    (sch : schedule) (i f : Z) :
  schedule_of cfg chrom targets fragment_size fraglen_values df = Ok sch ->
  0 < (if paired_end cfg then fragment_size else read_len cfg) ->
  i <= f ->
  let size := if paired_end cfg then fragment_size else read_len cfg in
  let n := Z.max 1 ((f - i) / (100 * size)) in
  s_target_size sch = 100 * size /\
  number_target_windows i f (s_target_size sch) = Ok n /\
  base_pair_distance i f n = (f - i) / n /\
  (forall fuel (s : loop_state container io),
     n = 1 -> f - i < s_overlap_min_window_size sch ->
     span_walk sch fuel (i, f) s = (Some (Ok tt), s)) /\
  (forall fuel (s : loop_state container io),
     1 < n \/ s_overlap_min_window_size sch <= f - i ->
     span_walk sch fuel (i, f) s
     = window_loop sch f ((f - i) / n) fuel (first_window i f ((f - i) / n) s)) /\
  (forall fuel (s : loop_state container io),
     f - i < s_overlap_min_window_size sch ->
     nothing_sampled s (snd (span_walk sch fuel (i, f) s))).
Proof.
  intros Hsch Hsize Hif size n.
  assert (Hfields : s_target_size sch = 100 * size /\ s_overlap sch = size).
  { unfold schedule_of, window_sizes in Hsch. subst size.
    destruct (paired_end cfg).
    - destruct (py_max fraglen_values) as [m|c|x]; simpl in Hsch; try discriminate.
      injection Hsch as <-. simpl. auto.
    - simpl in Hsch. injection Hsch as <-. simpl. auto. }
  destruct Hfields as [Hts Hov].
  assert (Hn : number_target_windows i f (s_target_size sch) = Ok n).
  { unfold number_target_windows. rewrite Hts.
    destruct (Z.eqb_spec (100 * size) 0); [lia | reflexivity]. }
  assert (Hn1 : 0 < n) by (subst n; lia).
  assert (Hbpd : base_pair_distance i f n = (f - i) / n)
    by now apply base_pair_distance_div.
  split; [exact Hts | split; [exact Hn | split; [exact Hbpd | split; [|split]]]].
  - intros fuel s Hone Hshort. unfold span_walk. rewrite Hn.
    unfold span_too_small. rewrite Hone.
    destruct (Z.ltb_spec (f - i) (s_overlap_min_window_size sch)); [reflexivity | lia].
  - intros fuel s Hwalk. unfold span_walk. rewrite Hn, Hbpd.
    unfold span_too_small.
    destruct Hwalk as [Hmany|Hbig].
    + destruct (Z.eqb_spec n 1); [lia | reflexivity].
    + destruct (Z.ltb_spec (f - i) (s_overlap_min_window_size sch)); [lia|].
      now rewrite andb_false_r.
  - intros fuel s Hshort.
    apply span_walk_nothing_sampled. intros n' Hn' Hsmall pitch.
    rewrite Hn in Hn'. injection Hn' as <-.
    unfold span_too_small in Hsmall.
    destruct (Z.ltb_spec (f - i) (s_overlap_min_window_size sch)); [|lia].
    rewrite andb_true_r in Hsmall. apply Z.eqb_neq in Hsmall.
    assert (Hq : n = (f - i) / (100 * size) /\ 2 <= (f - i) / (100 * size))
      by (subst n; lia).
    destruct Hq as [Hq H2].
    assert (Hmul : 100 * size * ((f - i) / (100 * size)) <= f - i)
      by (apply Z.mul_div_le; lia).
    assert (Hpitch : 100 * size <= pitch).
    { subst pitch. rewrite Hbpd. apply Z.div_le_lower_bound; [lia|].
      rewrite Hq at 1. lia. }
    apply (loop_all_skipped sch f pitch
             (fun s0 => i <= start s0 /\ i + s_overlap sch <= end_ s0)).
    + intros s0 p Hinv Hp.
      apply (short_span_windows_skipped sch i f n pitch s0 p); try lia; auto.
      rewrite Hov. nia.
    + simpl. rewrite Hov. nia.
Qed.

Lemma span_planning_witness :
  let sch := Examples.chr1_schedule in
  let s0 := contig_start (container := list variant) 0%nat in
  Examples.plain_schedule [] = Ok sch /\
  number_target_windows 0 105 (s_target_size sch) = Ok 1 /\
  base_pair_distance 0 25000 2 = 12500 /\
  span_walk sch 10 (0, 105) s0 = (Some (Ok tt), s0) /\
  span_walk sch 10 (0, 25000) s0
  = window_loop sch 25000 12500 10 (first_window 0 25000 12500 s0).
Proof.
  pose proof (span_planning (container := list variant) (io := nat)
                Examples.plain_config "chr1" ∅ 0 [] []
                Examples.chr1_schedule 0 105) as H105.
  pose proof (span_planning (container := list variant) (io := nat)
                Examples.plain_config "chr1" ∅ 0 [] []
                Examples.chr1_schedule 0 25000) as H25000.
  destruct H105 as (_ & Hn & _ & Hskip & _); [reflexivity | reflexivity | lia |].
  destruct H25000 as (_ & _ & Hbpd & _ & Hwalk & _); [reflexivity | reflexivity | lia |].
  split; [reflexivity|].
  split; [exact Hn | split; [exact Hbpd | split]].
  - apply Hskip; [reflexivity | simpl; lia].
  - apply (Hwalk 10%nat (contig_start 0%nat)). left. reflexivity.
Defined.

(** ** Skipped and sampled windows *)

Lemma skip_this_window_true (discard : bool) (hits R : Z) (cov : list Q) (st en omws : Z) :
  skip_this_window discard hits R cov st en omws = true <->
  (discard = true /\ hits <= R) \/ (Py.sum cov < low_cov_thresh)%Q \/ en - st < omws.
Proof.
  unfold skip_this_window.
  rewrite !orb_true_iff, andb_true_iff, Z.leb_le, Z.ltb_lt, Qlt_bool_true.
  tauto.
Qed.

(** C10: a window that is skipped, for being off target under
    [--discard-offtarget], for a coverage sum below the threshold, or for
    being narrower than [overlap_min_window_size], is logged as skipped
    and nothing in it is sampled; unless the loop ends with it, the list
    of variants carried from the previous window is empty when the next
    window starts, so the variants given to the container in that next
    window are the VCF variants of the window alone. *)
Theorem skipped_window_clears_carry {container io : Type} `{!Collaborators container io}
    (sch : schedule) (final_position pitch : Z)
    (s : loop_state container io) (p : window_plan) :
  plan_window sch final_position pitch s = Ok p ->
  ((s_off_target_discard sch = true /\ snd (window_coverage sch s p) <= s_read_len sch)
   \/ (Py.sum (fst (window_coverage sch s p)) < low_cov_thresh)%Q
   \/ p_end p - start s < s_overlap_min_window_size sch) ->
  exists ctl s',
    window_step sch final_position pitch s = (Ok ctl, s') /\
    events s' = events s ++ [Skipped (start s) (p_end p)] /\
    nothing_sampled s s' /\
    ((p_is_last_time p = true /\ ctl = Break)
     \/ (p_is_last_time p = false /\ ctl = Continue /\
         vars_from_prev_overlap s' = [] /\
         forall p', plan_window sch final_position pitch s' = Ok p' ->
                    given_variants s' p' = p_vars_in_window p')).
Proof.
  intros Hp Hcause.
  assert (Hs : window_skipped sch s p = true).
  { unfold window_skipped. destruct (window_coverage sch s p) as [cov hits].
    now apply skip_this_window_true. }
  exists (fst (skip_window final_position (enter_window s p) p)),
         (snd (skip_window final_position (enter_window s p) p)).
  split; [now apply step_skipped|].
  split; [|split; [apply skip_window_nothing_sampled|]].
  - unfold skip_window, advance. now destruct (p_is_last_time p).
  - unfold skip_window, advance. destruct (p_is_last_time p); simpl; [now left|].
    right. repeat split.
Qed.

Lemma skipped_window_clears_carry_witness :
  let sch := Demo.single_end [] 10 false ∅ in
  let s := {| start := 0; end_ := 15; vars_from_prev_overlap := [Demo.snv 7];
              v_index_from_prev := 0%nat; is_last_time := false;
              sequences := Some [Demo.snv 7]; all_variants_out := [Demo.snv 7];
              world := 3%nat; events := [] |} in
  exists p s',
    plan_window sch 1000 15 s = Ok p /\
    window_step sch 1000 15 s = (Ok Continue, s') /\
    events s' = [Skipped 0 15] /\ vars_from_prev_overlap s' = [].
Proof.
  intros sch s.
  destruct (skipped_window_clears_carry sch 1000 15 s
              {| p_vars_in_window := []; p_v_index := 0%nat; p_end := 15;
                 p_next_start := 5; p_next_end := 20; p_is_last_time := false |})
    as (ctl & s' & Hstep & Hev & _ & [[Hl _] | (_ & -> & Hcarry & _)]).
  - reflexivity.
  - right. left. reflexivity.
  - discriminate Hl.
  - eexists _, s'. split; [reflexivity|]. split; [exact Hstep|]. split; assumption.
Defined.

Section SampledWindow.
Context {container io : Type} `{!Collaborators container io}.
Variable sch : schedule.
Variable final_position : Z.
Variable pitch : Z.

Abbreviation wstate := (loop_state container io).

Lemma advance_keeps (s : wstate) (p : window_plan) :
  let s' := snd (advance final_position s p) in
  vars_from_prev_overlap s' = vars_from_prev_overlap s /\
  events s' = events s /\ start s' = p_next_start p /\ end_ s' = p_next_end p.
Proof. unfold advance. destruct (p_is_last_time p); simpl; auto. Qed.

(** A sampled window that runs to its end: what was given to the
    container, and what is carried on. *)
Lemma sample_window_carry (s : wstate) (p : window_plan) (cov : list Q)
    (ctl : control) (s' : wstate) :
  sample_window sch final_position s p cov = (Ok ctl, s') ->
  In (Inserted (start s) (p_end p) (given_variants s p) (applied_variants s p))
     (events s') /\
  vars_from_prev_overlap s'
  = List.filter (fun row => p_end p - s_overlap sch - 1 <=? var_pos row)
                (applied_variants s p) /\
  v_index_from_prev s' = p_v_index p.
Proof.
  unfold sample_window, applied_variants.
  destruct (check_cigars _) as [[]|c|x]; try discriminate.
  destruct (sc_random_mutations _ _) as [[applied c2] w2]. simpl.
  destruct (Qle_bool low_cov_thresh (Py.sum cov)).
  - destruct (sc_init_coverage c2 cov w2) as [[avg c3] w3].
    destruct (s_only_vcf sch).
    + unfold advance. destruct (p_is_last_time p); intros [= <- <-]; simpl;
        (split; [apply in_or_app; right; now left | split; reflexivity]).
    + destruct (reads_to_sample _ _ _ _ _ _ _) as [n|c|x]; try discriminate.
      unfold advance. destruct (p_is_last_time p); intros [= <- <-]; simpl;
        (split; [apply in_or_app; left; apply in_or_app; right; now left
                | split; reflexivity]).
  - destruct (s_only_vcf sch).
    + unfold advance. destruct (p_is_last_time p); intros [= <- <-]; simpl;
        (split; [apply in_or_app; right; now left | split; reflexivity]).
    + destruct (reads_to_sample _ _ _ _ _ _ _) as [n|c|x]; try discriminate.
      unfold advance. destruct (p_is_last_time p); intros [= <- <-]; simpl;
        (split; [apply in_or_app; left; apply in_or_app; right; now left
                | split; reflexivity]).
Qed.

Lemma advance_frame (s1 s2 : wstate) (p : window_plan) :
  same_loop_vars s1 s2 ->
  fst (advance final_position s1 p) = fst (advance final_position s2 p) /\
  same_loop_vars (snd (advance final_position s1 p)) (snd (advance final_position s2 p)).
Proof.
  unfold same_loop_vars, advance. intros (? & ? & ? & ? & ? & ? & ?).
  destruct (p_is_last_time p); simpl; repeat split; assumption.
Qed.

Lemma sample_window_frame (s1 s2 : wstate) (p : window_plan) (cov : list Q) :
  same_loop_vars s1 s2 ->
  fst (sample_window sch final_position s1 p cov)
    = fst (sample_window sch final_position s2 p cov) /\
  same_loop_vars (snd (sample_window sch final_position s1 p cov))
                 (snd (sample_window sch final_position s2 p cov)).
Proof.
  intros (Hst & Hen & Hv & Hi & Hl & Hq & Hw).
  unfold sample_window, window_container, given_variants.
  rewrite <- Hst, <- Hv, <- Hq, <- Hw.
  destruct (check_cigars _) as [[]|c|x];
    [|unfold same_loop_vars; simpl; repeat split; auto ..].
  destruct (sc_random_mutations _ _) as [[applied c2] w2].
  assert (Hfinish : forall (a b : wstate),
            same_loop_vars a b ->
            forall rows,
            let fin (s0 : wstate) :=
              let '(ctl, s4) :=
                advance final_position
                  {| start := start s0; end_ := end_ s0;
                     vars_from_prev_overlap := vars_from_prev_overlap s0;
                     v_index_from_prev := v_index_from_prev s0;
                     is_last_time := is_last_time s0; sequences := sequences s0;
                     all_variants_out := tally rows (all_variants_out s0);
                     world := world s0; events := events s0 |} p in
              (Ok ctl, s4) in
            fst (fin a) = fst (fin b) /\ same_loop_vars (snd (fin a)) (snd (fin b))).
  { intros a b (? & ? & ? & ? & ? & ? & ?) rows. unfold advance. simpl.
    destruct (p_is_last_time p); unfold same_loop_vars; simpl; repeat split; auto. }
  destruct (Qle_bool low_cov_thresh (Py.sum cov));
    [destruct (sc_init_coverage c2 cov w2) as [[avg c3] w3]|];
    (destruct (s_only_vcf sch);
     [apply Hfinish; unfold same_loop_vars; simpl; repeat split; auto
     |destruct (reads_to_sample _ _ _ _ _ _ _) as [n|c|x];
      [apply Hfinish|..]; unfold same_loop_vars; simpl; repeat split; auto]).
Qed.

(** The tally of variants and the log of events do not flow into a
    pass: two states that differ at most there take the same step. *)
Lemma window_step_frame (s1 s2 : wstate) :
  same_loop_vars s1 s2 ->
  fst (window_step sch final_position pitch s1)
    = fst (window_step sch final_position pitch s2) /\
  same_loop_vars (snd (window_step sch final_position pitch s1))
                 (snd (window_step sch final_position pitch s2)).
Proof.
  intros Hsame. pose proof Hsame as (Hst & Hen & Hv & Hi & Hl & Hq & Hw).
  assert (Hplan : plan_window sch final_position pitch s1
                  = plan_window sch final_position pitch s2).
  { unfold plan_window. now rewrite Hst, Hen, Hi, Hl. }
  unfold window_step. rewrite <- Hplan.
  destruct (plan_window sch final_position pitch s1) as [p|c|x];
    [|simpl; split; [reflexivity | exact Hsame] ..].
  assert (Hcov : window_coverage sch s1 p = window_coverage sch s2 p)
    by (unfold window_coverage; now rewrite Hst).
  assert (Hskip : window_skipped sch s1 p = window_skipped sch s2 p)
    by (unfold window_skipped; now rewrite Hcov, Hst).
  assert (Henter : same_loop_vars (enter_window s1 p) (enter_window s2 p))
    by (unfold same_loop_vars; simpl; repeat split; auto).
  rewrite <- Hskip, <- Hcov.
  destruct (window_skipped sch s1 p).
  - unfold skip_window.
    assert (Hlog : same_loop_vars
                     (log (Skipped (start (enter_window s1 p)) (p_end p)) (enter_window s1 p))
                     (log (Skipped (start (enter_window s2 p)) (p_end p)) (enter_window s2 p)))
      by (unfold same_loop_vars; simpl; repeat split; auto).
    destruct (advance_frame _ _ p Hlog) as [Hf Hs].
    destruct (advance final_position (log _ (enter_window s1 p)) p) as [c1 t1].
    destruct (advance final_position (log _ (enter_window s2 p)) p) as [c2 t2].
    simpl in Hf, Hs. subst c2.
    destruct c1; simpl; (split; [reflexivity|]); [|exact Hs].
    unfold same_loop_vars in *. simpl. tauto.
  - now apply sample_window_frame.
Qed.

End SampledWindow.

(** ** The read budget *)

(** In a window whose coverage sum reaches the threshold, the rule of
    lines 647-648 does not apply and [coverage_avg] is set: the budget
    is the quotient the doubles give, truncated, plus 1. *)
Lemma reads_to_sample_in_doubles
    (paired force : bool) (window_span : Z) (cov avg : Q) (R : Z) (cov_sum : Q) :
  Py.Qlt_bool cov_sum low_cov_thresh = false ->
  reads_to_sample paired force window_span cov (Some avg) R cov_sum
  = budget_in_doubles paired force window_span cov avg R.
Proof.
  intros Hsum. unfold reads_to_sample, budget_in_doubles, quotient_plus_one.
  rewrite Hsum.
  destruct paired, force; rewrite ?Z.mul_1_l;
    destruct (Double.of_int window_span) as [span|c|x]; try reflexivity;
    cbn [mbind exec_bind];
    match goal with
    | |- context [Double.of_int ?d] => destruct (Double.of_int d) as [k|c|x]
    end; try reflexivity; cbn [mbind exec_bind];
    match goal with
    | |- context [Double.truediv ?n ?d] => destruct (Double.truediv n d) as [q|c|x]
    end; try reflexivity; cbn [mbind exec_bind];
    match goal with
    | |- context [Double.to_int ?q] => destruct (Double.to_int q) as [n|c|x]
    end; try reflexivity;
    cbn [mbind exec_bind]; now rewrite andb_false_r.
Qed.

(** C4, as stated, fails: a window of 150 bases at coverage 1 with reads
    of length 100, single-end and under [force_coverage], gets
    [int(1.5) + 1 = 2] passes of the read loop, where the ceiling plus 1
    is 3; the scheduler run on the span [0, 150) shows the two passes.
    Nor is the budget the floor of the exact quotient plus 1: at
    coverage 4.6 a window of 12500 bases gets 575 passes, the product
    [12500 * 4.6] being just below 57500 in doubles, where the exact
    quotient is 575 and its floor plus 1 is 576. *)
Lemma read_budget_is_not_ceiling_plus_one :
  (reads_to_sample false true 150 1 (Some 1%Q) 100 150 = Ok 2 /\
   budget_per_spec false true 150 1 1 100 = 3 /\
   (let r := span_walk (Demo.single_end [] 100 false ∅) 10 (0, 150)
                       (contig_start (container := list variant) 0%nat) in
    fst r = Some (Ok tt) /\
    events (snd r) = [Inserted 0 150 [] []; SampledReads 0 150 2] /\
    world (snd r) = 2%nat)) /\
  (reads_to_sample false true 12500 (46 # 10) (Some 1%Q) 100 12500 = Ok 575 /\
   Qfloor (inject_Z 12500 * (46 # 10) / inject_Z 100) + 1 = 576 /\
   budget_per_spec false true 12500 (46 # 10) 1 100 = 576).
Proof. vm_compute. repeat split. Qed.

(** C4 (amended): a window that reaches read sampling (it is planned,
    not skipped, its container passes the CIGAR check, and reads are
    asked for) gets [int(x) + 1] passes of the read loop, where [x] is
    the value of [window_span * coverage * m / (k * read_len)] as the
    doubles give it from left to right, with [k = 2] for paired-end and
    [k = 1] for single-end reads, [m] the average [init_coverage]
    returned, and no factor [m] under [force_coverage].  The pass logs
    that number, and the state of the collaborators it leaves is that
    of so many calls of the read loop's body, flushed.  If the doubles
    raise instead, so does the pass. *)
Theorem sampled_window_gets_the_double_budget
    {container io : Type} `{!Collaborators container io}
    (sch : schedule) (final_position pitch : Z)
    (s : loop_state container io) (p : window_plan)
    (applied : list variant) (c2 c3 : container) (w2 w3 : io) (avg : Q) :
  plan_window sch final_position pitch s = Ok p ->
  window_skipped sch s p = false ->
  check_cigars (sc_all_cigar (window_container (enter_window s p) p)) = Ok tt ->
  s_only_vcf sch = false ->
  sc_random_mutations
    (sc_insert_mutations (window_container (enter_window s p) p)
                         (given_variants (enter_window s p) p)) (world s)
  = (applied, c2, w2) ->
  sc_init_coverage c2 (fst (window_coverage sch s p)) w2 = (avg, c3, w3) ->
  let result := window_step sch final_position pitch s in
  match budget_in_doubles (s_paired_end sch) (s_force_coverage sch)
                          (p_end p - start s) (s_coverage sch) avg (s_read_len sch) with
  | Ok n =>
      fst result = Ok (if p_is_last_time p then Break else Continue) /\
      events (snd result)
      = events s ++ [Inserted (start s) (p_end p)
                              (vars_from_prev_overlap s ++ p_vars_in_window p) applied;
                     SampledReads (start s) (p_end p) n] /\
      world (snd result)
      = flush_buffers (if p_is_last_time p then p_end p + 1 else p_next_start p)
                      (Nat.iter (Z.to_nat n) (sample_one_read c3 (start s)) w3)
  | SysExit code => fst result = SysExit code
  | Raised x => fst result = Raised x
  end.
Proof.
  intros Hp Hskip Hcigar Honly Hmut Hcov result. subst result.
  assert (Hsum : Py.Qlt_bool (Py.sum (fst (window_coverage sch s p))) low_cov_thresh
                 = false).
  { unfold window_skipped in Hskip.
    destruct (window_coverage sch s p) as [cov hits]. simpl.
    unfold skip_this_window in Hskip.
    apply orb_false_elim in Hskip as [Hskip _].
    now apply orb_false_elim in Hskip as [_ Hskip]. }
  assert (Hreach : Qle_bool low_cov_thresh (Py.sum (fst (window_coverage sch s p)))
                   = true).
  { unfold Py.Qlt_bool in Hsum. now apply negb_false_iff in Hsum. }
  unfold window_step. rewrite Hp, Hskip. unfold sample_window.
  rewrite Hcigar. cbv zeta.
  change (world (enter_window s p)) with (world s).
  rewrite Hmut, Hreach, Hcov, Honly.
  change (start (enter_window s p)) with (start s).
  rewrite (reads_to_sample_in_doubles _ _ _ _ avg _ _ Hsum).
  destruct (budget_in_doubles _ _ _ _ _ _) as [n|code|x]; [|reflexivity..].
  unfold advance, sample_reads, given_variants.
  destruct (p_is_last_time p); simpl; rewrite <- List.app_assoc; repeat split.
Qed.

Lemma sampled_window_gets_the_double_budget_witness :
  let sch := {| s_paired_end := false; s_force_coverage := false; s_only_vcf := false;
                s_off_target_discard := false; s_read_len := 100;
                s_coverage := 46 # 10; s_off_target_scalar := 0; s_chrom := "chr1";
                s_target_regions := ∅; s_valid_variants := [];
                s_target_size := 10000; s_overlap := 100;
                s_overlap_min_window_size := 110 |} in
  let s := first_window 0 12500 12500 (contig_start (container := list variant) 0%nat) in
  let result := window_step sch 12500 12500 s in
  fst result = Ok Break /\
  events (snd result) = [Inserted 0 12500 [] []; SampledReads 0 12500 575] /\
  world (snd result) = 575%nat.
Proof.
  intros sch s.
  pose proof (sampled_window_gets_the_double_budget sch 12500 12500 s
                {| p_vars_in_window := []; p_v_index := 0%nat; p_end := 12500;
                   p_next_start := 12400; p_next_end := 12500;
                   p_is_last_time := true |}
                [] [] [] 0%nat 0%nat 1%Q) as H.
  vm_compute in H. vm_compute.
  apply H; reflexivity.
Defined.

(** C5: after a sampled window [[start, end)], the variants carried
    into the next window are exactly the variants [random_mutations]
    reported as applied whose position is at least [end - overlap - 1];
    what was given to the container for the window was the list carried
    from the previous window followed by the VCF variants of the
    window; and apart from that list (and the container) no variant
    state reaches a later pass: the tally of variants written so far
    does not influence it, and the cursor into the list of VCF variants
    stays where it was, that list being empty in [main]. *)
Theorem carry_is_applied_variants_near_the_end
    {container io : Type} `{!Collaborators container io}
    (sch : schedule) (final_position pitch : Z)
    (s s' : loop_state container io) (p : window_plan) (ctl : control) :
  plan_window sch final_position pitch s = Ok p ->
  window_skipped sch s p = false ->
  window_step sch final_position pitch s = (Ok ctl, s') ->
  let applied := applied_variants (enter_window s p) p in
  In (Inserted (start s) (p_end p)
               (vars_from_prev_overlap s ++ p_vars_in_window p) applied) (events s') /\
  vars_from_prev_overlap s'
    = List.filter (fun v => p_end p - s_overlap sch - 1 <=? var_pos v) applied /\
  (forall v, In v (vars_from_prev_overlap s') <->
             In v applied /\ var_pos v >= p_end p - s_overlap sch - 1) /\
  (forall s2, same_loop_vars s s2 ->
     fst (window_step sch final_position pitch s2) = Ok ctl /\
     same_loop_vars s' (snd (window_step sch final_position pitch s2))) /\
  (s_valid_variants sch = [] ->
     p_vars_in_window p = [] /\ v_index_from_prev s' = v_index_from_prev s).
Proof.
  intros Hp Hskip Hstep applied.
  assert (Hsw : sample_window sch final_position (enter_window s p) p
                              (fst (window_coverage sch s p)) = (Ok ctl, s')).
  { unfold window_step in Hstep. now rewrite Hp, Hskip in Hstep. }
  destruct (sample_window_carry sch final_position _ _ _ _ _ Hsw) as (Hin & Hcarry & Hidx).
  split; [exact Hin | split; [exact Hcarry | split; [|split]]].
  - intros v. rewrite Hcarry, List.filter_In, Z.leb_le. fold applied.
    split; intros [Hv Hpos]; (split; [exact Hv | lia]).
  - intros s2 Hsame.
    destruct (window_step_frame sch final_position pitch s s2 Hsame) as [Hf Hs].
    rewrite Hstep in Hf, Hs. simpl in Hf, Hs. now split.
  - intros Hvalid.
    apply plan_window_spec in Hp as (end1 & _ & Hcollect & _).
    rewrite Hvalid in Hcollect. unfold collect_vars_in_window in Hcollect.
    rewrite List.skipn_nil in Hcollect. simpl in Hcollect.
    injection Hcollect as Hviw Hvi. split; [exact Hviw | congruence].
Qed.

Lemma carry_is_applied_variants_near_the_end_witness :
  let sch := Demo.single_end [] 10 false ∅ in
  let s := {| start := 0; end_ := 60; vars_from_prev_overlap := [Demo.snv 7; Demo.snv 55];
              v_index_from_prev := 0%nat; is_last_time := false;
              sequences := None; all_variants_out := [];
              world := 0%nat; events := [] |} in
  exists s',
    window_step sch 1000 60 s = (Ok Continue, s') /\
    events s' = [Inserted 0 60 [Demo.snv 7; Demo.snv 55] [Demo.snv 7; Demo.snv 55];
                 SampledReads 0 60 7] /\
    vars_from_prev_overlap s' = [Demo.snv 55].
Proof.
  intros sch s. exists (snd (window_step sch 1000 60 s)).
  split; [vm_compute; reflexivity|]. split; [vm_compute; reflexivity|].
  destruct (carry_is_applied_variants_near_the_end (container := list variant) sch 1000 60 s
              (snd (window_step sch 1000 60 s))
              {| p_vars_in_window := []; p_v_index := 0%nat; p_end := 60;
                 p_next_start := 50; p_next_end := 110; p_is_last_time := false |}
              Continue) as (_ & Hcarry & _).
  - vm_compute. reflexivity.
  - vm_compute. reflexivity.
  - vm_compute. reflexivity.
  - rewrite Hcarry. vm_compute. reflexivity.
Defined.

(** C2: the window loop reads its VCF variants from
    [valid_variants_from_vcf], which [main] leaves empty, so no window
    ever collects one, whatever the pruned data frame holds.  On a
    reference of 2500 repeats of ACGT with the record chr1:5001 A>G,
    the record passes the pruning, 5001 lies strictly inside the only
    window [[0, 10000)], and the container of that window is given no
    variant at all. *)
Theorem vcf_variants_are_never_collected :
  (forall df start end_ overlap idx,
     collect_vars_in_window (valid_variants_from_vcf df) start end_ overlap idx
     = ([], idx)) /\
  (let df := [(0%nat, Examples.snp_5001)] in
   prune_input_variants Examples.acgt_reference ["chr1"] df
   = Ok (df, [ {| rep_chrom := "chr1"; rep_found := 1; rep_skipped := None |} ]) /\
   Examples.plain_schedule df = Ok Examples.chr1_schedule /\
   let r := span_walk Examples.chr1_schedule 10 (0, 10000)
                      (contig_start (container := list variant) 0%nat) in
   fst r = Some (Ok tt) /\
   events (snd r) = [Inserted 0 10000 [] []; SampledReads 0 10000 1001]).
Proof.
  split.
  - intros df start end_ overlap idx. unfold collect_vars_in_window, valid_variants_from_vcf.
    now rewrite List.skipn_nil.
  - vm_compute. repeat split.
Qed.

(** ** Pruning of the VCF records *)

Lemma filter_filter_and {A} (f g : A -> bool) (l : list A) :
  List.filter f (List.filter g l) = List.filter (fun x => g x && f x) l.
Proof.
  induction l as [|x l IH]; simpl; [reflexivity|].
  destruct (g x); simpl; [destruct (f x)|]; now rewrite IH.
Qed.

Lemma filter_all {A} (f : A -> bool) (l : list A) :
  (forall x, In x l -> f x = true) -> List.filter f l = l.
Proof.
  induction l as [|x l IH]; simpl; intros Hall; [reflexivity|].
  rewrite (Hall x (or_introl eq_refl)). f_equal. apply IH. auto.
Qed.

Lemma label_determines_row (df : data_frame) (a b : nat * vcf_row) :
  List.NoDup (List.map fst df) -> In a df -> In b df -> fst a = fst b -> a = b.
Proof.
  induction df as [|x df IH]; simpl; [contradiction|].
  intros Hnd Ha Hb Hab. apply List.NoDup_cons_iff in Hnd as [Hx Hnd].
  destruct Ha as [<-|Ha], Hb as [<-|Hb]; auto.
  - exfalso. apply Hx. rewrite Hab. now apply List.in_map.
  - exfalso. apply Hx. rewrite <- Hab. now apply List.in_map.
Qed.

Lemma nodup_labels_filter (f : nat * vcf_row -> bool) (df : data_frame) :
  List.NoDup (List.map fst df) -> List.NoDup (List.map fst (List.filter f df)).
Proof.
  induction df as [|x df IH]; simpl; intros Hnd; [constructor|].
  apply List.NoDup_cons_iff in Hnd as [Hx Hnd].
  destruct (f x); simpl; [|now apply IH].
  apply List.NoDup_cons_iff. split; [|now apply IH].
  intros Hin. apply Hx. apply List.in_map_iff in Hin as (y & Hy & Hyin).
  apply List.filter_In in Hyin as [Hyin _]. rewrite <- Hy. now apply List.in_map.
Qed.

Lemma prune_rows_spec (ref_seq : string) (rows : data_frame) :
  forall (n : skip_counts) (df : data_frame),
    prune_rows ref_seq rows n df
    = (fold_left (fun acc ir => bump (check_row ref_seq (snd ir)) acc) rows n,
       List.filter (fun ir => negb (existsb (Nat.eqb (fst ir)) (bad_labels ref_seq rows))) df).
Proof.
  induction rows as [|[index row] rows IH]; intros n df; simpl.
  - f_equal. symmetry. now apply filter_all.
  - unfold bad_labels. simpl.
    destruct (check_row ref_seq row) eqn:Hv; simpl; rewrite IH; f_equal;
      try (destruct n as [[n0 n1] n2]; reflexivity);
      unfold df_drop; rewrite filter_filter_and; apply List.filter_ext;
      intros ir; now rewrite negb_orb.
Qed.

Lemma bump_counts (ref_seq : string) (rows : data_frame) :
  forall n0 n1 n2,
    fold_left (fun acc ir => bump (check_row ref_seq (snd ir)) acc) rows (n0, n1, n2)
    = (n0 + tally_verdict ref_seq RefMismatch rows,
       n1 + tally_verdict ref_seq InNRegion rows,
       n2 + tally_verdict ref_seq BadAlt rows).
Proof.
  unfold tally_verdict.
  induction rows as [|[index row] rows IH]; intros n0 n1 n2; simpl.
  - repeat (apply pair_equal_spec; split); lia.
  - cbn [fold_left List.filter snd].
    destruct (check_row ref_seq row); cbn [bump same_verdict List.length];
      rewrite IH, ?Nat2Z.inj_succ; repeat (apply pair_equal_spec; split); lia.
Qed.

Lemma bad_labels_exact (ref_seq chrom : string) (df : data_frame) (ir : nat * vcf_row) :
  List.NoDup (List.map fst df) -> In ir df ->
  existsb (Nat.eqb (fst ir)) (bad_labels ref_seq (df_on chrom df))
  = String.eqb (row_CHROM (snd ir)) chrom && negb (is_valid (check_row ref_seq (snd ir))).
Proof.
  intros Hnd Hin. apply eq_true_iff_eq.
  rewrite existsb_exists, andb_true_iff. unfold bad_labels, df_on. split.
  - intros (l & Hl & Heq). apply Nat.eqb_eq in Heq.
    apply List.in_map_iff in Hl as (ir' & Hfst & Hin').
    apply List.filter_In in Hin' as [Hin' Hbad].
    apply List.filter_In in Hin' as [Hin' Hc].
    assert (ir' = ir) as -> by (eapply label_determines_row; eauto; congruence).
    auto.
  - intros [Hc Hbad]. exists (fst ir). split; [|apply Nat.eqb_refl].
    apply List.in_map. apply List.filter_In. split; [|exact Hbad].
    apply List.filter_In. auto.
Qed.

Lemma prune_contig_spec (ref_seq chrom : string) (df : data_frame) :
  List.NoDup (List.map fst df) ->
  prune_rows ref_seq (df_on chrom df) (0, 0, 0) df
  = (contig_counts ref_seq chrom df,
     List.filter (fun ir => negb (String.eqb (row_CHROM (snd ir)) chrom
                                  && negb (is_valid (check_row ref_seq (snd ir))))) df).
Proof.
  intros Hnd. rewrite prune_rows_spec, bump_counts. f_equal.
  apply List.filter_ext_in. intros ir Hin. f_equal. now apply bad_labels_exact.
Qed.

Lemma df_on_filter_other (chrom : string) (g : nat * vcf_row -> bool) (df : data_frame) :
  (forall ir, In ir df -> row_CHROM (snd ir) = chrom -> g ir = true) ->
  df_on chrom (List.filter g df) = df_on chrom df.
Proof.
  intros Hg. unfold df_on. rewrite filter_filter_and.
  apply List.filter_ext_in. intros ir Hin.
  destruct (String.eqb_spec (row_CHROM (snd ir)) chrom) as [Heq|Hne].
  - now rewrite (Hg ir Hin Heq).
  - apply andb_false_r.
Qed.

Lemma existsb_eqb_in (c : string) (l : list string) :
  existsb (String.eqb c) l = true <-> In c l.
Proof.
  rewrite existsb_exists. split.
  - intros (x & Hx & Heq). apply String.eqb_eq in Heq. now subst.
  - intros Hin. exists c. split; [exact Hin | apply String.eqb_refl].
Qed.

Lemma ref_lookup_some (ref_index : reference) (c ref_seq : string) :
  ref_lookup ref_index c = Some ref_seq -> In c (List.map fst ref_index).
Proof.
  unfold ref_lookup. destruct (List.find _ ref_index) as [kv|] eqn:Hf; [|discriminate].
  intros _. apply List.find_some in Hf as [Hin Heq].
  apply String.eqb_eq in Heq. subst c. now apply List.in_map.
Qed.

Lemma ref_lookup_in (ref_index : reference) (c : string) :
  In c (List.map fst ref_index) -> exists ref_seq, ref_lookup ref_index c = Some ref_seq.
Proof.
  intros Hin. unfold ref_lookup.
  destruct (List.find _ ref_index) as [kv|] eqn:Hf; [now eexists|].
  apply List.in_map_iff in Hin as (kv & Hk & Hin).
  pose proof (List.find_none _ _ Hf kv Hin) as Hno. simpl in Hno.
  rewrite Hk, String.eqb_refl in Hno. discriminate.
Qed.

(** The loop over the contigs: what is left of the frame, and what is
    reported. *)
Lemma prune_contigs_spec (ref_index : reference) (order : list string) :
  forall (chroms : list string) (df df' : data_frame) (reports : list contig_report),
    List.NoDup (List.map fst df) -> List.NoDup chroms ->
    (forall c, In c chroms -> exists ref_seq, ref_lookup ref_index c = Some ref_seq) ->
    prune_contigs ref_index order chroms df = Ok (df', reports) ->
    df' = List.filter (fun ir => negb (listed chroms order ir && row_fails ref_index ir)) df /\
    List.map rep_chrom reports = List.filter (fun c => existsb (String.eqb c) order) chroms /\
    Forall (fun rep => exists ref_seq,
                ref_lookup ref_index (rep_chrom rep) = Some ref_seq /\
                rep_skipped rep = shown (contig_counts ref_seq (rep_chrom rep) df)) reports.
Proof.
  induction chroms as [|c more IH]; intros df df' reports Hnd Hch Hlook; simpl.
  - intros [= <- <-]. split; [|split; [reflexivity | constructor]].
    symmetry. apply filter_all. intros ir _. reflexivity.
  - apply List.NoDup_cons_iff in Hch as [Hc Hmore].
    assert (Hlook' : forall c', In c' more ->
                       exists ref_seq, ref_lookup ref_index c' = Some ref_seq)
      by (intros c' Hin; apply Hlook; now right).
    destruct (existsb (String.eqb c) order) eqn:Hord.
    + destruct (Hlook c (or_introl eq_refl)) as [ref_seq Hseq]. rewrite Hseq.
      rewrite (prune_contig_spec ref_seq c df Hnd).
      set (g := fun ir : nat * vcf_row =>
                  negb (String.eqb (row_CHROM (snd ir)) c
                        && negb (is_valid (check_row ref_seq (snd ir))))).
      destruct (prune_contigs ref_index order more (List.filter g df))
        as [[df2 reps]|code|x] eqn:Hrest; simpl; try discriminate.
      intros [= <- <-].
      destruct (IH _ _ _ (nodup_labels_filter g df Hnd) Hmore Hlook' Hrest)
        as (Hdf & Hmap & Hreps).
      split; [|split].
      * rewrite Hdf, filter_filter_and. apply List.filter_ext. intros ir.
        unfold g, listed, row_fails. simpl.
        destruct (String.eqb_spec (row_CHROM (snd ir)) c) as [Heq|Hne]; simpl.
        -- rewrite Heq, Hseq, Hord.
           assert (Hno : existsb (String.eqb c) more = false).
           { destruct (existsb (String.eqb c) more) eqn:He; [|reflexivity].
             apply existsb_eqb_in in He. contradiction. }
           rewrite Hno. simpl. now rewrite andb_true_r.
        -- reflexivity.
      * simpl. now rewrite Hmap.
      * constructor.
        -- exists ref_seq. simpl. split; [exact Hseq | reflexivity].
        -- rewrite List.Forall_forall in Hreps |- *. intros rep Hin.
           destruct (Hreps rep Hin) as (seq' & Hseq' & Hshown).
           exists seq'. split; [exact Hseq'|]. rewrite Hshown.
           assert (Hin' : In (rep_chrom rep) more).
           { assert (Hm : In (rep_chrom rep) (List.map rep_chrom reps))
               by now apply List.in_map.
             rewrite Hmap in Hm. now apply List.filter_In in Hm as [Hm _]. }
           unfold contig_counts, count_verdict.
           rewrite (df_on_filter_other (rep_chrom rep) g df); [reflexivity|].
           intros ir _ Heq. unfold g.
           destruct (String.eqb_spec (row_CHROM (snd ir)) c) as [Hc'|_]; [|reflexivity].
           exfalso. apply Hc. congruence.
    + intros Hrest.
      destruct (IH _ _ _ Hnd Hmore Hlook' Hrest) as (Hdf & Hmap & Hreps).
      split; [|split; [exact Hmap | exact Hreps]].
      rewrite Hdf. apply List.filter_ext. intros ir. unfold listed. simpl.
      destruct (String.eqb_spec (row_CHROM (snd ir)) c) as [Heq|Hne]; simpl;
        [|reflexivity].
      rewrite Heq, Hord, !andb_false_r. reflexivity.
Qed.

(** Lines 318-323 leave the records of every contig of the reference. *)
Lemma drop_unknown_chroms_spec (refs : list string) :
  forall (items : list string) (printed : bool) (df : data_frame),
  exists g, drop_unknown_chroms refs items printed df = List.filter g df /\
            forall ir, In (row_CHROM (snd ir)) refs -> g ir = true.
Proof.
  induction items as [|item more IH]; intros printed df; simpl.
  - exists (fun _ => true). split; [|reflexivity].
    symmetry. now apply filter_all.
  - destruct (negb (existsb (String.eqb item) refs) && negb printed) eqn:Hcond.
    + destruct (IH true (df_off item df)) as (g & Hg & Hrefs).
      exists (fun ir => negb (String.eqb (row_CHROM (snd ir)) item) && g ir).
      split.
      * rewrite Hg. unfold df_off. apply filter_filter_and.
      * intros ir Hin. rewrite (Hrefs ir Hin), andb_true_r.
        apply andb_true_iff in Hcond as [Hitem _]. apply negb_true_iff in Hitem.
        destruct (String.eqb_spec (row_CHROM (snd ir)) item) as [Heq|]; [|reflexivity].
        exfalso. rewrite <- Heq in Hitem.
        apply existsb_eqb_in in Hin. congruence.
    + apply IH.
Qed.

Lemma verdicts_partition (ref_seq : string) (rows : data_frame) :
  Z.of_nat (List.length rows)
  = tally_verdict ref_seq Valid rows + tally_verdict ref_seq RefMismatch rows
    + tally_verdict ref_seq InNRegion rows + tally_verdict ref_seq BadAlt rows.
Proof.
  unfold tally_verdict. induction rows as [|[index row] rows IH]; [reflexivity|].
  cbn [List.filter List.length snd].
  destruct (check_row ref_seq row); cbn [same_verdict List.length];
    rewrite ?Nat2Z.inj_succ; lia.
Qed.

(** C7: of the records on contigs of the reference, exactly those that
    pass the three tests stay in the data frame: a record whose REF
    allele differs from the reference under it, whose REF lies on an N,
    or one of whose alt alleles has a character outside A, C, G, T is
    dropped, and nothing else is.  For every contig that has records,
    the report gives the number of its records that failed in each of
    the three buckets (when one of them is not 0), and the three
    numbers add up to the number of records dropped for the contig. *)
Theorem pruning_drops_and_counts
    (ref_index : reference) (order : list string) (df df' : data_frame)
    (reports : list contig_report) :
  List.NoDup (List.map fst ref_index) ->
  List.NoDup (List.map fst df) ->
  (forall ir, In ir df -> In (row_CHROM (snd ir)) order) ->
  prune_input_variants ref_index order df = Ok (df', reports) ->
  (forall ir ref_seq,
     In ir df -> ref_lookup ref_index (row_CHROM (snd ir)) = Some ref_seq ->
     (In ir df' <-> check_row ref_seq (snd ir) = Valid)) /\
  (forall ir, In ir df' -> In ir df) /\
  List.map rep_chrom reports
    = List.filter (fun c => existsb (String.eqb c) order) (List.map fst ref_index) /\
  Forall (fun rep => exists ref_seq,
            ref_lookup ref_index (rep_chrom rep) = Some ref_seq /\
            rep_skipped rep = shown (contig_counts ref_seq (rep_chrom rep) df) /\
            count_verdict ref_seq (rep_chrom rep) RefMismatch df
            + count_verdict ref_seq (rep_chrom rep) InNRegion df
            + count_verdict ref_seq (rep_chrom rep) BadAlt df
            = Z.of_nat (List.length (df_on (rep_chrom rep) df))
              - Z.of_nat (List.length (df_on (rep_chrom rep) df'))) reports.
Proof.
  intros Hrefs Hnd Hord. unfold prune_input_variants.
  destruct (drop_unknown_chroms_spec (List.map fst ref_index) order false df)
    as (g & Hg & Hgrefs).
  rewrite Hg. intros Hprune.
  apply prune_contigs_spec in Hprune as (Hdf & Hmap & Hreps);
    [|now apply nodup_labels_filter | exact Hrefs | apply ref_lookup_in].
  assert (Hkeep : forall ir ref_seq,
            In ir df -> ref_lookup ref_index (row_CHROM (snd ir)) = Some ref_seq ->
            (g ir && negb (listed (List.map fst ref_index) order ir
                           && row_fails ref_index ir))
            = is_valid (check_row ref_seq (snd ir))).
  { intros ir ref_seq Hin Hseq.
    pose proof (ref_lookup_some _ _ _ Hseq) as Hc.
    rewrite (Hgrefs ir Hc). unfold listed, row_fails. rewrite Hseq.
    rewrite (proj2 (existsb_eqb_in _ _) Hc), (proj2 (existsb_eqb_in _ _) (Hord ir Hin)).
    simpl. apply negb_involutive. }
  split; [|split; [|split]].
  - intros ir ref_seq Hin Hseq.
    rewrite Hdf, filter_filter_and, List.filter_In, (Hkeep ir ref_seq Hin Hseq).
    split.
    + intros [_ Hv]. now destruct (check_row ref_seq (snd ir)).
    + intros ->. now split.
  - intros ir Hin. rewrite Hdf in Hin.
    apply List.filter_In in Hin as [Hin _]. now apply List.filter_In in Hin as [Hin _].
  - exact Hmap.
  - rewrite List.Forall_forall in Hreps |- *. intros rep Hin.
    destruct (Hreps rep Hin) as (ref_seq & Hseq & Hshown).
    exists ref_seq. split; [exact Hseq|].
    assert (Hc : In (rep_chrom rep) (List.map fst ref_index)
                 /\ existsb (String.eqb (rep_chrom rep)) order = true).
    { assert (Hm : In (rep_chrom rep) (List.map rep_chrom reports))
        by now apply List.in_map.
      rewrite Hmap in Hm. now apply List.filter_In in Hm. }
    destruct Hc as [Hc Hcord].
    assert (Hon : df_on (rep_chrom rep) (List.filter g df) = df_on (rep_chrom rep) df).
    { apply df_on_filter_other. intros ir _ Heq. apply Hgrefs. now rewrite Heq. }
    split.
    + rewrite Hshown. unfold contig_counts, count_verdict. now rewrite Hon.
    + pose proof (verdicts_partition ref_seq (df_on (rep_chrom rep) df)) as Hpart.
      assert (Hleft : df_on (rep_chrom rep) df'
                      = List.filter (fun ir => same_verdict (check_row ref_seq (snd ir)) Valid)
                                    (df_on (rep_chrom rep) df)).
      { rewrite Hdf. unfold df_on. rewrite !filter_filter_and.
        apply List.filter_ext_in. intros ir Hir.
        destruct (String.eqb_spec (row_CHROM (snd ir)) (rep_chrom rep)) as [Heq|Hne].
        - rewrite andb_true_r. simpl.
          rewrite (Hkeep ir ref_seq Hir); [|now rewrite Heq].
          now destruct (check_row ref_seq (snd ir)).
        - now rewrite !andb_false_r. }
      rewrite Hleft. unfold count_verdict. unfold tally_verdict at 1 in Hpart. lia.
Qed.

Lemma pruning_drops_and_counts_witness :
  prune_input_variants Examples.small_reference ["c2"; "c1"] Examples.small_vcf
  = Ok ([ (0%nat, {| row_CHROM := "c1"; row_POS := 3; row_REF := "GT";
                     row_alt_split := ["G"] |});
          (2%nat, {| row_CHROM := "c2"; row_POS := 1; row_REF := "T";
                     row_alt_split := ["A"; "C"] |}) ],
        [ {| rep_chrom := "c1"; rep_found := 3; rep_skipped := Some (1, 1, 1) |};
          {| rep_chrom := "c2"; rep_found := 2; rep_skipped := Some (1, 0, 0) |} ]) /\
  (In (4%nat, {| row_CHROM := "c1"; row_POS := 6; row_REF := "A";
                 row_alt_split := ["G"; "<DEL>"] |})
      [ (0%nat, {| row_CHROM := "c1"; row_POS := 3; row_REF := "GT";
                   row_alt_split := ["G"] |});
        (2%nat, {| row_CHROM := "c2"; row_POS := 1; row_REF := "T";
                   row_alt_split := ["A"; "C"] |}) ]
   <-> check_row "ACGTNACGT" {| row_CHROM := "c1"; row_POS := 6; row_REF := "A";
                                row_alt_split := ["G"; "<DEL>"] |} = Valid).
Proof.
  assert (Hrun : prune_input_variants Examples.small_reference ["c2"; "c1"] Examples.small_vcf
                 = Ok ([ (0%nat, {| row_CHROM := "c1"; row_POS := 3; row_REF := "GT";
                                    row_alt_split := ["G"] |});
                         (2%nat, {| row_CHROM := "c2"; row_POS := 1; row_REF := "T";
                                    row_alt_split := ["A"; "C"] |}) ],
                       [ {| rep_chrom := "c1"; rep_found := 3; rep_skipped := Some (1, 1, 1) |};
                         {| rep_chrom := "c2"; rep_found := 2;
                            rep_skipped := Some (1, 0, 0) |} ]))
    by (vm_compute; reflexivity).
  split; [exact Hrun|].
  assert (Hrefs : List.NoDup (List.map fst Examples.small_reference)).
  { simpl. repeat constructor; simpl; intuition discriminate. }
  assert (Hnd : List.NoDup (List.map fst Examples.small_vcf)).
  { simpl. repeat constructor; simpl; intuition discriminate. }
  assert (Hord : forall ir, In ir Examples.small_vcf -> In (row_CHROM (snd ir)) ["c2"; "c1"]).
  { intros ir Hin. simpl in Hin.
    repeat (destruct Hin as [<-|Hin]; [simpl; auto|]). contradiction. }
  destruct (pruning_drops_and_counts _ _ _ _ _ Hrefs Hnd Hord Hrun) as (Hkept & _).
  apply (Hkept (4%nat, {| row_CHROM := "c1"; row_POS := 6; row_REF := "A";
                          row_alt_split := ["G"; "<DEL>"] |}) "ACGTNACGT").
  - simpl. auto 10.
  - reflexivity.
Defined.

(** ** Two runs under one seed *)

Lemma prune_contigs_returns (ref_index : reference) (order : list string) :
  forall (chroms : list string) (df : data_frame),
    (forall c, In c chroms -> exists ref_seq, ref_lookup ref_index c = Some ref_seq) ->
    exists r, prune_contigs ref_index order chroms df = Ok r.
Proof.
  induction chroms as [|chrom more IH]; intros df Hkeys; cbn [prune_contigs].
  - now eexists.
  - assert (Hmore : forall c, In c more ->
                      exists ref_seq, ref_lookup ref_index c = Some ref_seq)
      by (intros c Hc; apply Hkeys; now right).
    destruct (existsb (String.eqb chrom) order); [|now apply IH].
    destruct (Hkeys chrom (or_introl eq_refl)) as [ref_seq ->].
    destruct (prune_rows ref_seq (df_on chrom df) (0, 0, 0) df) as [n_skipped df'].
    destruct (IH df' Hmore) as [[df'' reports] ->]. simpl. now eexists.
Qed.

Section RunFacts.
Context {rng files container : Type} `{!Generator rng}
        `{!Collaborators container (process rng files)}
        `{!Writer (process rng files)}.

(** The pruning of lines 316-357 ends well in whatever order the
    process iterates the contigs of the VCF. *)
Lemma pruned_returns (i : inputs) (p : startup rng files) :
  exists r, pruned i p = Ok r.
Proof.
  unfold pruned. destruct (in_vcf i) as [df|]; [|now eexists].
  unfold prune_input_variants. apply prune_contigs_returns.
  intros c Hc. now apply ref_lookup_in.
Qed.

(** The schedule of a contig holds nothing of the data frame: the list
    the windows read is the empty list of line 427. *)
Lemma schedule_ignores_the_data_frame (cfg : config) (chrom : string)
    (targets : gmap string (list Z)) (fragment_size : Z) (fraglen_values : list Z)
    (df1 df2 : data_frame) :
  schedule_of cfg chrom targets fragment_size fraglen_values df1
  = schedule_of cfg chrom targets fragment_size fraglen_values df2.
Proof. reflexivity. Qed.

Lemma walk_contigs_ignores_the_data_frame (cfg : config) (i : inputs)
    (df1 df2 : data_frame) (chroms : list string) :
  forall w : process rng files,
    walk_contigs cfg i df1 chroms w = walk_contigs cfg i df2 chroms w.
Proof.
  induction chroms as [|chrom more IH]; intros w; cbn [walk_contigs]; [reflexivity|].
  rewrite (schedule_ignores_the_data_frame cfg chrom _ _ _ df1 df2).
  destruct (schedule_of _ _ _ _ _ df2) as [sch|c|x]; try reflexivity.
  destruct (contig_walk sch _ _ _) as [r s].
  destruct r as [[[]|c|x]|]; try reflexivity. now rewrite IH.
Qed.

End RunFacts.

(** C3, as stated, fails: [--rng -1] is a seed the user can supply, and
    line 183 takes it for "no seed given" and draws the seed from the
    generator as the process found it.  Two processes that differ in
    nothing but that generator then seed it differently (8 and 9
    here), and reads that depend on the generator come out different. *)
Lemma rng_minus_one_is_not_a_seed :
  let a := Examples.with_rng (-1) Examples.plain_args in
  let e := Examples.files_fine 0 in
  let p1 := DemoRun.started 7 Examples.file_order in
  let p2 := DemoRun.started 8 Examples.file_order in
  outside (at_start p1) = outside (at_start p2) /\
  (exists c1 c2, validate a (seen_by e (at_start p1)) = Ok c1 /\
                 validate a (seen_by e (at_start p2)) = Ok c2 /\
                 rng_seed c1 = 8 /\ rng_seed c2 = 9) /\
  written_by (main_run a e Examples.one_contig_inputs p1)
  <> written_by (main_run a e Examples.one_contig_inputs p2).
Proof.
  intros a e p1 p2. split; [reflexivity|]. split.
  - do 2 eexists. repeat split.
  - intros Heq. vm_compute in Heq. discriminate.
Qed.

(** C3 (amended): with a seed other than -1 on the command line, two
    runs of the same command on the same files leave the same outputs,
    in whatever state the generator of either process was when it
    started and in whatever order either iterates a set: the state a
    run ends in, the windows it sampled with their variants and read
    counts, and the ledger of every contig agree.  Line 185 puts the
    generator into the state the seed fixes before anything draws from
    it; the order in which line 318 meets the contigs of the VCF
    changes the data frame and what is printed, and the windows read
    neither. *)
Theorem seeded_runs_agree {rng files container : Type} `{!Generator rng}
    `{!Collaborators container (process rng files)} `{!Writer (process rng files)}
    (a : args) (e : environment) (i : inputs) (p1 p2 : startup rng files) :
  arg_rng a <> -1 ->
  outside (at_start p1) = outside (at_start p2) ->
  written_by (main_run a e i p1) = written_by (main_run a e i p2).
Proof.
  intros Hrng Hout. unfold main_run.
  rewrite (validate_ignores_unseeded_generator a (seen_by e (at_start p1))
             (seen_by e (at_start p2)) Hrng) by (repeat split).
  destruct (validate a (seen_by e (at_start p2))) as [cfg|c|x]; try reflexivity.
  assert (Hw : reseeded (rng_seed cfg) (at_start p1)
               = reseeded (rng_seed cfg) (at_start p2))
    by (unfold reseeded; now rewrite Hout).
  rewrite Hw.
  destruct (pruned_returns i p1) as [[df1 reports1] ->].
  destruct (pruned_returns i p2) as [[df2 reports2] ->].
  simpl. f_equal. f_equal. apply walk_contigs_ignores_the_data_frame.
Qed.

Lemma seeded_runs_agree_witness :
  let e := Examples.files_fine 0 in
  let p1 := DemoRun.started 7 Examples.file_order in
  let p2 := DemoRun.started 8 Examples.other_order in
  let r1 := main_run Examples.plain_args e Examples.one_contig_inputs p1 in
  let r2 := main_run Examples.plain_args e Examples.one_contig_inputs p2 in
  r1 <> r2 /\ written_by r1 = written_by r2.
Proof.
  intros e p1 p2 r1 r2. split.
  - intros Heq. vm_compute in Heq. discriminate.
  - apply (seeded_runs_agree Examples.plain_args e Examples.one_contig_inputs p1 p2).
    + simpl. lia.
    + reflexivity.
Defined.

(** ** The window loop ends *)

Section Termination.
Context {container io : Type} `{!Collaborators container io}.
Variable sch : schedule.
Variable final_position : Z.
Variable pitch : Z.

Abbreviation tstate := (loop_state container io).

Lemma advance_continue (s s' : tstate) (p : window_plan) :
  advance final_position s p = (Continue, s') ->
  p_is_last_time p = false /\ end_ s' = p_next_end p /\
  is_last_time s' = (final_position <=? p_next_end p).
Proof.
  unfold advance. destruct (p_is_last_time p); [discriminate|].
  intros [= <-]. simpl. auto.
Qed.

Lemma sample_window_continue (s s' : tstate) (p : window_plan) (cov : list Q) :
  sample_window sch final_position s p cov = (Ok Continue, s') ->
  p_is_last_time p = false /\ end_ s' = p_next_end p /\
  is_last_time s' = (final_position <=? p_next_end p).
Proof.
  unfold sample_window.
  destruct (check_cigars _) as [[]|c|x]; try discriminate.
  destruct (sc_random_mutations _ _) as [[applied c2] w2].
  destruct (Qle_bool low_cov_thresh (Py.sum cov));
    [destruct (sc_init_coverage c2 cov w2) as [[avg c3] w3]|];
    (destruct (s_only_vcf sch);
     [|destruct (reads_to_sample _ _ _ _ _ _ _) as [n|c|x]; try discriminate]);
    (destruct (advance _ _ _) as [ctl s4] eqn:Hadv; intros [= -> ->];
     now apply advance_continue in Hadv).
Qed.

(** Every pass that goes on to another one brings the end of the span
    closer, as long as the pitch exceeds the overlap. *)
Lemma window_step_progress (s s' : tstate) :
  s_overlap sch < pitch ->
  window_step sch final_position pitch s = (Ok Continue, s') ->
  (windows_left final_position s' < windows_left final_position s)%nat.
Proof.
  intros Hov. unfold window_step.
  destruct (plan_window sch final_position pitch s) as [p|c|x] eqn:Hp; try discriminate.
  apply plan_window_spec in Hp as (end1 & Hge & _ & Hns & Hne & Hcase).
  intros Hstep.
  assert (Hnext : p_is_last_time p = false /\ end_ s' = p_next_end p /\
                  is_last_time s' = (final_position <=? p_next_end p)).
  { destruct (window_skipped sch s p).
    - unfold skip_window in Hstep.
      destruct (advance final_position _ p) as [[|] s2] eqn:Hadv; try discriminate.
      injection Hstep as <-. now apply advance_continue in Hadv.
    - now apply sample_window_continue in Hstep. }
  destruct Hnext as (Hlast & Hend & Hflag).
  destruct Hcase as [(_ & _ & Htrue) | (Hpitch & _ & Hsame)]; [congruence|].
  unfold windows_left. rewrite Hflag, Hend, <- Hsame, Hlast.
  destruct (Z.leb_spec final_position (p_next_end p)); lia.
Qed.

(** The [while True] loop ends within [windows_left + 1] passes. *)
Lemma window_loop_terminates (fuel : nat) (s : tstate) :
  s_overlap sch < pitch ->
  (windows_left final_position s < fuel)%nat ->
  fst (window_loop sch final_position pitch fuel s) <> None.
Proof.
  intros Hov. revert s. induction fuel as [|fuel IH]; intros s Hleft; [lia|].
  simpl.
  destruct (window_step sch final_position pitch s) as [[[|]|c|x] s'] eqn:Hstep;
    simpl; try discriminate.
  apply IH. apply window_step_progress in Hstep; [lia | exact Hov].
Qed.

End Termination.

(** ** Further properties of validation *)

Lemma is_in_range_in_range (v lo hi : Q) :
  is_in_range v lo hi = if in_range v lo hi then Ok tt else SysExit 1.
Proof. unfold is_in_range, in_range. now destruct (_ || _). Qed.

Lemma in_range_true (v lo hi : Q) : in_range v lo hi = true <-> (lo <= v <= hi)%Q.
Proof.
  unfold in_range. rewrite negb_true_iff, orb_false_iff, !Qlt_bool_false. tauto.
Qed.

Lemma in_range_Z (z lo hi : Z) :
  in_range (inject_Z z) (inject_Z lo) (inject_Z hi) = true <-> lo <= z <= hi.
Proof. rewrite in_range_true, <- !Zle_Qle. tauto. Qed.

Lemma check_required_file (o : bool) :
  check_file_open true o true = if o then Ok tt else SysExit 1.
Proof. now destruct o. Qed.

Lemma check_optional_file (g o : bool) :
  check_file_open g o false = if negb g || o then Ok tt else SysExit 1.
Proof. now destruct g, o. Qed.

Lemma some_output_check (nf fa bam vcf : bool) :
  (if nf && negb fa && negb bam && negb vcf then SysExit 1 else Ok tt : exec unit)
  = if negb (nf && negb fa && negb bam && negb vcf) then Ok tt else SysExit 1.
Proof. now destruct (nf && negb fa && negb bam && negb vcf). Qed.

Lemma pe_pair_check (gs gd : bool) :
  (if (negb gs && gd) || (gs && negb gd) then SysExit 1 else Ok tt : exec unit)
  = if Bool.eqb gs gd then Ok tt else SysExit 1.
Proof. now destruct gs, gd. Qed.

Lemma check_mut_rate_decides (m : Q) :
  check_mut_rate m
  = if Py.Qlt_bool m 0 || in_range m 0 (3 # 10)
    then Ok (if Py.Qlt_bool m 0 then None else Some m) else SysExit 1.
Proof.
  unfold check_mut_rate. destruct (Py.Qlt_bool m 0) eqn:Hneg; [reflexivity|].
  destruct (Qeq_bool m (-1)) eqn:Hm1; simpl.
  - apply Qeq_bool_iff in Hm1. apply Qlt_bool_false in Hneg.
    rewrite Hm1 in Hneg. now exfalso.
  - rewrite is_in_range_in_range. now destruct (in_range m 0 (3 # 10)).
Qed.

(** X1: validation is a decision.  A command line that passes each
    check of lines 152-212 gives the configuration [config_of]; any
    other one ends the run with exit code 1, never with another code
    and never with an exception.  The checks are: the reference opens,
    and so do the VCF and the target BED if given; some output is
    asked for; [--pe] has both values or none; [10 <= R <= 1000000];
    [0 <= c <= 1000000]; [1 <= p <= 100]; [0 <= to <= 1]; [E] is -1 or
    within [0, 0.3]; [N] is -1 or within [1, 40]; the mutation model
    loads; [M] is negative or at most 0.3. *)
Theorem validate_decides (a : args) (e : environment) :
  validate a e = (if accepts a e then Ok (config_of a e) else SysExit 1) /\
  (accepts a e = true <->
   reference_opens e = true /\
   (is_given (arg_v a) = true -> input_vcf_opens e = true) /\
   (is_given (arg_tr a) = true -> target_bed_opens e = true) /\
   (arg_no_fastq a = true -> arg_fa a = true \/ arg_bam a = true \/ arg_vcf a = true) /\
   (is_given (fst (arg_pe a)) = is_given (snd (arg_pe a))) /\
   10 <= arg_R a <= 1000000 /\
   (0 <= arg_c a <= 1000000)%Q /\
   1 <= arg_p a <= 100 /\
   (0 <= arg_to a <= 1)%Q /\
   ((arg_E a == -1)%Q \/ (0 <= arg_E a <= 3 # 10)%Q) /\
   (arg_N a = -1 \/ 1 <= arg_N a <= 40) /\
   mutation_model_loads e = true /\
   ((arg_M a < 0)%Q \/ (arg_M a <= 3 # 10)%Q)).
Proof.
  split.
  - unfold validate, accepts, config_of, parse_input_mutation_model.
    rewrite check_required_file, !check_optional_file, some_output_check,
      !is_in_range_in_range, check_mut_rate_decides.
    destruct (arg_pe a) as [fs fstd]. rewrite pe_pair_check. cbn [fst snd].
    destruct (reference_opens e); [|reflexivity].
    destruct (negb (is_given (arg_v a)) || input_vcf_opens e); [|reflexivity].
    destruct (negb (is_given (arg_tr a)) || target_bed_opens e); [|reflexivity].
    destruct (negb (arg_no_fastq a && negb (arg_fa a) && negb (arg_bam a)
                    && negb (arg_vcf a))); [|reflexivity].
    destruct (Bool.eqb (is_given fs) (is_given fstd)); [|reflexivity].
    destruct (in_range (inject_Z (arg_R a)) 10 1000000); [|reflexivity].
    destruct (in_range (arg_c a) 0 1000000); [|reflexivity].
    destruct (in_range (inject_Z (arg_p a)) 1 100); [|reflexivity].
    destruct (in_range (arg_to a) 0 1); [|reflexivity].
    cbn [mbind exec_bind andb].
    destruct (Qeq_bool (arg_E a) (-1)); cbn [negb orb mbind exec_bind];
      [|rewrite ?is_in_range_in_range;
        destruct (in_range (arg_E a) 0 (3 # 10)); [|reflexivity]];
      (cbn [mbind exec_bind andb];
       destruct (arg_N a =? -1); cbn [negb orb mbind exec_bind];
         [|rewrite ?is_in_range_in_range;
           destruct (in_range (inject_Z (arg_N a)) 1 40); [|reflexivity]];
         (cbn [mbind exec_bind andb];
          destruct (mutation_model_loads e); [|reflexivity];
          cbn [mbind exec_bind andb];
          destruct (Py.Qlt_bool (arg_M a) 0 || in_range (arg_M a) 0 (3 # 10));
          reflexivity)).
  - unfold accepts.
    change (10%Q) with (inject_Z 10). change (1000000%Q) with (inject_Z 1000000).
    change (1%Q) with (inject_Z 1). change (40%Q) with (inject_Z 40).
    change (100%Q) with (inject_Z 100).
    rewrite !andb_true_iff, !orb_true_iff, !negb_true_iff, !in_range_Z,
      Bool.eqb_true_iff, Z.eqb_eq, Qeq_bool_iff, Qlt_bool_true.
    change (inject_Z 1000000) with (1000000%Q). change (inject_Z 1) with (1%Q).
    rewrite !in_range_true.
    assert (Hout : arg_no_fastq a && negb (arg_fa a) && negb (arg_bam a)
                   && negb (arg_vcf a) = false
                   <-> (arg_no_fastq a = true ->
                        arg_fa a = true \/ arg_bam a = true \/ arg_vcf a = true)).
    { destruct (arg_no_fastq a), (arg_fa a), (arg_bam a), (arg_vcf a); simpl;
        intuition discriminate. }
    assert (Hv : forall g o : bool, g = false \/ o = true <-> (g = true -> o = true)).
    { intros [|] [|]; intuition discriminate. }
    assert (HM : (arg_M a < 0)%Q \/ (0 <= arg_M a <= 3 # 10)%Q
                 <-> (arg_M a < 0)%Q \/ (arg_M a <= 3 # 10)%Q).
    { split; [tauto|]. intros [Hlt|Hle]; [now left|].
      destruct (Qlt_le_dec (arg_M a) 0); [now left | right; now split]. }
    rewrite Hout, !Hv, HM, !Logic.and_assoc. reflexivity.
Qed.

(** ** Contigs that the reference lacks *)

Lemma drop_unknown_after_warning (refs items : list string) (df : data_frame) :
  drop_unknown_chroms refs items true df = df.
Proof.
  induction items as [|item more IH]; simpl; [reflexivity|].
  now rewrite andb_false_r.
Qed.

(** X2: of the contigs that occur in the VCF but not in the reference,
    only the first one in the iteration order of the set has its
    records filtered out (lines 318-323: the warning flag guards the
    filter too); the records of every further such contig stay in the
    data frame. *)
Theorem only_first_unknown_contig_is_dropped
    (refs items : list string) (df : data_frame) :
  drop_unknown_chroms refs items false df
  = match List.find (fun item => negb (existsb (String.eqb item) refs)) items with
    | Some item => df_off item df
    | None => df
    end.
Proof.
  induction items as [|item more IH]; simpl; [reflexivity|].
  rewrite andb_true_r.
  destruct (negb (existsb (String.eqb item) refs)); [|exact IH].
  apply drop_unknown_after_warning.
Qed.

(** ** The window end in closed form *)

Lemma fold_max_is (l : list Z) :
  forall e x, e <= x -> Forall (fun y => y <= x) l -> x = e \/ In x l ->
              fold_left Z.max l e = x.
Proof.
  induction l as [|a l IH]; intros e x He Hall Hin; simpl.
  - destruct Hin as [->|[]]. reflexivity.
  - apply List.Forall_cons_iff in Hall as [Ha Hall].
    apply IH; [lia | exact Hall |].
    destruct Hin as [->|[->|Hin]]; [left; lia | left; lia | now right].
Qed.

Lemma adjust_end_loop_value (fuel : nat) (overlap : Z) (svs : list (Z * Z)) :
  forall end_,
    adjust_end_loop fuel overlap svs end_ = end_
    \/ In (adjust_end_loop fuel overlap svs end_) (List.map (reach overlap) svs).
Proof.
  induction fuel as [|fuel IH]; intros end_; simpl; [now left|].
  destruct (first_short end_ overlap svs) as [d|] eqn:Hf; [|now left].
  right. unfold first_short in Hf. apply List.find_some in Hf as [Hin _].
  apply List.in_map_iff in Hin as (row & Hd & Hrow).
  destruct (IH (end_ + - d)) as [Heq|Hin]; [|exact Hin].
  rewrite Heq. apply List.in_map_iff. exists row. split; [|exact Hrow].
  subst d. unfold reach, delta_of. lia.
Qed.

(** X3: the loop of lines 502-514 moves the end of the window to the
    largest of its old value and, over the structural variant rows
    [(pos, buffer)] of the window, [pos + buffer + overlap + 3]: the
    least end that leaves every row [buffer + overlap + 2] bases clear
    of the last position of the window. *)
Theorem adjust_end_is_a_maximum (overlap : Z) (svs : list (Z * Z)) (end_ : Z) :
  adjust_end overlap svs end_ = fold_left Z.max (List.map (reach overlap) svs) end_.
Proof.
  symmetry. apply fold_max_is.
  - apply adjust_end_ge.
  - pose proof (adjust_end_stable overlap svs end_) as Hst.
    rewrite List.Forall_forall in Hst. apply List.Forall_forall.
    intros y Hy. apply List.in_map_iff in Hy as (row & <- & Hrow).
    specialize (Hst row Hrow). unfold reach, delta_of in *. lia.
  - unfold adjust_end. apply adjust_end_loop_value.
Qed.

(** ** Fragment lengths of the artificial distribution *)

Lemma range_in (a b v : Z) : In v (Py.range a b) <-> a <= v < b.
Proof.
  unfold Py.range. rewrite List.in_map_iff. split.
  - intros (k & <- & Hk). apply List.in_seq in Hk. lia.
  - intros Hv. exists (Z.to_nat (v - a)). split; [lia|].
    apply List.in_seq. lia.
Qed.

Lemma py_max_is (l : list Z) (m : Z) :
  In m l -> Forall (fun y => y <= m) l -> py_max l = Ok m.
Proof.
  destruct l as [|x r]; simpl; [contradiction|].
  intros Hin Hall. apply List.Forall_cons_iff in Hall as [Hx Hall].
  f_equal. apply fold_max_is; [exact Hx | exact Hall |].
  destruct Hin as [->|Hin]; [now left | now right].
Qed.

(** X4: the values of the artificial fragment-length distribution
    (lines 270-277) and the smallest window they ask for (line 443).
    With a standard deviation of 0 the only value is the mean, whatever
    the read length, and a window must hold 10 bases more than the
    mean.  With any other deviation the values are the integers within
    six deviations of the mean that exceed the read length; if the
    deviation is positive and the mean plus six deviations exceeds the
    read length, the largest value is that number and a window must
    hold 10 bases more; if the mean plus six deviations does not exceed
    the read length, there is no value and the maximum of line 443
    raises [ValueError]. *)
Theorem artificial_fragment_lengths (R fragment_size fragment_std : Z) :
  let values := artificial_fraglen_values R fragment_size fragment_std in
  (fragment_std = 0 ->
   values = [fragment_size] /\
   window_sizes true R fragment_size values
   = Ok (100 * fragment_size, fragment_size, fragment_size + 10)) /\
  (fragment_std <> 0 ->
   forall v, In v values <->
             fragment_size - 6 * fragment_std <= v <= fragment_size + 6 * fragment_std
             /\ R < v) /\
  (0 < fragment_std -> R < fragment_size + 6 * fragment_std ->
   window_sizes true R fragment_size values
   = Ok (100 * fragment_size, fragment_size, fragment_size + 6 * fragment_std + 10)) /\
  (fragment_std <> 0 -> fragment_size + 6 * fragment_std <= R ->
   values = [] /\ window_sizes true R fragment_size values = Raised "ValueError").
Proof.
  intros values.
  assert (Hin : fragment_std <> 0 ->
            forall v, In v values <->
            fragment_size - 6 * fragment_std <= v <= fragment_size + 6 * fragment_std
            /\ R < v).
  { intros Hstd v. unfold values, artificial_fraglen_values.
    destruct (Z.eqb_spec fragment_std 0); [contradiction|].
    rewrite List.filter_In, range_in, Z.ltb_lt. lia. }
  split; [|split; [exact Hin | split]].
  - intros Hstd. unfold values, artificial_fraglen_values. rewrite Hstd. simpl.
    split; [reflexivity|]. unfold window_sizes. simpl. reflexivity.
  - intros Hstd Hbig. unfold window_sizes.
    assert (Hne : fragment_std <> 0) by lia.
    rewrite (py_max_is values (fragment_size + 6 * fragment_std)).
    + reflexivity.
    + apply (Hin Hne). lia.
    + apply List.Forall_forall. intros y Hy. apply (Hin Hne) in Hy. lia.
  - intros Hne Hsmall.
    assert (Hnil : values = []).
    { destruct values as [|v vs] eqn:Hv; [reflexivity|].
      assert (Hv0 : In v (v :: vs)) by now left.
      apply (Hin Hne) in Hv0. lia. }
    split; [exact Hnil|]. now rewrite Hnil.
Qed.

(** ** A valid record lies on the contig *)

Lemma substring_length (s : string) :
  forall n m, (n + m <= String.length s)%nat -> String.length (String.substring n m s) = m.
Proof.
  induction s as [|c s IH]; intros n m Hle; simpl in *.
  - destruct n, m; simpl in *; try reflexivity; lia.
  - destruct n as [|n].
    + destruct m as [|m]; simpl; [reflexivity|].
      f_equal. apply (IH 0%nat m). lia.
    + apply IH. lia.
Qed.

Lemma substring_length_le (s : string) :
  forall n m, (String.length (String.substring n m s) <= String.length s - n)%nat.
Proof.
  induction s as [|c s IH]; intros n m; simpl.
  - destruct n, m; simpl; lia.
  - destruct n as [|n].
    + destruct m as [|m]; simpl; [lia|].
      specialize (IH 0%nat m). lia.
    + apply IH.
Qed.

Lemma r_seq_in_bounds (ref_seq : string) (row : vcf_row) :
  1 <= row_POS row ->
  row_POS row - 1 + Z.of_nat (String.length (row_REF row))
    <= Z.of_nat (String.length ref_seq) ->
  r_seq_of ref_seq row
  = String.substring (Z.to_nat (row_POS row - 1)) (String.length (row_REF row)) ref_seq.
Proof.
  intros Hpos Hin. unfold r_seq_of, Py.slice, Py.slice_bound. simpl.
  destruct (Z.ltb_spec (row_POS row - 1) 0); [lia|].
  destruct (Z.ltb_spec (row_POS row + Z.of_nat (String.length (row_REF row)) - 1) 0); [lia|].
  f_equal; lia.
Qed.

Lemma r_seq_out_of_bounds (ref_seq : string) (row : vcf_row) :
  1 <= row_POS row ->
  Z.of_nat (String.length ref_seq)
    < row_POS row - 1 + Z.of_nat (String.length (row_REF row)) ->
  (0 < String.length (row_REF row))%nat ->
  (String.length (r_seq_of ref_seq row) < String.length (row_REF row))%nat.
Proof.
  intros Hpos Hout Hlen. unfold r_seq_of, Py.slice, Py.slice_bound. simpl.
  destruct (Z.ltb_spec (row_POS row - 1) 0); [lia|].
  destruct (Z.ltb_spec (row_POS row + Z.of_nat (String.length (row_REF row)) - 1) 0); [lia|].
  match goal with |- (String.length (String.substring ?n ?m _) < _)%nat =>
    pose proof (substring_length_le ref_seq n m) as Hle end.
  lia.
Qed.

(** X5: for a record with [POS >= 1], the reference under its REF
    allele (line 331) is the stretch of the contig that starts at the
    0-based position [POS - 1] and has the length of REF, provided that
    stretch ends within the contig.  A record that passes the pruning
    therefore lies on the contig: its REF equals that stretch, which
    holds no N, and its alt alleles are over A, C, G, T.  A record whose
    REF allele runs past the end of the contig never passes: Python's
    slice is shorter than REF, and the record is counted as a REF
    mismatch. *)
Theorem valid_record_lies_on_contig (ref_seq : string) (row : vcf_row) :
  1 <= row_POS row ->
  let len := Z.of_nat (String.length (row_REF row)) in
  let contig := Z.of_nat (String.length ref_seq) in
  (check_row ref_seq row = Valid ->
   (row_POS row - 1 + len <= contig \/ row_REF row = ""%string) /\
   (row_POS row - 1 + len <= contig ->
    String.substring (Z.to_nat (row_POS row - 1)) (String.length (row_REF row)) ref_seq
    = row_REF row) /\
   Py.char_in "N"%char (row_REF row) = false /\
   any_bad_nucl (row_alt_split row) = false) /\
  (contig < row_POS row - 1 + len -> row_REF row <> ""%string ->
   check_row ref_seq row = RefMismatch).
Proof.
  intros Hpos len contig.
  assert (Hout : contig < row_POS row - 1 + len -> row_REF row <> ""%string ->
                 String.eqb (r_seq_of ref_seq row) (row_REF row) = false).
  { intros Hbig Hne. apply String.eqb_neq. intros Heq.
    assert (Hlen : (0 < String.length (row_REF row))%nat)
      by (destruct (row_REF row); [contradiction | simpl; lia]).
    pose proof (r_seq_out_of_bounds ref_seq row Hpos Hbig Hlen) as Hlt.
    rewrite Heq in Hlt. lia. }
  split.
  - unfold check_row.
    destruct (String.eqb (r_seq_of ref_seq row) (row_REF row)) eqn:Heq; simpl;
      [|discriminate].
    apply String.eqb_eq in Heq.
    destruct (Py.char_in "N" (r_seq_of ref_seq row)) eqn:HN; [discriminate|].
    destruct (any_bad_nucl (row_alt_split row)) eqn:Hbad; [discriminate|].
    intros _. rewrite Heq in HN.
    split; [|split; [|split; [exact HN | reflexivity]]].
    + destruct (Z.le_gt_cases (row_POS row - 1 + len) contig) as [Hle|Hgt]; [now left|].
      right. destruct (row_REF row) eqn:Href; [reflexivity|].
      exfalso. rewrite <- Href in *.
      assert (Hne : row_REF row <> ""%string) by (rewrite Href; discriminate).
      specialize (Hout Hgt Hne). discriminate Hout.
    + intros Hle. rewrite <- (r_seq_in_bounds ref_seq row Hpos Hle). exact Heq.
  - intros Hbig Hne. unfold check_row. now rewrite (Hout Hbig Hne).
Qed.

Lemma valid_record_lies_on_contig_witness :
  check_row "ACGTNACGT" {| row_CHROM := "c1"; row_POS := 3; row_REF := "GT";
                           row_alt_split := ["G"] |} = Valid /\
  check_row "ACGTNACGT" {| row_CHROM := "c1"; row_POS := 9; row_REF := "TA";
                           row_alt_split := ["G"] |} = RefMismatch.
Proof.
  split; [reflexivity|].
  apply (valid_record_lies_on_contig "ACGTNACGT"
           {| row_CHROM := "c1"; row_POS := 9; row_REF := "TA"; row_alt_split := ["G"] |}).
  - simpl. lia.
  - simpl. lia.
  - discriminate.
Defined.

(** ** Collecting the VCF variants of a window *)

Section Collecting.
Variables start end_ overlap : Z.

Lemma collect_from_ascending (vs : list variant) :
  StronglySorted Z.le (List.map var_pos vs) ->
  forall j acc updated vi,
    fst (collect_from start end_ overlap j vs acc updated vi)
    = acc ++ List.map to_array_coords (List.filter (inside_window start end_) vs).
Proof.
  induction vs as [|v rest IH]; intros Hsorted j acc updated vi; simpl.
  - now rewrite List.app_nil_r.
  - simpl in Hsorted. apply StronglySorted_inv in Hsorted as [Hrest Hall].
    unfold inside_window at 1.
    destruct (Z.leb_spec end_ (var_pos v)) as [Hout|Hin].
    + assert (Hnone : List.filter (inside_window start end_) rest = []).
      { clear IH Hrest. induction rest as [|w rest' IHr]; [reflexivity|].
        simpl in Hall. apply List.Forall_cons_iff in Hall as [Hw Hall].
        simpl. unfold inside_window at 1.
        destruct (Z.ltb_spec (var_pos w) end_); [lia|]. rewrite andb_false_r.
        now apply IHr. }
      destruct (Z.ltb_spec (var_pos v) end_); [lia|]. rewrite andb_false_r.
      rewrite Hnone. destruct ((end_ - overlap - 1 <=? var_pos v) && negb updated);
        simpl; now rewrite List.app_nil_r.
    + destruct ((end_ - overlap - 1 <=? var_pos v) && negb updated);
        rewrite (IH Hrest);
        (destruct ((start <? var_pos v) && (var_pos v <? end_)); simpl;
         [now rewrite <- List.app_assoc | reflexivity]).
Qed.

(** Where the cursor ends up: it stays, or it moves to the first
    scanned variant at or beyond [end - overlap - 1]. *)
Lemma collect_from_cursor (vs : list variant) :
  forall j acc vi,
    let vi' := snd (collect_from start end_ overlap j vs acc false vi) in
    vi' = vi \/
    exists k a, vi' = (j + k)%nat /\ vs !! k = Some a /\
                end_ - overlap - 1 <= var_pos a /\
                forall k' b, (k' < k)%nat -> vs !! k' = Some b ->
                             var_pos b < end_ - overlap - 1.
Proof.
  assert (Hupd : forall vs j acc vi,
            snd (collect_from start end_ overlap j vs acc true vi) = vi).
  { induction vs0 as [|v rest IH]; intros j acc vi; simpl; [reflexivity|].
    rewrite andb_false_r. destruct (end_ <=? var_pos v); [reflexivity | apply IH]. }
  induction vs as [|v rest IH]; intros j acc vi; simpl; [now left|].
  destruct (Z.leb_spec (end_ - overlap - 1) (var_pos v)) as [Hge|Hlt]; simpl.
  - right. exists 0%nat, v.
    split; [|split; [reflexivity | split; [exact Hge | intros k' b Hk; lia]]].
    destruct (end_ <=? var_pos v); simpl; [lia|]. rewrite Hupd. lia.
  - destruct (Z.leb_spec end_ (var_pos v)); simpl; [now left|].
    destruct (IH (S j) (if (start <? var_pos v) && (var_pos v <? end_)
                        then acc ++ [to_array_coords v] else acc) vi)
      as [Hsame | (k & a & Hvi & Hk & Hpos & Hbefore)]; [now left|].
    right. exists (S k), a.
    split; [unfold to_array_coords in Hvi; simpl in *; lia|].
    split; [exact Hk | split; [exact Hpos|]].
    intros [|k'] b Hlt' Hb; simpl in Hb.
    + injection Hb as <-. exact Hlt.
    + apply (Hbefore k' b); [lia | exact Hb].
Qed.

End Collecting.

Lemma strongly_sorted_skipn {A} (R : A -> A -> Prop) (l : list A) :
  StronglySorted R l -> forall n, StronglySorted R (List.skipn n l).
Proof.
  induction 1 as [|x l Hl IH Hx]; intros [|n]; simpl; try constructor; auto.
Qed.

(** X6: on a list of VCF variants in ascending position, the scan of
    lines 481-491 collects, in list order and moved to array
    coordinates, exactly the variants from the cursor on whose position
    lies strictly between the start and the end of the window: the
    early [break] at the first position beyond the end loses none. *)
Theorem window_collects_variants_inside
    (valid : list variant) (start end_ overlap : Z) (v_index_from_prev : nat) :
  StronglySorted Z.le (List.map var_pos valid) ->
  fst (collect_vars_in_window valid start end_ overlap v_index_from_prev)
  = List.map to_array_coords
      (List.filter (inside_window start end_) (List.skipn v_index_from_prev valid)).
Proof.
  intros Hsorted. unfold collect_vars_in_window.
  rewrite collect_from_ascending; [reflexivity|].
  rewrite <- List.skipn_map. now apply strongly_sorted_skipn.
Qed.

Lemma window_collects_variants_inside_witness :
  fst (collect_vars_in_window [Demo.snv 5; Demo.snv 30; Demo.snv 50; Demo.snv 700; Demo.snv 900]
                              20 100 10 1)
  = [Demo.snv 29; Demo.snv 49].
Proof.
  rewrite (window_collects_variants_inside
             [Demo.snv 5; Demo.snv 30; Demo.snv 50; Demo.snv 700; Demo.snv 900] 20 100 10 1).
  - reflexivity.
  - simpl. repeat constructor; lia.
Defined.

Lemma filter_inside_from_cursor (start end_ : Z) :
  forall (idx : nat) (valid : list variant),
    (forall j a, (j < idx)%nat -> valid !! j = Some a -> var_pos a <= start) ->
    List.filter (inside_window start end_) (List.skipn idx valid)
    = List.filter (inside_window start end_) valid.
Proof.
  induction idx as [|idx IH]; intros valid Hbefore; [reflexivity|].
  destruct valid as [|a l]; [reflexivity|]. simpl.
  assert (Ha : var_pos a <= start) by (apply (Hbefore 0%nat a); [lia | reflexivity]).
  unfold inside_window at 2. destruct (Z.ltb_spec start (var_pos a)); [lia|]. simpl.
  apply IH. intros j b Hj Hb. apply (Hbefore (S j) b); [lia | exact Hb].
Qed.

(** X7: the cursor [v_index_from_prev] loses no variant.  On a list in
    ascending position, if every variant before the cursor lies at or
    before the start of the window, the scan collects exactly the
    variants of the whole list that lie strictly inside the window; and
    the cursor it leaves has the same property for every later window
    that starts at or after [end - overlap - 1], as the next window
    does. *)
Theorem cursor_loses_no_variant
    (valid : list variant) (start end_ overlap : Z) (v_index_from_prev : nat) :
  StronglySorted Z.le (List.map var_pos valid) ->
  (forall j a, (j < v_index_from_prev)%nat -> valid !! j = Some a -> var_pos a <= start) ->
  fst (collect_vars_in_window valid start end_ overlap v_index_from_prev)
  = List.map to_array_coords (List.filter (inside_window start end_) valid) /\
  forall start', start <= start' -> end_ - overlap - 1 <= start' ->
    forall j a,
      (j < snd (collect_vars_in_window valid start end_ overlap v_index_from_prev))%nat ->
      valid !! j = Some a -> var_pos a <= start'.
Proof.
  intros Hsorted Hbefore. split.
  - unfold collect_vars_in_window.
    rewrite collect_from_ascending.
    + simpl. now rewrite filter_inside_from_cursor.
    + rewrite <- List.skipn_map. now apply strongly_sorted_skipn.
  - intros start' Hstart Hnext j a Hj Ha. unfold collect_vars_in_window in Hj.
    destruct (collect_from_cursor start end_ overlap
                (List.skipn v_index_from_prev valid) v_index_from_prev [] v_index_from_prev)
      as [Hsame | (k & b & Hvi & _ & _ & Hlow)].
    + rewrite Hsame in Hj. specialize (Hbefore j a Hj Ha). lia.
    + rewrite Hvi in Hj.
      destruct (Nat.lt_ge_cases j v_index_from_prev) as [Hlt|Hge].
      * specialize (Hbefore j a Hlt Ha). lia.
      * assert (Hlook : List.skipn v_index_from_prev valid !! (j - v_index_from_prev)%nat
                        = Some a).
        { rewrite lookup_drop. rewrite <- Ha. f_equal. lia. }
        specialize (Hlow (j - v_index_from_prev)%nat a ltac:(lia) Hlook). lia.
Qed.

Lemma cursor_loses_no_variant_witness :
  let valid := [Demo.snv 5; Demo.snv 30; Demo.snv 95; Demo.snv 700; Demo.snv 900] in
  collect_vars_in_window valid 20 100 10 1 = ([Demo.snv 29; Demo.snv 94], 2%nat) /\
  forall j a, (j < 2)%nat -> valid !! j = Some a -> var_pos a <= 90.
Proof.
  intros valid. split; [reflexivity|].
  destruct (cursor_loses_no_variant valid 20 100 10 1) as [_ Hnext].
  - unfold valid. simpl. repeat constructor; lia.
  - intros [|j] a Hj Ha; [|lia]. injection Ha as <-. simpl. lia.
  - intros j a Hj Ha. apply (Hnext 90 ltac:(lia) ltac:(lia) j a Hj Ha).
Defined.

(** ** Coverage modifiers *)

Lemma target_scan_closed (regions : list Z) (scalar : Q) (start end_ : Z) :
  target_scan regions scalar start end_
  = (List.map (modifier_at regions scalar) (Py.range start end_),
     Z.of_nat (List.length (List.filter (is_target_hit regions) (Py.range start end_)))).
Proof.
  unfold target_scan.
  assert (Hgen : forall l cov hits,
    fold_left (fun acc j => if Z.even (Py.bisect regions j)
                            then (fst acc ++ [1%Q], snd acc + 1)
                            else (fst acc ++ [scalar], snd acc)) l (cov, hits)
    = (cov ++ List.map (modifier_at regions scalar) l,
       hits + Z.of_nat (List.length (List.filter (is_target_hit regions) l)))).
  { induction l as [|j l IH]; intros cov hits; simpl.
    - rewrite List.app_nil_r. f_equal. lia.
    - unfold modifier_at at 1, is_target_hit at 1 2.
      destruct (Z.even (Py.bisect regions j)); simpl; rewrite IH, <- List.app_assoc;
        simpl; f_equal; lia. }
  now rewrite Hgen.
Qed.

Lemma range_length (a b : Z) : List.length (Py.range a b) = Z.to_nat (b - a).
Proof. unfold Py.range. now rewrite List.length_map, List.length_seq. Qed.

Lemma sum_between (l : list Q) :
  Forall (fun c => 0 <= c <= 1)%Q l ->
  forall acc, (acc <= fold_left Qplus l acc
               <= acc + inject_Z (Z.of_nat (List.length l)))%Q.
Proof.
  induction 1 as [|c l Hc Hl IH]; intros acc; simpl fold_left.
  - change (inject_Z (Z.of_nat (List.length (@nil Q)))) with 0%Q. lra.
  - specialize (IH (acc + c)%Q).
    change (List.length (c :: l)) with (S (List.length l)).
    rewrite Nat2Z.inj_succ. unfold Z.succ. rewrite inject_Z_plus.
    change (inject_Z 1) with 1%Q. lra.
Qed.

Lemma coverage_modifiers_entries
    (target_regions : gmap string (list Z)) (chrom : string) (scalar : Q)
    (start end_ : Z) :
  let cov := fst (coverage_modifiers target_regions chrom scalar start end_) in
  let hits := snd (coverage_modifiers target_regions chrom scalar start end_) in
  List.length cov = Z.to_nat (end_ - start) /\
  Forall (fun c => c = 1%Q \/ c = scalar) cov /\
  0 <= hits <= Z.of_nat (List.length cov) /\
  (forall regions, target_regions !! chrom = Some regions ->
     cov = List.map (modifier_at regions scalar) (Py.range start end_) /\
     hits = Z.of_nat (List.length (List.filter (is_target_hit regions)
                                               (Py.range start end_)))).
Proof.
  intros cov hits.
  unfold cov, hits, coverage_modifiers.
  destruct (decide (target_regions = ∅)) as [Hempty|Hsome]; simpl.
  - unfold Py.repeat. rewrite List.repeat_length.
    split; [reflexivity | split; [|split; [lia|]]].
    + apply List.Forall_forall. intros c Hc. apply List.repeat_spec in Hc. now left.
    + intros regions Hlook. rewrite Hempty in Hlook. discriminate.
  - destruct (target_regions !! chrom) as [regions|] eqn:Hlook; simpl.
    + rewrite target_scan_closed. simpl. rewrite List.length_map, range_length.
      split; [reflexivity | split; [|split]].
      * apply List.Forall_forall. intros c Hc.
        apply List.in_map_iff in Hc as (j & <- & _). unfold modifier_at.
        destruct (is_target_hit regions j); auto.
      * pose proof (List.filter_length_le (is_target_hit regions) (Py.range start end_)).
        rewrite range_length in *. lia.
      * intros regions' [= <-]. split; reflexivity.
    + unfold Py.repeat. rewrite List.repeat_length.
      split; [reflexivity | split; [|split; [lia|]]].
      * apply List.Forall_forall. intros c Hc. apply List.repeat_spec in Hc. now right.
      * intros regions [=].
Qed.

Lemma coverage_sum_bounded
    (target_regions : gmap string (list Z)) (chrom : string) (scalar : Q)
    (start end_ : Z) :
  let cov := fst (coverage_modifiers target_regions chrom scalar start end_) in
  (0 <= scalar <= 1)%Q ->
  List.length cov = Z.to_nat (end_ - start) /\
  (0 <= Py.sum cov <= inject_Z (Z.of_nat (List.length cov)))%Q.
Proof.
  intros cov Hscalar.
  destruct (coverage_modifiers_entries target_regions chrom scalar start end_)
    as (Hlen & Hall & _).
  split; [exact Hlen|]. unfold Py.sum.
  assert (Hunit : Forall (fun c => 0 <= c <= 1)%Q cov).
  { apply List.Forall_forall. intros c Hc.
    rewrite List.Forall_forall in Hall. destruct (Hall c Hc) as [->| ->]; lra. }
  pose proof (sum_between cov Hunit 0%Q) as Hsum. lra.
Qed.

(** X8: the coverage modifiers of a window (lines 538-552) are one
    value per position of the window, each 1.0 or the off-target
    scalar; the number of target hits is between 0 and the length of
    the window, and on a contig with target intervals it is the number
    of positions whose modifier was set to 1.0 as a hit; and with an
    off-target scalar between 0 and 1 the sum of the modifiers is
    between 0 and the length of the window. *)
Theorem coverage_modifiers_shape
    (target_regions : gmap string (list Z)) (chrom : string) (scalar : Q)
    (start end_ : Z) :
  let cov := fst (coverage_modifiers target_regions chrom scalar start end_) in
  let hits := snd (coverage_modifiers target_regions chrom scalar start end_) in
  List.length cov = Z.to_nat (end_ - start) /\
  Forall (fun c => c = 1%Q \/ c = scalar) cov /\
  0 <= hits <= Z.of_nat (List.length cov) /\
  (forall regions, target_regions !! chrom = Some regions ->
     cov = List.map (modifier_at regions scalar) (Py.range start end_) /\
     hits = Z.of_nat (List.length (List.filter (is_target_hit regions)
                                               (Py.range start end_)))) /\
  ((0 <= scalar <= 1)%Q ->
   (0 <= Py.sum cov <= inject_Z (Z.of_nat (List.length cov)))%Q).
Proof.
  intros cov hits.
  destruct (coverage_modifiers_entries target_regions chrom scalar start end_)
    as (Hlen & Hall & Hhits & Hscan).
  split; [exact Hlen | split; [exact Hall | split; [exact Hhits | split; [exact Hscan|]]]].
  intros Hscalar.
  now apply (coverage_sum_bounded target_regions chrom scalar start end_).
Qed.

(** X9: with an off-target scalar between 0 and 1, as validation
    ensures, a window of fewer than 50 bases is always skipped: its
    coverage sum is below the low-coverage threshold, whatever the read
    length and the targets are. *)
Theorem short_window_is_skipped {container io : Type} `{!Collaborators container io}
    (sch : schedule) (s : loop_state container io) (p : window_plan) :
  (0 <= s_off_target_scalar sch <= 1)%Q ->
  p_end p - start s < 50 ->
  window_skipped sch s p = true.
Proof.
  intros Hscalar Hshort. unfold window_skipped.
  pose proof (coverage_sum_bounded (s_target_regions sch) (s_chrom sch)
                (s_off_target_scalar sch) (start s) (p_end p) Hscalar)
    as (Hlen & Hsum).
  unfold window_coverage.
  destruct (coverage_modifiers _ _ _ _ _) as [cov hits]. simpl in Hlen, Hsum.
  apply skip_this_window_true. right. left.
  unfold low_cov_thresh.
  assert (Hlt : (inject_Z (Z.of_nat (List.length cov)) < 50)%Q).
  { change 50%Q with (inject_Z 50). rewrite <- Zlt_Qlt. lia. }
  lra.
Qed.

Lemma short_window_is_skipped_witness :
  let sch := Demo.single_end [] 10 false ∅ in
  let s := first_window 0 45 45 (contig_start (container := list variant) 0%nat) in
  window_skipped sch s {| p_vars_in_window := []; p_v_index := 0%nat; p_end := 45;
                          p_next_start := 35; p_next_end := 45; p_is_last_time := true |}
  = true /\
  events (snd (span_walk sch 10 (0, 45) (contig_start (container := list variant) 0%nat)))
  = [Skipped 0 45].
Proof.
  intros sch s. split; [|reflexivity].
  apply (short_window_is_skipped sch s).
  - simpl. lra.
  - simpl. lia.
Defined.

(** ** The windows of a span *)

Section WindowGeometry.
Context {container io : Type} `{!Collaborators container io}.
Variable sch : schedule.
Variable final_position : Z.
Variable pitch : Z.

Abbreviation gstate := (loop_state container io).

(** What a sampled window that runs to its end leaves behind. *)
Lemma sample_window_result (s s' : gstate) (p : window_plan) (cov : list Q)
    (ctl : control) :
  sample_window sch final_position s p cov = (Ok ctl, s') ->
  (exists more,
     events s' = events s ++ Inserted (start s) (p_end p) (given_variants s p)
                                      (applied_variants s p) :: more /\
     reported more = []) /\
  all_variants_out s' = tally (applied_variants s p) (all_variants_out s) /\
  start s' = p_next_start p /\ end_ s' = p_next_end p /\
  ((ctl = Break /\ p_is_last_time p = true)
   \/ (ctl = Continue /\ p_is_last_time p = false /\
       is_last_time s' = (final_position <=? p_next_end p))).
Proof.
  unfold sample_window, applied_variants.
  destruct (check_cigars _) as [[]|c|x]; try discriminate.
  destruct (sc_random_mutations _ _) as [[applied c2] w2]. simpl.
  destruct (Qle_bool low_cov_thresh (Py.sum cov));
    [destruct (sc_init_coverage c2 cov w2) as [[avg c3] w3]|];
    (destruct (s_only_vcf sch);
     [|destruct (reads_to_sample _ _ _ _ _ _ _) as [n|c|x]; try discriminate]);
    unfold advance; destruct (p_is_last_time p); intros [= <- <-]; simpl;
    (split; [eexists; split; [try rewrite <- List.app_assoc; reflexivity|reflexivity]|]);
    repeat split; auto.
Qed.

(** What any pass that ends well leaves behind. *)
Lemma window_step_result (s s' : gstate) (ctl : control) :
  window_step sch final_position pitch s = (Ok ctl, s') ->
  exists p,
    plan_window sch final_position pitch s = Ok p /\
    (exists e more, events s' = events s ++ e :: more /\
                    event_window e = (start s, p_end p) /\
                    all_variants_out s'
                    = tally (reported (e :: more)) (all_variants_out s)) /\
    start s' = p_next_start p /\ end_ s' = p_next_end p /\
    ((ctl = Break /\ p_is_last_time p = true)
     \/ (ctl = Continue /\ p_is_last_time p = false /\
         is_last_time s' = (final_position <=? p_next_end p))).
Proof.
  unfold window_step.
  destruct (plan_window sch final_position pitch s) as [p|c|x] eqn:Hp; try discriminate.
  intros Hstep. exists p. split; [reflexivity|].
  destruct (window_skipped sch s p).
  - unfold skip_window, advance in Hstep.
    destruct (p_is_last_time p); injection Hstep as <- <-; simpl;
      (split; [exists (Skipped (start s) (p_end p)), []; repeat split; reflexivity|]);
      repeat split; auto.
  - apply sample_window_result in Hstep as ((more & Hev & Hrep) & Hout & Hst & Hen & Hctl).
    simpl in Hev, Hout. split; [|repeat split; assumption].
    eexists _, more. split; [exact Hev|]. split; [reflexivity|].
    cbn [reported flat_map]. fold (reported more). now rewrite Hrep, List.app_nil_r.
Qed.

Lemma next_window_starts_in_overlap (s : gstate) (p : window_plan) :
  plan_window sch final_position pitch s = Ok p ->
  p_is_last_time p = false ->
  p_next_start p = p_end p - s_overlap sch.
Proof.
  intros Hp Hlast.
  apply plan_window_spec in Hp as (end1 & Hge & _ & Hns & Hne & Hcase).
  destruct Hcase as [(_ & _ & Ht) | (Hpitch & Hend & _)]; [congruence | lia].
Qed.

Lemma last_window_ends_the_span (s : gstate) (p : window_plan) :
  plan_window sch final_position pitch s = Ok p ->
  is_last_time s = false -> p_is_last_time p = true ->
  p_end p = final_position.
Proof.
  intros Hp Hs Hlast.
  apply plan_window_spec in Hp as (end1 & Hge & _ & Hns & Hne & Hcase).
  destruct Hcase as [(Hlt & Hend & _) | (_ & _ & Hsame)]; [lia | congruence].
Qed.

(** X10: the plan of lines 478-519.  A window that is not the last one
    is followed by a window that starts exactly [overlap] bases before
    its end, is [pitch] bases long and ends within the span; a window
    that line 517 makes the last one ends at the end of the span; and
    if the pitch is at least the overlap, no window ends beyond the
    span, whatever structural variants asked for. *)
Theorem window_plan_geometry (s : gstate) (p : window_plan) :
  plan_window sch final_position pitch s = Ok p ->
  (p_is_last_time p = false ->
   p_next_start p = p_end p - s_overlap sch /\
   p_next_end p = p_next_start p + pitch /\ p_next_end p <= final_position) /\
  (is_last_time s = false -> p_is_last_time p = true -> p_end p = final_position) /\
  (s_overlap sch <= pitch -> p_end p <= final_position).
Proof.
  intros Hp. pose proof (plan_window_end_le sch final_position pitch s p) as Hle.
  apply plan_window_spec in Hp as (end1 & Hge & _ & Hns & Hne & Hcase).
  split; [|split].
  - intros Hlast. destruct Hcase as [(_ & _ & Ht) | (Hpitch & Hend & _)]; [congruence|].
    lia.
  - intros Hs Hlast. destruct Hcase as [(Hlt & Hend & _) | (_ & _ & Hsame)]; [lia|].
    congruence.
  - intros Hov. destruct Hcase as [(Hlt & Hend & _) | (Hpitch & Hend & _)]; lia.
Qed.

(** A loop that ends well has only added to the log; its ledger is the
    tally of what the added events report; and it has visited every
    position from the start of its first window to the end of the span. *)
Lemma window_loop_trace :
  forall fuel (s s' : gstate),
    window_loop sch final_position pitch fuel s = (Some (Ok tt), s') ->
    exists more,
      events s' = events s ++ more /\
      all_variants_out s' = tally (reported more) (all_variants_out s) /\
      (0 <= s_overlap sch -> s_overlap sch < pitch ->
       (is_last_time s = true -> final_position <= end_ s) ->
       forall x, start s <= x < final_position -> visited more x).
Proof.
  induction fuel as [|fuel IH]; intros s s'; simpl; [discriminate|].
  destruct (window_step sch final_position pitch s) as [[[|]|c|x] s1] eqn:Hstep;
    try discriminate.
  - (* Continue *)
    intros Hloop.
    apply window_step_result in Hstep
      as (p & Hp & (e & more0 & Hev & Hwin & Hout) & Hst & Hen
            & [[? _]|(_ & Hlast & Hflag)]);
      [discriminate|].
    pose proof (next_window_starts_in_overlap s p Hp Hlast) as Hns.
    destruct (IH s1 s' Hloop) as (more1 & Hev1 & Hout1 & Hcov1).
    exists ((e :: more0) ++ more1). split; [|split].
    + rewrite Hev1, Hev. now rewrite <- List.app_assoc.
    + rewrite Hout1, Hout. unfold reported, tally.
      now rewrite List.flat_map_app, List.fold_left_app.
    + intros Hov Hpitch Hinv x Hx.
      destruct (Z.lt_ge_cases x (p_end p)) as [Hin|Hbeyond].
      * exists e. split; [apply in_or_app; left; now left|]. rewrite Hwin. simpl. lia.
      * destruct (Hcov1 Hov Hpitch) with (x := x) as (e1 & Hin1 & Hw1); [|lia|].
        { rewrite Hflag, Hen. intros Hle. now apply Z.leb_le. }
        exists e1. split; [apply in_or_app; now right | exact Hw1].
  - (* Break *)
    intros [= <-].
    apply window_step_result in Hstep
      as (p & Hp & (e & more0 & Hev & Hwin & Hout) & Hst & Hen
            & [[_ Hlast]|(? & _)]);
      [|discriminate].
    exists (e :: more0). split; [exact Hev|]. split; [exact Hout|].
    intros Hov Hpitch Hinv x Hx. exists e. split; [now left|]. rewrite Hwin. simpl.
    assert (Hend : p_end p = final_position).
    { destruct (is_last_time s) eqn:Hs.
      - specialize (Hinv eq_refl).
        apply plan_window_spec in Hp as (end1 & Hge & _ & Hns & Hne & Hcase).
        destruct Hcase as [(Hlt & Hend & _) | (Hge' & Hend & _)]; lia.
      - now apply (last_window_ends_the_span s p Hp). }
    lia.
Qed.

End WindowGeometry.

Lemma window_plan_geometry_witness :
  let sch := Demo.single_end [] 10 false ∅ in
  let s := first_window 0 2500 1250 (contig_start (container := list variant) 0%nat) in
  let p := {| p_vars_in_window := []; p_v_index := 0%nat; p_end := 1250;
              p_next_start := 1240; p_next_end := 2490; p_is_last_time := false |} in
  plan_window sch 2500 1250 s = Ok p /\
  p_next_start p = p_end p - 10 /\ p_next_end p = p_next_start p + 1250.
Proof.
  intros sch s p. split; [reflexivity|].
  destruct (window_plan_geometry sch 2500 1250 s p) as (Hnext & _); [reflexivity|].
  destruct (Hnext eq_refl) as (Hns & Hne & _). split; [exact Hns | exact Hne].
Defined.

(** ** The ledger of applied variants *)

Lemma tally_spec (rows : list variant) :
  forall out, List.NoDup out ->
    List.NoDup (tally rows out) /\
    forall v, In v (tally rows out) <-> In v out \/ In v rows.
Proof.
  unfold tally. induction rows as [|row rows IH]; intros out Hout; simpl.
  - split; [exact Hout | tauto].
  - destruct (decide (row ∈ out)) as [Hin|Hnot].
    + destruct (IH out Hout) as (Hnd & Hmem). split; [exact Hnd|].
      intros v. rewrite Hmem. apply list_elem_of_In in Hin.
      split; [tauto|]. intros [?|[<-|?]]; tauto.
    + rewrite list_elem_of_In in Hnot.
      destruct (IH (out ++ [row])) as (Hnd & Hmem).
      { apply NoDup_ListNoDup. apply NoDup_ListNoDup in Hout.
        apply NoDup_app. split; [exact Hout|]. split; [|apply NoDup_singleton].
        intros x Hx Hx'. apply list_elem_of_singleton in Hx' as ->.
        now apply list_elem_of_In in Hx. }
      split; [exact Hnd|]. intros v. rewrite Hmem, List.in_app_iff. simpl. tauto.
Qed.

(** ** A contig, span after span *)

Section ContigWalk.
Context {container io : Type} `{!Collaborators container io}.
Variable sch : schedule.
Hypothesis overlap_nonneg : 0 <= s_overlap sch.
Hypothesis overlap_below_target : s_overlap sch < s_target_size sch.
Hypothesis overlap_below_minimum : s_overlap sch < s_overlap_min_window_size sch.

Abbreviation wstate := (loop_state container io).

(** Lines 463-467: a span that is walked has a pitch above the overlap,
    and is not empty. *)
Lemma walked_span_pitch (i f n : Z) :
  number_target_windows i f (s_target_size sch) = Ok n ->
  span_too_small sch n (f - i) = false ->
  i <= f /\ s_overlap sch < base_pair_distance i f n.
Proof.
  unfold number_target_windows, span_too_small.
  destruct (Z.eqb_spec (s_target_size sch) 0) as [|Hts]; [discriminate|].
  intros [= <-].
  destruct (Z.max_spec 1 ((f - i) / s_target_size sch)) as [[Hlt ->]|[Hge ->]];
    intros Hsmall.
  - assert (Hspan : s_target_size sch * ((f - i) / s_target_size sch) <= f - i)
      by (apply Z.mul_div_le; lia).
    assert (Hif : i <= f) by nia.
    split; [exact Hif|]. rewrite base_pair_distance_div by lia.
    apply Z.lt_le_trans with (s_target_size sch); [lia|].
    apply Z.div_le_lower_bound; lia.
  - simpl in Hsmall. apply Z.ltb_ge in Hsmall.
    split; [lia|]. rewrite base_pair_distance_div by lia.
    rewrite Z.div_1_r. lia.
Qed.

Lemma span_walk_trace (fuel : nat) (i f : Z) (s s' : wstate) :
  span_walk sch fuel (i, f) s = (Some (Ok tt), s') ->
  exists more,
    events s' = events s ++ more /\
    all_variants_out s' = tally (reported more) (all_variants_out s) /\
    (s_overlap_min_window_size sch <= f - i ->
     forall x, i <= x < f -> visited more x).
Proof.
  unfold span_walk.
  destruct (number_target_windows i f (s_target_size sch)) as [n|c|x] eqn:Hn;
    try discriminate.
  destruct (span_too_small sch n (f - i)) eqn:Hsmall.
  - intros [= <-]. exists []. rewrite List.app_nil_r. repeat split.
    intros Hlen. unfold span_too_small in Hsmall.
    apply andb_prop in Hsmall as [_ Hlt]. apply Z.ltb_lt in Hlt. lia.
  - intros Hloop. destruct (walked_span_pitch i f n Hn Hsmall) as (_ & Hpitch).
    apply window_loop_trace in Hloop as (more & Hev & Hout & Hcov).
    exists more. split; [exact Hev|]. split; [exact Hout|].
    intros _ x Hx.
    exact (Hcov overlap_nonneg Hpitch ltac:(simpl; discriminate) x Hx).
Qed.

Lemma span_walk_ends (fuel : nat) (i f : Z) (s : wstate) :
  (S (Z.to_nat (f - i)) < fuel)%nat ->
  fst (span_walk sch fuel (i, f) s) <> None.
Proof.
  intros Hfuel. unfold span_walk.
  destruct (number_target_windows i f (s_target_size sch)) as [n|c|x] eqn:Hn;
    try discriminate.
  destruct (span_too_small sch n (f - i)) eqn:Hsmall; [discriminate|].
  destruct (walked_span_pitch i f n Hn Hsmall) as (Hif & Hpitch).
  apply window_loop_terminates; [exact Hpitch|].
  unfold windows_left, first_window. simpl. lia.
Qed.

End ContigWalk.

Lemma visited_app (a b : list event) (x : Z) :
  visited a x \/ visited b x -> visited (a ++ b) x.
Proof.
  intros [(e & Hin & Hx)|(e & Hin & Hx)]; exists e;
    (split; [apply in_or_app; auto | exact Hx]).
Qed.

Lemma contig_walk_trace {container io : Type} `{!Collaborators container io}
    (sch : schedule) (fuel : nat) (spans : list (Z * Z)) :
  forall s s' : loop_state container io,
    contig_walk sch fuel spans s = (Some (Ok tt), s') ->
    exists more,
      events s' = events s ++ more /\
      all_variants_out s' = tally (reported more) (all_variants_out s) /\
      (0 <= s_overlap sch -> s_overlap sch < s_target_size sch ->
       s_overlap sch < s_overlap_min_window_size sch ->
       forall i f, In (i, f) spans -> s_overlap_min_window_size sch <= f - i ->
                   forall x, i <= x < f -> visited more x).
Proof.
  induction spans as [|[i f] spans IH]; intros s s'; cbn [contig_walk].
  - intros [= <-]. exists []. rewrite List.app_nil_r. repeat split.
    intros _ _ _ i f [].
  - destruct (span_walk sch fuel (i, f) s) as [[[[]|c|x]|] s1] eqn:Hspan;
      try discriminate.
    intros Hrest. apply IH in Hrest as (more1 & Hev1 & Hout1 & Hcov1).
    assert (Hfirst : exists more0,
               events s1 = events s ++ more0 /\
               all_variants_out s1 = tally (reported more0) (all_variants_out s) /\
               (0 <= s_overlap sch -> s_overlap sch < s_target_size sch ->
                s_overlap sch < s_overlap_min_window_size sch ->
                s_overlap_min_window_size sch <= f - i ->
                forall x, i <= x < f -> visited more0 x)).
    { unfold span_walk in Hspan.
      destruct (number_target_windows i f (s_target_size sch)) as [n|c|x] eqn:Hn;
        try discriminate.
      destruct (span_too_small sch n (f - i)) eqn:Hsmall.
      - injection Hspan as <-. exists []. rewrite List.app_nil_r. repeat split.
        intros _ _ _ Hlen. unfold span_too_small in Hsmall.
        apply andb_prop in Hsmall as [_ Hlt]. apply Z.ltb_lt in Hlt. lia.
      - apply window_loop_trace in Hspan as (more0 & Hev & Hout & Hcov).
        exists more0. split; [exact Hev|]. split; [exact Hout|].
        intros H0 Hts Hmin _ x Hx.
        destruct (walked_span_pitch sch H0 Hts Hmin i f n Hn Hsmall) as (_ & Hpitch).
        exact (Hcov H0 Hpitch ltac:(simpl; discriminate) x Hx). }
    destruct Hfirst as (more0 & Hev0 & Hout0 & Hcov0).
    exists (more0 ++ more1). split; [|split].
    + rewrite Hev1, Hev0. now rewrite <- List.app_assoc.
    + rewrite Hout1, Hout0. unfold reported, tally.
      now rewrite List.flat_map_app, List.fold_left_app.
    + intros H0 Hts Hmin i' f' [[= <- <-]|Hin] Hlen x Hx; apply visited_app.
      * left. now apply Hcov0.
      * right. now apply (Hcov1 H0 Hts Hmin i' f').
Qed.

(** X11: a walk over the spans of a contig that ends well has visited
    every position of every span that is at least
    [overlap_min_window_size] long: each lies in a window that was
    sampled or reported as skipped (lines 461-519, 842-848).  The
    overlap must be below the target size and the minimum window size,
    as it is for the sizes of lines 440-447. *)
Theorem contig_walk_visits_every_position {container io : Type}
    `{!Collaborators container io} (sch : schedule) (fuel : nat)
    (spans : list (Z * Z)) (s s' : loop_state container io) :
  0 <= s_overlap sch -> s_overlap sch < s_target_size sch ->
  s_overlap sch < s_overlap_min_window_size sch ->
  contig_walk sch fuel spans s = (Some (Ok tt), s') ->
  exists more,
    events s' = events s ++ more /\
    forall i f, In (i, f) spans -> s_overlap_min_window_size sch <= f - i ->
                forall x, i <= x < f -> visited more x.
Proof.
  intros H0 Hts Hmin Hwalk.
  apply contig_walk_trace in Hwalk as (more & Hev & _ & Hcov).
  exists more. split; [exact Hev | exact (Hcov H0 Hts Hmin)].
Qed.

Lemma contig_walk_visits_every_position_witness :
  let sch := Demo.single_end [] 10 false ∅ in
  let s0 := contig_start (container := list variant) 0%nat in
  let s' := snd (contig_walk sch 10 [(0, 2500); (3000, 3015); (4000, 4100)] s0) in
  visited (events s') 1245 /\ visited (events s') 2499 /\ visited (events s') 4000.
Proof.
  intros sch s0 s'.
  destruct (contig_walk_visits_every_position sch 10
              [(0, 2500); (3000, 3015); (4000, 4100)] s0 s')
    as (more & Hev & Hcov);
    [simpl; lia | simpl; lia | simpl; lia | vm_compute; reflexivity |].
  rewrite Hev. simpl. split; [|split].
  - apply (Hcov 0 2500); [simpl; tauto | simpl; lia | lia].
  - apply (Hcov 0 2500); [simpl; tauto | simpl; lia | lia].
  - apply (Hcov 4000 4100); [simpl; tauto | simpl; lia | lia].
Defined.

(** X12: the window loops of a contig end.  With the overlap below the
    target size and the minimum window size, a walk that may make more
    passes per span than the span has positions plus one never runs out
    of them: every [while True] loop of lines 477-848 reaches its
    [break], an exit or an exception. *)
Theorem contig_walk_terminates {container io : Type}
    `{!Collaborators container io} (sch : schedule) (fuel : nat)
    (spans : list (Z * Z)) (s : loop_state container io) :
  0 <= s_overlap sch -> s_overlap sch < s_target_size sch ->
  s_overlap sch < s_overlap_min_window_size sch ->
  List.Forall (fun span => (S (Z.to_nat (snd span - fst span)) < fuel)%nat) spans ->
  exists r, fst (contig_walk sch fuel spans s) = Some r.
Proof.
  intros H0 Hts Hmin Hall. revert s.
  induction Hall as [|[i f] spans Hfuel Hall IH]; intros s; cbn [contig_walk];
    [now exists (Ok tt)|].
  pose proof (span_walk_ends sch H0 Hts Hmin fuel i f s Hfuel) as Hend.
  destruct (span_walk sch fuel (i, f) s) as [[[[]|c|x]|] s1]; simpl in *;
    [apply IH | eauto | eauto | congruence].
Qed.

Lemma contig_walk_terminates_witness :
  let sch := Demo.single_end [] 10 false ∅ in
  let s0 := contig_start (container := list variant) 0%nat in
  exists r, fst (contig_walk sch 2502 [(0, 2500); (3000, 3015)] s0) = Some r.
Proof.
  intros sch s0. apply contig_walk_terminates; try (simpl; lia).
  repeat constructor; simpl; lia.
Defined.

(** X13: the ledger [all_variants_out] of lines 839-840.  After a walk
    that ends well the ledger is the old one followed by the variants
    that [random_mutations] reported in the windows of the walk, in
    that order and each once: no key is repeated, and a variant is in
    the ledger exactly if it was there before or was reported for a
    sampled window. *)
Theorem ledger_holds_the_reported_variants {container io : Type}
    `{!Collaborators container io} (sch : schedule) (fuel : nat)
    (spans : list (Z * Z)) (s s' : loop_state container io) :
  List.NoDup (all_variants_out s) ->
  contig_walk sch fuel spans s = (Some (Ok tt), s') ->
  exists more,
    events s' = events s ++ more /\
    all_variants_out s' = tally (reported more) (all_variants_out s) /\
    List.NoDup (all_variants_out s') /\
    forall v, In v (all_variants_out s')
              <-> In v (all_variants_out s) \/ In v (reported more).
Proof.
  intros Hnd Hwalk.
  apply contig_walk_trace in Hwalk as (more & Hev & Hout & _).
  exists more. split; [exact Hev|]. split; [exact Hout|].
  rewrite Hout. now apply tally_spec.
Qed.

Lemma ledger_holds_the_reported_variants_witness :
  let sch := Demo.single_end [Demo.snv 6; Demo.snv 100] 10 false ∅ in
  let s0 := {| start := 0; end_ := 0; vars_from_prev_overlap := [];
               v_index_from_prev := 0%nat; is_last_time := false;
               sequences := None; all_variants_out := [Demo.snv 5];
               world := 0%nat; events := [] |} in
  let s' := snd (contig_walk sch 10 [(0, 300)] s0) in
  reported (events s') = [Demo.snv 5; Demo.snv 99] /\
  all_variants_out s' = [Demo.snv 5; Demo.snv 99].
Proof.
  intros sch s0 s'.
  destruct (ledger_holds_the_reported_variants sch 10 [(0, 300)] s0 s')
    as (more & Hev & Hout & _);
    [repeat constructor; simpl; tauto | vm_compute; reflexivity |].
  split; [vm_compute; reflexivity|].
  rewrite Hout. simpl in Hev. rewrite <- Hev. vm_compute. reflexivity.
Defined.

(** ** The read loop *)

Section Masking.
Variable off_q : Z.
Variable n_max_qual : Z.

Lemma mask_from_spec (quals : list ascii) :
  forall (m : nat) (bases : list ascii),
    (m + List.length quals <= List.length bases)%nat ->
    exists masked,
      mask_from off_q n_max_qual m quals bases = Ok masked /\
      List.length masked = List.length bases /\
      (forall k, (k < m)%nat -> masked !! k = bases !! k) /\
      (forall j, masked !! (m + j)%nat
                 = match quals !! j with
                   | Some q => if low_quality off_q n_max_qual q
                               then Some "N"%char else bases !! (m + j)%nat
                   | None => bases !! (m + j)%nat
                   end).
Proof.
  induction quals as [|q quals IH]; intros m bases Hlen; cbn [mask_from].
  - exists bases. repeat split.
  - cbn [List.length] in Hlen.
    assert (Hm : (m < List.length bases)%nat) by lia.
    destruct (low_quality off_q n_max_qual q) eqn:Hlow.
    + apply Nat.ltb_lt in Hm as Hmb. rewrite Hmb.
      destruct (IH (S m) (<[m := "N"%char]> bases)) as (masked & Hrun & Hl & Hlo & Hhi).
      { rewrite length_insert. lia. }
      rewrite length_insert in Hl.
      exists masked. split; [exact Hrun|]. split; [exact Hl|]. split.
      * intros k Hk. rewrite Hlo by lia. apply list_lookup_insert_ne. lia.
      * intros [|j].
        -- rewrite Nat.add_0_r, Hlo by lia. cbn [lookup list_lookup]. rewrite Hlow.
           now apply list_lookup_insert_eq.
        -- replace (m + S j)%nat with (S m + j)%nat by lia. rewrite Hhi.
           rewrite list_lookup_insert_ne by lia. reflexivity.
    + destruct (IH (S m) bases) as (masked & Hrun & Hl & Hlo & Hhi); [lia|].
      exists masked. split; [exact Hrun|]. split; [exact Hl|]. split.
      * intros k Hk. apply Hlo. lia.
      * intros [|j].
        -- rewrite Nat.add_0_r, Hlo by lia. cbn [lookup list_lookup]. now rewrite Hlow.
        -- replace (m + S j)%nat with (S m + j)%nat by lia. rewrite Hhi. reflexivity.
Qed.

(** X14: the masking of lines 706-713 on a read with no more
    qualities than bases.  The read keeps its position, CIGAR,
    qualities and length, and the base at index [k] is [N] exactly
    where the quality at [k], less [off_q], is at most [n_max_qual];
    every other base is as it was. *)
Theorem masking_replaces_low_quality_bases (r : read) :
  (List.length (rd_quals r) <= List.length (rd_bases r))%nat ->
  exists masked,
    mask_read off_q n_max_qual r = Ok masked /\
    rd_pos masked = rd_pos r /\ rd_cigar masked = rd_cigar r /\
    rd_quals masked = rd_quals r /\
    List.length (rd_bases masked) = List.length (rd_bases r) /\
    forall k, rd_bases masked !! k
              = match rd_quals r !! k with
                | Some q => if ord q - off_q <=? n_max_qual
                            then Some "N"%char else rd_bases r !! k
                | None => rd_bases r !! k
                end.
Proof.
  intros Hlen. unfold mask_read.
  destruct (mask_from_spec (rd_quals r) 0 (rd_bases r)) as (bases & Hrun & Hl & _ & Hhi);
    [simpl; lia|].
  rewrite Hrun. eexists. split; [reflexivity|]. simpl. repeat split; [exact Hl|].
  intros k. exact (Hhi k).
Qed.

(** A quality that is low where the read has no base stops the run. *)
Lemma mask_from_overrun (quals : list ascii) :
  forall (m : nat) (bases : list ascii) (j : nat) (q : ascii),
    quals !! j = Some q -> low_quality off_q n_max_qual q = true ->
    (List.length bases <= m + j)%nat ->
    mask_from off_q n_max_qual m quals bases = Raised "IndexError".
Proof.
  induction quals as [|q0 quals IH]; intros m bases j q Hq Hlow Hlen; [discriminate|].
  cbn [mask_from]. destruct j as [|j].
  - injection Hq as ->. rewrite Hlow.
    destruct (Nat.ltb_spec m (List.length bases)); [lia | reflexivity].
  - cbn [lookup list_lookup] in Hq.
    destruct (low_quality off_q n_max_qual q0).
    + destruct (Nat.ltb_spec m (List.length bases)); [|reflexivity].
      apply (IH (S m) _ j q Hq Hlow). rewrite length_insert. lia.
    + apply (IH (S m) _ j q Hq Hlow). lia.
Qed.

End Masking.

Lemma masking_replaces_low_quality_bases_witness :
  let r := {| rd_pos := Some 7; rd_cigar := [OpM; OpM; OpM];
              rd_bases := ["A"; "C"; "G"]%char; rd_quals := ["I"; "#"; "I"]%char |} in
  exists masked,
    mask_read 33 2 r = Ok masked /\ rd_bases masked = ["A"; "N"; "G"]%char.
Proof.
  intros r.
  destruct (masking_replaces_low_quality_bases 33 2 r) as (masked & Hrun & _);
    [simpl; lia|].
  exists masked. split; [exact Hrun|].
  vm_compute in Hrun. injection Hrun as <-. reflexivity.
Defined.

(** *** Comprehensions that raise *)

Lemma for_each_ok_or_raised {A B : Type} (f : A -> exec B) (x : string) (l : list A) :
  (forall a, In a l -> (exists b, f a = Ok b) \/ f a = Raised x) ->
  (exists bs, for_each f l = Ok bs /\ List.length bs = List.length l)
  \/ for_each f l = Raised x.
Proof.
  induction l as [|a l IH]; intros Hall; cbn [for_each].
  - left. now exists [].
  - destruct (Hall a (or_introl eq_refl)) as [[b ->]| ->]; [|now right].
    destruct IH as [(bs & -> & Hlen)| ->]; [intros a' Ha'; apply Hall; now right| |].
    + left. exists (b :: bs). simpl. now rewrite Hlen.
    + now right.
Qed.

Lemma for_each_raises {A B : Type} (f : A -> exec B) (x : string) (l : list A) :
  (forall a, In a l -> (exists b, f a = Ok b) \/ f a = Raised x) ->
  List.Exists (fun a => f a = Raised x) l ->
  for_each f l = Raised x.
Proof.
  intros Hall Hex. induction Hex as [a l Ha|a l Hex IH]; cbn [for_each].
  - now rewrite Ha.
  - destruct (Hall a (or_introl eq_refl)) as [[b ->]| ->]; [|reflexivity].
    rewrite IH; [reflexivity|]. intros a' Ha'. apply Hall. now right.
Qed.

(** With the contig among its keys, a BED filter raises [TypeError] on
    any list of reads one of which has no position. *)
Lemma boundaries_of_unmapped (regions : gmap string (list Z)) (chrom : string)
    (my_read_data : list read) :
  is_Some (regions !! chrom) ->
  List.Exists (fun r => rd_pos r = None) my_read_data ->
  boundaries regions chrom my_read_data = Raised "TypeError".
Proof.
  intros [l Hl] Hex. unfold boundaries, regions_of. rewrite Hl.
  match goal with
  | |- context [for_each ?f my_read_data ≫= _] =>
      destruct (for_each_ok_or_raised f "TypeError" my_read_data) as [(bs & -> & _)| ->]
  end; [| |reflexivity].
  - intros r _. simpl. destruct (rd_pos r); simpl; [left; eauto|].
    destruct l; [left; eauto | now right].
  - simpl. rewrite (for_each_raises _ "TypeError"); [reflexivity| |].
    + intros r _. simpl. unfold end_of_read. destruct (rd_pos r); simpl; [left; eauto|now right].
    + eapply List.Exists_impl; [|exact Hex]. intros r Hr. simpl.
      unfold end_of_read. now rewrite Hr.
Qed.

Lemma place_reads_keeps_unmapped (paired_end : bool) (start : Z)
    (my_read_data placed : list read) (is_unmapped : list bool) :
  place_reads paired_end start my_read_data = Ok (placed, is_unmapped) ->
  List.Exists (fun r => rd_pos r = None) my_read_data ->
  List.Exists (fun r => rd_pos r = None) placed.
Proof.
  assert (Hshift : forall r, rd_pos r = None -> rd_pos (shifted start r) = None)
    by (intros r Hr; unfold shifted; simpl; now rewrite Hr).
  unfold place_reads. destruct my_read_data as [|r0 [|r1 more]]; [discriminate| |];
    destruct paired_end; try discriminate; intros [= <- <-] Hex.
  - apply List.Exists_cons in Hex as [H0|Hex]; [|now apply List.Exists_nil in Hex].
    apply List.Exists_cons_hd. now apply Hshift.
  - apply List.Exists_cons in Hex as [H0|Hex]; [apply List.Exists_cons_hd; now apply Hshift|].
    apply List.Exists_cons_tl.
    apply List.Exists_cons in Hex as [H1|Hex]; [apply List.Exists_cons_hd; now apply Hshift|].
    now apply List.Exists_cons_tl.
  - apply List.Exists_cons in Hex as [H0|Hex]; [apply List.Exists_cons_hd; now apply Hshift|].
    now apply List.Exists_cons_tl.
Qed.

(** X15: an unmapped read does not pass a BED filter, it stops the
    run.  When the off-target filter of lines 686-690 is on, or else
    the discard filter of lines 692-697, and the contig is a key of its
    regions, a draw in which some read has no position raises
    [TypeError] ([None] is compared or added to a number) before
    anything is named, written or kept for the end of the BAM file. *)
Theorem unmapped_read_stops_a_filtered_run (sam_flag : list string -> Z)
    (reverse_complement : list ascii -> list ascii) (off_q : Z) (ctx : emit_ctx)
    (my_read_data : list read) (is_forward : bool) (st : emit_state) :
  (e_off_target_discard ctx && e_target_bed ctx = true
   /\ is_Some (e_target_regions ctx !! e_chrom ctx))
  \/ (e_off_target_discard ctx && e_target_bed ctx = false
      /\ e_discard_bed ctx = true
      /\ is_Some (e_discard_regions ctx !! e_chrom ctx)) ->
  ((if e_paired_end ctx then 2 else 1) <= List.length my_read_data)%nat ->
  List.Exists (fun r => rd_pos r = None) my_read_data ->
  read_iteration sam_flag reverse_complement off_q ctx (Some my_read_data) is_forward st
  = (Raised "TypeError", st).
Proof.
  intros Hfilter Hlen Hex. unfold read_iteration.
  destruct (place_reads (e_paired_end ctx) (e_start ctx) my_read_data)
    as [[placed is_unmapped]|c|x] eqn:Hplace.
  - apply (place_reads_keeps_unmapped _ _ _ _ _ Hplace) in Hex.
    cbn [mbind exec_bind]. unfold outside_boundaries.
    destruct Hfilter as [(-> & Hkey)|(-> & -> & Hkey)].
    + now rewrite (boundaries_of_unmapped _ _ _ Hkey Hex).
    + cbn [mbind exec_bind]. now rewrite (boundaries_of_unmapped _ _ _ Hkey Hex).
  - unfold place_reads in Hplace.
    destruct my_read_data as [|r0 [|r1 more]], (e_paired_end ctx);
      simpl in Hlen; try lia; discriminate.
  - unfold place_reads in Hplace.
    destruct my_read_data as [|r0 [|r1 more]], (e_paired_end ctx);
      simpl in Hlen; try lia; discriminate.
Qed.

Lemma unmapped_read_stops_a_filtered_run_witness :
  let ctx := {| e_paired_end := false; e_off_target_discard := false;
                e_target_bed := false; e_discard_bed := true;
                e_target_regions := ∅;
                e_discard_regions := {[ "chr1" := [100; 200] ]};
                e_chrom := "chr1"; e_chrom_index := 0; e_start := 1000;
                e_n_max_qual := -1; e_no_fastq := false; e_save_bam := true;
                e_out_prefix_name := "out" |} in
  let st := {| read_name_count := 1; unmapped_records := []; written := [] |} in
  let r := {| rd_pos := None; rd_cigar := []; rd_bases := ["A"]%char;
              rd_quals := ["I"]%char |} in
  read_iteration (fun _ => 4) (fun b => b) 33 ctx (Some [r]) true st
  = (Raised "TypeError", st).
Proof.
  intros ctx st r. apply unmapped_read_stops_a_filtered_run.
  - right. split; [reflexivity|]. split; [reflexivity|]. now exists [100; 200].
  - simpl. lia.
  - apply List.Exists_cons_hd. reflexivity.
Defined.

(** *** What a pass of the read loop hands to the writer *)

Section Emitting.
Variable sam_flag : list string -> Z.
Variable reverse_complement : list ascii -> list ascii.
Variable off_q : Z.
Variable ctx : emit_ctx.

Lemma place_reads_spec (my_read_data placed : list read) (is_unmapped : list bool) :
  place_reads (e_paired_end ctx) (e_start ctx) my_read_data = Ok (placed, is_unmapped) ->
  List.length placed = List.length my_read_data /\
  (0 < List.length placed)%nat /\
  is_unmapped = List.map is_unmapped_read
                         (List.firstn (if e_paired_end ctx then 2 else 1) placed).
Proof.
  unfold place_reads. destruct my_read_data as [|r0 [|r1 more]]; [discriminate| |];
    destruct (e_paired_end ctx); try discriminate; intros [= <- <-]; simpl;
    (split; [reflexivity|]); (split; [lia|]);
    unfold is_unmapped_read; simpl.
  - now destruct (rd_pos r0).
  - now destruct (rd_pos r0), (rd_pos r1).
  - now destruct (rd_pos r0).
Qed.

Lemma mask_read_keeps_position (n : Z) (r masked : read) :
  mask_read off_q n r = Ok masked -> rd_pos masked = rd_pos r.
Proof.
  unfold mask_read.
  destruct (mask_from off_q n 0 (rd_quals r) (rd_bases r)) as [bases|c|x];
    try discriminate.
  now intros [= <-].
Qed.

Lemma for_each_mask_keeps_positions (n : Z) (reads : list read) :
  forall masked, for_each (mask_read off_q n) reads = Ok masked ->
                 List.map rd_pos masked = List.map rd_pos reads.
Proof.
  induction reads as [|r reads IH]; intros masked; cbn [for_each].
  - now intros [= <-].
  - destruct (mask_read off_q n r) as [m|c|x] eqn:Hm; try discriminate.
    destruct (for_each (mask_read off_q n) reads) as [rest|c|x]; try discriminate.
    intros [= <-]. simpl.
    now rewrite (IH rest eq_refl), (mask_read_keeps_position n r m Hm).
Qed.

Lemma mask_reads_keeps_positions (reads masked : list read) :
  mask_reads off_q ctx reads = Ok masked ->
  List.map rd_pos masked = List.map rd_pos reads.
Proof.
  unfold mask_reads. destruct (-1 <? e_n_max_qual ctx).
  - apply for_each_mask_keeps_positions.
  - now intros [= <-].
Qed.

Lemma unmapped_flags_of_masked (k : nat) (reads masked : list read) :
  List.map rd_pos masked = List.map rd_pos reads ->
  List.map is_unmapped_read (List.firstn k reads)
  = List.map is_unmapped_read (List.firstn k masked).
Proof.
  revert k masked. induction reads as [|r reads IH]; intros k [|m masked]; try discriminate.
  - reflexivity.
  - intros [= Hpos Hrest]. destruct k as [|k]; [reflexivity|]. simpl.
    rewrite (IH k masked Hrest). unfold is_unmapped_read. now rewrite Hpos.
Qed.

(** Lines 719-831, given flags that tell which of the first reads are
    unmapped. *)
Lemma write_reads_emits (my_read_name : string) (masked : list read)
    (is_forward : bool) (st1 st2 st' : emit_state) (r : exec unit) :
  let is_unmapped :=
    List.map is_unmapped_read
             (List.firstn (if e_paired_end ctx then 2 else 1) masked) in
  defer_unmapped sam_flag ctx my_read_name masked is_unmapped is_forward st1 = Ok st2 ->
  write_reads sam_flag reverse_complement ctx my_read_name masked is_unmapped
              is_forward st2 = (r, st') ->
  exists new deferred,
    written st' = written st1 ++ new /\
    unmapped_records st' = unmapped_records st1 ++ deferred /\
    read_name_count st' = read_name_count st1 /\
    (forall o, In o new -> output_name o = my_read_name) /\
    (List.length (List.filter is_fastq new) <= 1)%nat /\
    (e_no_fastq ctx = true -> forall o, In o new -> is_fastq o = false) /\
    (e_save_bam ctx = false -> forall o, In o new -> is_fastq o = true) /\
    (forall o, In o new -> bam_pos o <> Some None) /\
    (forall rec, In rec deferred -> rd_pos rec.1.2 = None).
Proof.
  cbv zeta.
  unfold defer_unmapped, write_reads, write_single, write_pair, pair_records,
    is_unmapped_read.
  destruct masked as [|r0 [|r1 [|r2 more]]]; simpl;
    destruct (e_paired_end ctx), (e_no_fastq ctx), (e_save_bam ctx); simpl;
    try destruct (rd_pos r0) as [p0|] eqn:Hp0;
    try destruct (rd_pos r1) as [p1|] eqn:Hp1;
    simpl; try discriminate;
    intros [= <-] [= <- <-]; simpl;
    eexists _, _;
    (split; [try rewrite <- List.app_assoc; try (symmetry; apply List.app_nil_r); reflexivity|]);
    (split; [try (symmetry; apply List.app_nil_r); reflexivity|]);
    (split; [reflexivity|]);
    repeat split; simpl; try lia; try discriminate;
    try (intros o Ho; repeat destruct Ho as [<-|Ho]; try destruct Ho;
         try destruct is_forward; simpl; congruence);
    try (intros _ o Ho; repeat destruct Ho as [<-|Ho]; try destruct Ho;
         try destruct is_forward; simpl; congruence);
    try (destruct is_forward; simpl; lia).
Qed.

End Emitting.

Lemma read_name_inj (ctx : emit_ctx) (k k' : Z) :
  read_name ctx k = read_name ctx k' -> k = k'.
Proof.
  unfold read_name. intros Heq.
  do 4 apply (inj (String.append _)) in Heq.
  now apply (inj pretty) in Heq.
Qed.

Section ReadLoopFacts.
Variable sam_flag : list string -> Z.
Variable reverse_complement : list ascii -> list ascii.
Variable off_q : Z.
Variable ctx : emit_ctx.

Abbreviation one_pass := (read_iteration sam_flag reverse_complement off_q ctx).
Abbreviation passes := (read_loop sam_flag reverse_complement off_q ctx).

(** Lines 651-831: what a pass adds, however it ends. *)
Lemma read_iteration_emits (sampled : option (list read)) (is_forward : bool)
    (st st' : emit_state) (r : exec unit) :
  one_pass sampled is_forward st = (r, st') ->
  exists new deferred,
    written st' = written st ++ new /\
    unmapped_records st' = unmapped_records st ++ deferred /\
    read_name_count st <= read_name_count st' /\
    (new <> [] -> read_name_count st < read_name_count st') /\
    (forall o, In o new -> output_name o = read_name ctx (read_name_count st)) /\
    (List.length (List.filter is_fastq new) <= 1)%nat /\
    (e_no_fastq ctx = true -> forall o, In o new -> is_fastq o = false) /\
    (e_save_bam ctx = false -> forall o, In o new -> is_fastq o = true) /\
    (forall o, In o new -> bam_pos o <> Some None) /\
    (forall rec, In rec deferred -> rd_pos rec.1.2 = None).
Proof.
  assert (Hnone : forall st0 : emit_state,
             read_name_count st <= read_name_count st0 ->
             written st0 = written st -> unmapped_records st0 = unmapped_records st ->
             exists new deferred,
               written st0 = written st ++ new /\
               unmapped_records st0 = unmapped_records st ++ deferred /\
               read_name_count st <= read_name_count st0 /\
               (new <> [] -> read_name_count st < read_name_count st0) /\
               (forall o, In o new -> output_name o = read_name ctx (read_name_count st)) /\
               (List.length (List.filter is_fastq new) <= 1)%nat /\
               (e_no_fastq ctx = true -> forall o, In o new -> is_fastq o = false) /\
               (e_save_bam ctx = false -> forall o, In o new -> is_fastq o = true) /\
               (forall o, In o new -> bam_pos o <> Some None) /\
               (forall rec, In rec deferred -> rd_pos rec.1.2 = None)).
  { intros st0 Hc Hw Hu. exists [], []. rewrite !List.app_nil_r.
    repeat split; simpl; try assumption; try lia; try congruence;
      intros; contradiction. }
  unfold read_iteration. destruct sampled as [my_read_data|];
    [|intros [= <- <-]; apply Hnone; [lia|reflexivity..]].
  destruct (place_reads (e_paired_end ctx) (e_start ctx) my_read_data)
    as [[placed is_unmapped]|c|x] eqn:Hplace;
    try (intros [= <- <-]; apply Hnone; [lia|reflexivity..]).
  apply place_reads_spec in Hplace as (_ & Hpos & ->). cbn [mbind exec_bind].
  destruct (outside_boundaries ctx placed) as [outside|c|x];
    try (intros [= <- <-]; apply Hnone; [lia|reflexivity..]).
  cbn [mbind exec_bind mret exec_ret].
  destruct (any_set outside); [intros [= <- <-]; apply Hnone; [lia|reflexivity..]|].
  destruct (mask_reads off_q ctx placed) as [masked|c|x] eqn:Hmask;
    try (intros [= <- <-]; apply Hnone; simpl; [lia|reflexivity..]).
  apply mask_reads_keeps_positions in Hmask.
  rewrite (unmapped_flags_of_masked _ placed masked Hmask).
  cbn [mbind exec_bind].
  destruct (defer_unmapped _ _ _ _ _ _ _) as [st2|c|x] eqn:Hdefer;
    try (intros [= <- <-]; apply Hnone; simpl; [lia|reflexivity..]).
  cbn [mbind exec_bind mret exec_ret].
  intros Hwrite.
  destruct (write_reads_emits sam_flag reverse_complement ctx _ _ _ _ _ _ _ Hdefer Hwrite)
    as (new & deferred & Hw & Hu & Hc & Hname & Hone & Hnf & Hsb & Hbam & Hdef).
  simpl in Hw, Hu, Hc.
  exists new, deferred. repeat split; try assumption; rewrite Hc; lia.
Qed.

(** X16: read names.  However the read loop of a window ends, each
    record it handed to the writer is named after a value the counter
    [read_name_count] had during the loop, the counter never went
    down, and no two FASTQ records share a name. *)
Theorem read_names_are_unique (draws : list (option (list read) * bool))
    (st : emit_state) :
  let st' := snd (passes draws st) in
  exists new,
    written st' = written st ++ new /\
    read_name_count st <= read_name_count st' /\
    (forall o, In o new ->
       exists k, read_name_count st <= k < read_name_count st' /\
                 output_name o = read_name ctx k) /\
    List.NoDup (List.map output_name (List.filter is_fastq new)).
Proof.
  revert st. induction draws as [|[sampled is_forward] draws IH]; intros st; simpl.
  - exists []. rewrite List.app_nil_r. repeat split; try lia; [intros o []|constructor].
  - destruct (one_pass sampled is_forward st) as [r st1] eqn:Hpass.
    apply read_iteration_emits in Hpass
      as (new0 & _ & Hw0 & _ & Hc0 & Hlt0 & Hname0 & Hone0 & _).
    assert (Hnd0 : List.NoDup (List.map output_name (List.filter is_fastq new0))).
    { destruct (List.filter is_fastq new0) as [|o [|o' l]]; simpl in *; try lia;
        repeat constructor; simpl; tauto. }
    assert (Hstop : exists new,
               written st1 = written st ++ new /\
               read_name_count st <= read_name_count st1 /\
               (forall o, In o new ->
                  exists k, read_name_count st <= k < read_name_count st1 /\
                            output_name o = read_name ctx k) /\
               List.NoDup (List.map output_name (List.filter is_fastq new))).
    { exists new0. repeat split; try assumption.
      intros o Ho. exists (read_name_count st). split; [|now apply Hname0].
      assert (new0 <> []) by (intros ->; contradiction). specialize (Hlt0 H). lia. }
    destruct r as [[]|c|x]; try exact Hstop. clear Hstop.
    destruct (IH st1) as (new1 & Hw1 & Hc1 & Hname1 & Hnd1).
    exists (new0 ++ new1). split; [|split; [|split]].
    + rewrite Hw1, Hw0. now rewrite <- List.app_assoc.
    + lia.
    + intros o Ho. apply List.in_app_or in Ho as [Ho|Ho].
      * exists (read_name_count st). split; [|now apply Hname0].
        assert (new0 <> []) by (intros ->; contradiction). specialize (Hlt0 H). lia.
      * destruct (Hname1 o Ho) as (k & Hk & Hn). exists k. split; [lia | exact Hn].
    + rewrite List.filter_app, List.map_app.
      apply NoDup_ListNoDup, NoDup_app. split; [now apply NoDup_ListNoDup|].
      split; [|now apply NoDup_ListNoDup].
      intros name Hin0 Hin1.
      apply list_elem_of_In, List.in_map_iff in Hin0 as (o0 & <- & Ho0).
      apply list_elem_of_In, List.in_map_iff in Hin1 as (o1 & Heq & Ho1).
      apply List.filter_In in Ho0 as [Ho0 _]. apply List.filter_In in Ho1 as [Ho1 _].
      destruct (Hname1 o1 Ho1) as (k & Hk & Hn).
      rewrite Hn, (Hname0 o0 Ho0) in Heq. apply read_name_inj in Heq.
      assert (new0 <> []) by (intros ->; contradiction). specialize (Hlt0 H). lia.
Qed.

(** X17: what reaches the writer.  However the read loop ends: with
    [no_fastq] no FASTQ record was written, without [save_bam] no BAM
    record; every BAM record written in the loop has a position, that
    is, no read without one is written there; every record put on
    [unmapped_records] holds a read without a position; and lines
    871-882 later turn each of these into one BAM record at position 0
    of reference -1. *)
Theorem unmapped_reads_are_kept_for_the_end (draws : list (option (list read) * bool))
    (st : emit_state) :
  let st' := snd (passes draws st) in
  exists new deferred,
    written st' = written st ++ new /\
    unmapped_records st' = unmapped_records st ++ deferred /\
    (e_no_fastq ctx = true -> forall o, In o new -> is_fastq o = false) /\
    (e_save_bam ctx = false -> forall o, In o new -> is_fastq o = true) /\
    (forall o, In o new -> bam_pos o <> Some None) /\
    (forall rec, In rec deferred -> rd_pos rec.1.2 = None) /\
    List.map (fun o => (output_name o, bam_pos o))
             (write_unmapped (e_paired_end ctx) true deferred)
    = List.map (fun rec => (rec.1.1, Some (Some 0))) deferred.
Proof.
  revert st. induction draws as [|[sampled is_forward] draws IH]; intros st; simpl.
  - exists [], []. rewrite !List.app_nil_r. repeat split; intros; contradiction.
  - destruct (one_pass sampled is_forward st) as [r st1] eqn:Hpass.
    apply read_iteration_emits in Hpass
      as (new0 & def0 & Hw0 & Hu0 & _ & _ & _ & _ & Hnf0 & Hsb0 & Hbam0 & Hdef0).
    assert (Hmap : forall l,
               List.map (fun o => (output_name o, bam_pos o))
                        (write_unmapped (e_paired_end ctx) true l)
               = List.map (fun rec => (rec.1.1, Some (Some 0))) l).
    { intros l. unfold write_unmapped. rewrite List.map_map.
      apply List.map_ext. now intros [[name rd] flag]. }
    destruct r as [[]|c|x];
      [|exists new0, def0; repeat split; auto; apply Hmap..].
    destruct (IH st1) as (new1 & def1 & Hw1 & Hu1 & Hnf1 & Hsb1 & Hbam1 & Hdef1 & _).
    exists (new0 ++ new1), (def0 ++ def1).
    split; [rewrite Hw1, Hw0; now rewrite <- List.app_assoc|].
    split; [rewrite Hu1, Hu0; now rewrite <- List.app_assoc|].
    split; [intros Hnf o Ho; apply List.in_app_or in Ho as [Ho|Ho]; auto|].
    split; [intros Hsb o Ho; apply List.in_app_or in Ho as [Ho|Ho]; auto|].
    split; [intros o Ho; apply List.in_app_or in Ho as [Ho|Ho]; auto|].
    split; [intros rec Ho; apply List.in_app_or in Ho as [Ho|Ho]; auto|].
    apply Hmap.
Qed.

End ReadLoopFacts.

(** X18: qualities that outrun the bases.  If the quality at an index
    where the read has no base is low, the masking of lines 706-713
    raises [IndexError] when it assigns to that index. *)
Theorem low_quality_beyond_the_bases_raises (off_q n_max_qual : Z) (r : read)
    (j : nat) (q : ascii) :
  rd_quals r !! j = Some q ->
  ord q - off_q <= n_max_qual ->
  (List.length (rd_bases r) <= j)%nat ->
  mask_read off_q n_max_qual r = Raised "IndexError".
Proof.
  intros Hq Hlow Hlen. unfold mask_read.
  rewrite (mask_from_overrun off_q n_max_qual (rd_quals r) 0 (rd_bases r) j q Hq);
    [reflexivity| |simpl; lia].
  unfold low_quality. now apply Z.leb_le.
Qed.

Lemma low_quality_beyond_the_bases_raises_witness :
  mask_read 33 2 {| rd_pos := Some 7; rd_cigar := [OpM]; rd_bases := ["A"]%char;
                    rd_quals := ["I"; "#"]%char |}
  = Raised "IndexError".
Proof.
  apply (low_quality_beyond_the_bases_raises 33 2 _ 1 "#"%char);
    [reflexivity | vm_compute; discriminate | simpl; lia].
Defined.

(** ** The empirical fragment-length model *)

(** X19: lines 254-259 keep values and probabilities aligned.  Given
    at least as many probabilities as values, the loop returns the
    values above the read length, in order, each with the probability
    that stood at its index. *)
Theorem empirical_fraglen_keeps_pairs (read_len : Z) (potential_values : list Z) :
  forall potential_prob : list Q,
    (List.length potential_values <= List.length potential_prob)%nat ->
    exists fraglen_values fraglen_probability,
      empirical_fraglen read_len potential_values potential_prob
      = Ok (fraglen_values, fraglen_probability) /\
      fraglen_values = List.filter (fun v => read_len <? v) potential_values /\
      List.length fraglen_probability = List.length fraglen_values /\
      List.combine fraglen_values fraglen_probability
      = List.filter (fun vp => read_len <? fst vp)
                    (List.combine potential_values potential_prob).
Proof.
  induction potential_values as [|v values IH]; intros probs Hlen; cbn [empirical_fraglen].
  - exists [], []. repeat split.
  - destruct probs as [|pr probs]; [simpl in Hlen; lia|].
    destruct (IH probs) as (vs & ps & -> & Hvs & Hl & Hc); [simpl in Hlen; lia|].
    cbn [mbind exec_bind]. simpl.
    destruct (read_len <? v); eexists _, _; (split; [reflexivity|]); simpl;
      repeat split; congruence.
Qed.

Lemma empirical_fraglen_keeps_pairs_witness :
  empirical_fraglen 100 [90; 150; 100; 300] [1 # 10; 2 # 10; 3 # 10; 4 # 10]
  = Ok ([150; 300], [2 # 10; 4 # 10]).
Proof.
  destruct (empirical_fraglen_keeps_pairs 100 [90; 150; 100; 300]
              [1 # 10; 2 # 10; 3 # 10; 4 # 10]) as (vs & ps & Hrun & _);
    [simpl; lia|].
  rewrite Hrun. vm_compute in Hrun. injection Hrun as <- <-. reflexivity.
Defined.
